(** * The IPAM consistency checker of calicoctl ([ipam check])

    A shallow embedding of [calicoctl/commands/ipam]: the checker loads the
    IPAM blocks, the IP pools, the nodes and the workload endpoints, fills
    two indexes keyed by the textual IP address ([allocations] and
    [inUseIPs]) and compares them.

    Go maps are [gmap]s, [int] is [Z], a nil-able pointer is an [option].
    The functions of the Go standard library and of libcalico-go that the
    checker calls (address parsing, CIDR containment, the datastore client)
    are the fields of the classes [NetLib] and [Client]; the order in which
    [range] walks a map, which Go leaves unspecified, is the class
    [MapRange].

    The file has four parts: the checker, the vocabulary of the statements,
    a small cluster to run the checker on, and the facts and claims proved
    about it.  Next to the checker stand the command that releases
    addresses ([ReleaseCmd]) and the reader of a migration file
    ([splitImportFile]); what is proved about them, and further about the
    checker, follows the claims. *)

From Stdlib Require Import ZArith String Ascii OrdersEx.
From stdpp Require Import gmap strings list fin_maps sorting pretty.

Open Scope string_scope.
Open Scope list_scope.

(** ** Results of Go calls *)

(** A call returns a value, returns a non-nil [error] (its text), or
    panics. *)
Inductive outcome (A : Type) : Type :=
| Done (a : A)
| Fail (err : string)
| Panic (msg : string).
Arguments Done {A} a.
Arguments Fail {A} err.
Arguments Panic {A} msg.

(** ** What the checker imports *)

Class NetLib := {
  (** [cnet.IPNet] and a non-nil [net.IP] *)
  IPNet : Type;
  IP : Type;
  IPNet_String : IPNet -> string;
  IP_String : IP -> string;
  (** [cnet.ParseCIDR], keeping the network: the right side is the error *)
  ParseCIDR : string -> IPNet + string;
  (** [cnet.ParseCIDROrIP], keeping the address *)
  ParseCIDROrIP : string -> IP + string;
  (** [net.ParseIP]: [None] is the nil address *)
  ParseIP : string -> option IP;
  (** [IPNet.Contains] *)
  Contains : IPNet -> option IP -> bool;
  (** [AllocationBlock.OrdinalToIP], which reads the block's CIDR only *)
  OrdinalToIP : IPNet -> Z -> IP;
  (** [ipam.WindowsReservedHandle] *)
  WindowsReservedHandle : string;
}.

(** The order of a [range] over a map: some enumeration of its entries. *)
Class MapRange := {
  map_range : forall {V : Type}, gmap string V -> list (string * V);
  map_range_perm : forall (V : Type) (m : gmap string V),
    map_range m ≡ₚ map_to_list m;
}.

(** ** Data model (libcalico-go's [model] and [apiv3], the fields read) *)

Section Model.
Context {lib : NetLib}.

Record AllocationAttribute := {
  AttrPrimary : option string;
  AttrSecondary : gmap string string;
}.

Record AllocationBlock := {
  CIDR : IPNet;
  Affinity : option string;
  Allocations : list (option Z);
  Attributes : list AllocationAttribute;
}.

Record IPPool := {
  pool_CIDR : string;
  pool_Disabled : bool;
}.

(** [Wireguard] and [BGP] are pointers in [NodeSpec]; the model keeps the
    one field of each that [getNodeIPs] reads. *)
Record Node := {
  node_Name : string;
  IPv4VXLANTunnelAddr : string;
  Wireguard_InterfaceIPv4Address : option string;
  BGP_IPv4IPIPTunnelAddr : option string;
}.

Record WorkloadEndpoint := {
  wep_Namespace : string;
  wep_Name : string;
  IPNetworks : list string;
}.

(** The datastore behind the two clients of the checker.  Each list call
    answers with the records or with an error, and hands back the
    datastore; the list calls of the client are reads. *)
Class Client := {
  Datastore : Type;
  ListBlocks : Datastore -> (list AllocationBlock + string) * Datastore;
  ListIPPools : Datastore -> (list IPPool + string) * Datastore;
  ListNodes : Datastore -> (list Node + string) * Datastore;
  ListWorkloadEndpoints :
    Datastore -> (list WorkloadEndpoint + string) * Datastore;
  ListBlocks_read : forall d, (ListBlocks d).2 = d;
  ListIPPools_read : forall d, (ListIPPools d).2 = d;
  ListNodes_read : forall d, (ListNodes d).2 = d;
  ListWorkloadEndpoints_read : forall d, (ListWorkloadEndpoints d).2 = d;
}.

(** ** Checker state *)

Record allocation := {
  Block : AllocationBlock;
  Ordinal : Z;
}.

(** [ownerRecord.Resource] is an [interface{}] holding what refers to the
    address. *)
Inductive referrer :=
| RefNode (n : Node)
| RefWorkload (w : WorkloadEndpoint)
| RefBlock (b : AllocationBlock).

Record ownerRecord := {
  FriendlyName : string;
  Resource : referrer;
}.

Record IPAMChecker := {
  allocations : gmap string (list allocation);
  allocationsByNode : gmap string (list string);
  inUseIPs : gmap string (list ownerRecord);
  showAllIPs : bool;
  showProblemIPs : bool;
}.

Definition NewIPAMChecker (showAllIPs showProblemIPs : bool) : IPAMChecker :=
  {| allocations := ∅;
     allocationsByNode := ∅;
     inUseIPs := ∅;
     showAllIPs := showAllIPs;
     showProblemIPs := showProblemIPs |}.

End Model.

(** ** The monad of a run

    A run threads the checker (a pointer receiver in Go), what was written
    to standard output, and the datastore.  Every [fmt.Printf] and
    [fmt.Println] of the checker writes one line; [stdout] lists them
    without the final newline. *)

Section Run.
Context {lib : NetLib} {client : Client}.

Record Run := {
  checker : IPAMChecker;
  stdout : list string;
  store : Datastore;
}.

Definition M (A : Type) : Type := Run -> outcome A * Run.

Definition ret {A} (a : A) : M A := fun s => (Done a, s).

Definition bind {A B} (m : M A) (k : A -> M B) : M B :=
  fun s =>
    match m s with
    | (Done a, s') => k a s'
    | (Fail e, s') => (Fail e, s')
    | (Panic p, s') => (Panic p, s')
    end.

Definition fail {A} (e : string) : M A := fun s => (Fail e, s).

Definition lift {A} (o : outcome A) : M A := fun s => (o, s).

Definition getChecker : M IPAMChecker := fun s => (Done (checker s), s).

Definition setChecker (c : IPAMChecker) : M unit :=
  fun s => (Done tt, {| checker := c; stdout := stdout s; store := store s |}).

Definition println (line : string) : M unit :=
  fun s => (Done tt, {| checker := checker s;
                        stdout := stdout s ++ [line];
                        store := store s |}).

(** A list call of the client; [what] is the text the error is wrapped in. *)
Definition listCall {A} (call : Datastore -> (list A + string) * Datastore)
    (what : string) : M (list A) :=
  fun s =>
    let '(r, d) := call (store s) in
    let s' := {| checker := checker s; stdout := stdout s; store := d |} in
    match r with
    | inl l => (Done l, s')
    | inr e => (Fail (what +:+ ": " +:+ e), s')
    end.

Fixpoint forM_ {A} (l : list A) (f : A -> M unit) : M unit :=
  match l with
  | [] => ret tt
  | x :: l' => bind (f x) (fun _ => forM_ l' f)
  end.

Fixpoint foldM {A B} (f : B -> A -> M B) (l : list A) (b : B) : M B :=
  match l with
  | [] => ret b
  | x :: l' => bind (f b x) (foldM f l')
  end.

Definition when (b : bool) (m : M unit) : M unit := if b then m else ret tt.

End Run.

Declare Scope run_scope.
Delimit Scope run_scope with run.
Notation "x <- m ;; k" := (bind m (fun x => k))
  (at level 100, m at next level, right associativity) : run_scope.
Notation "m ;; k" := (bind m (fun _ => k))
  (at level 100, right associativity) : run_scope.

(** ** Pure helpers: slices, pointers, [sort.Strings], [strings.Join] *)

Definition andThen {A B} (o : outcome A) (k : A -> outcome B) : outcome B :=
  match o with
  | Done a => k a
  | Fail e => Fail e
  | Panic p => Panic p
  end.

(** [l[i]] on a slice: a panic outside [0 <= i < len(l)]. *)
Definition index {A} (l : list A) (i : Z) : outcome A :=
  if (i <? 0)%Z then Panic "index out of range"
  else match l !! Z.to_nat i with
       | Some x => Done x
       | None => Panic "index out of range"
       end.

(** [*p] *)
Definition deref {A} (p : option A) : outcome A :=
  match p with
  | Some x => Done x
  | None => Panic "nil pointer dereference"
  end.

(** Go compares strings byte by byte. *)
Definition string_le (a b : string) : Prop := String.leb a b = true.

Global Instance string_le_dec : RelDecision string_le.
Proof. intros a b. unfold string_le. apply _. Defined.

Definition sort_Strings (l : list string) : list string :=
  merge_sort string_le l.

Fixpoint Join (elems : list string) (sep : string) : string :=
  match elems with
  | [] => ""
  | x :: rest =>
      match rest with
      | [] => x
      | _ :: _ => x +:+ sep +:+ Join rest sep
      end
  end.

(** ** The checker *)

Section Checker.
Context {lib : NetLib} {client : Client} {range : MapRange}.
Local Open Scope run_scope.

Definition formatAttrs (attribute : AllocationAttribute) : string :=
  let primary := default "<none>" (AttrPrimary attribute) in
  let keys := sort_Strings ((map_range (AttrSecondary attribute)).*1) in
  let kvs :=
    (fun k => k +:+ "=" +:+ default "" (AttrSecondary attribute !! k))
      <$> keys in
  "Main:" +:+ primary +:+ " Extra:" +:+ Join kvs ",".

Definition GetAttrString (a : allocation) : outcome string :=
  andThen (index (Allocations (Block a)) (Ordinal a)) (fun p =>
  andThen (deref p) (fun attrIdx =>
  if (attrIdx <? Z.of_nat (length (Attributes (Block a))))%Z then
    andThen (index (Attributes (Block a)) attrIdx) (fun attribute =>
    Done (formatAttrs attribute))
  else Done "<missing>")).

Definition recordInUseIP (ip : string) (ref : referrer)
    (friendlyName : string) : M unit :=
  c <- getChecker;;
  when (showAllIPs c)
    (println ("  " +:+ ip +:+ " belongs to " +:+ friendlyName));;
  setChecker
    {| allocations := allocations c;
       allocationsByNode := allocationsByNode c;
       inUseIPs :=
         <[ip := default [] (inUseIPs c !! ip)
                   ++ [{| FriendlyName := friendlyName; Resource := ref |}]]>
           (inUseIPs c);
       showAllIPs := showAllIPs c;
       showProblemIPs := showProblemIPs c |}.

Definition recordAllocation (b : AllocationBlock) (ord : Z) : M unit :=
  let ip := IP_String (OrdinalToIP (CIDR b) ord) in
  let alloc := {| Block := b; Ordinal := ord |} in
  c <- getChecker;;
  setChecker
    {| allocations :=
         <[ip := default [] (allocations c !! ip) ++ [alloc]]> (allocations c);
       allocationsByNode := allocationsByNode c;
       inUseIPs := inUseIPs c;
       showAllIPs := showAllIPs c;
       showProblemIPs := showProblemIPs c |};;
  when (showAllIPs c)
    (attrs <- lift (GetAttrString alloc);;
     println ("  " +:+ ip +:+ " allocated; attrs " +:+ attrs));;
  p <- lift (index (Allocations b) ord);;
  attrIdx <- lift (deref p);;
  if (attrIdx <? Z.of_nat (length (Attributes b)))%Z then
    attrs <- lift (index (Attributes b) attrIdx);;
    match AttrPrimary attrs with
    | Some primary =>
        if decide (primary = WindowsReservedHandle)
        then recordInUseIP ip (RefBlock b) "Reserved for Windows"
        else ret tt
    | None => ret tt
    end
  else ret tt.

Definition normaliseIP (addr : string) : outcome string :=
  match ParseCIDROrIP addr with
  | inl ip => Done (IP_String ip)
  | inr err => Fail err
  end.

(** One stanza of [getNodeIPs]: the three differ in the field only. *)
Definition nodeAddr (field : string) (n : Node) (addr : option string)
    (ips : list string) : outcome (list string) :=
  match addr with
  | None => Done ips
  | Some a =>
      if decide (a = "") then Done ips
      else match normaliseIP a with
           | Done ip => Done (ips ++ [ip])
           | Fail err =>
               Fail ("failed to parse " +:+ field +:+ " (" +:+ a
                     +:+ ") of node " +:+ node_Name n +:+ ": " +:+ err)
           | Panic p => Panic p
           end
  end.

Definition getNodeIPs (n : Node) : outcome (list string) :=
  andThen (nodeAddr "IPv4VXLANTunnelAddr" n (Some (IPv4VXLANTunnelAddr n)) [])
    (fun ips =>
  andThen (nodeAddr "Wireguard.InterfaceIPv4Address" n
             (Wireguard_InterfaceIPv4Address n) ips) (fun ips =>
  nodeAddr "IPv4IPIPTunnelAddr" n (BGP_IPv4IPIPTunnelAddr n) ips)).

Fixpoint wepAddrs (w : WorkloadEndpoint) (l : list string)
    (ips : list string) : outcome (list string) :=
  match l with
  | [] => Done ips
  | a :: l' =>
      match normaliseIP a with
      | Done ip => wepAddrs w l' (ips ++ [ip])
      | Fail err =>
          Fail ("failed to parse IP (" +:+ a +:+ ") of workload "
                +:+ wep_Namespace w +:+ "/" +:+ wep_Name w +:+ ": " +:+ err)
      | Panic p => Panic p
      end
  end.

Definition getWEPIPs (w : WorkloadEndpoint) : outcome (list string) :=
  wepAddrs w (IPNetworks w) [].

(** *** The load phases of [checkIPAM] *)

(** The body of the loop over the blocks. *)
Definition blockStep (b : AllocationBlock) : M unit :=
  let affinity := default "<none>" (Affinity b) in
  println (" IPAM block " +:+ IPNet_String (CIDR b)
           +:+ " affinity=" +:+ affinity +:+ ":");;
  forM_ (imap pair (Allocations b)) (fun '(ord, attrIdx) =>
    match attrIdx with
    | None => ret tt
    | Some _ => recordAllocation b (Z.of_nat ord)
    end).

Definition loadBlocks : M unit :=
  println "Loading all IPAM blocks...";;
  blocks <- listCall ListBlocks "failed to list IPAM blocks";;
  println ("Found " +:+ pretty (length blocks) +:+ " IPAM blocks.");;
  forM_ blocks blockStep;;
  c <- getChecker;;
  println ("IPAM blocks record " +:+ pretty (size (allocations c))
           +:+ " allocations.");;
  println "".

(** The body of the loop over the pools. *)
Definition poolStep (activeIPPools : list IPNet) (p : IPPool)
    : M (list IPNet) :=
  if pool_Disabled p then ret activeIPPools
  else
    println ("  " +:+ pool_CIDR p);;
    match ParseCIDR (pool_CIDR p) with
    | inr err => fail ("failed to parse IP pool CIDR: " +:+ err)
    | inl cidr => ret (activeIPPools ++ [cidr])
    end.

Definition loadPools : M (list IPNet) :=
  println "Loading all IPAM pools...";;
  ipPools <- listCall ListIPPools "failed to load IP pools";;
  activeIPPools <- foldM poolStep ipPools [];;
  println ("Found " +:+ pretty (length activeIPPools) +:+ " active IP pools.");;
  println "";;
  ret activeIPPools.

(** The body of the loop over the nodes. *)
Definition nodeStep (numNodeIPs : nat) (n : Node) : M nat :=
  ips <- lift (getNodeIPs n);;
  foldM (fun numNodeIPs ip =>
    recordInUseIP ip (RefNode n) ("Node(" +:+ node_Name n +:+ ")");;
    ret (S numNodeIPs)) ips numNodeIPs.

Definition loadNodes : M unit :=
  println "Loading all nodes.";;
  nodes <- listCall ListNodes "failed to list nodes";;
  numNodeIPs <- foldM nodeStep nodes 0;;
  println ("Found " +:+ pretty numNodeIPs +:+ " node tunnel IPs.");;
  println "".

(** The body of the loop over the workload endpoints. *)
Definition wepStep (numNodeIPs : nat) (w : WorkloadEndpoint) : M nat :=
  ips <- lift (getWEPIPs w);;
  foldM (fun numNodeIPs ip =>
    recordInUseIP ip (RefWorkload w)
      ("Workload(" +:+ wep_Namespace w +:+ "/" +:+ wep_Name w +:+ ")");;
    ret (S numNodeIPs)) ips numNodeIPs.

Definition loadWorkloadEndpoints : M unit :=
  println "Loading all workload endpoints.";;
  weps <- listCall ListWorkloadEndpoints "failed to list workload endpoints";;
  numNodeIPs <- foldM wepStep weps 0;;
  println ("Found " +:+ pretty numNodeIPs +:+ " workload IPs.");;
  c <- getChecker;;
  println ("Workloads and nodes are using " +:+ pretty (size (inUseIPs c))
           +:+ " IPs.");;
  println "".

(** *** The two scans of [checkIPAM] *)

(** The body of the loop over [c.allocations]. *)
Definition leakedStep (c : IPAMChecker) (allocatedButNotInUseIPs : list string)
    (entry : string * list allocation) : M (list string) :=
  let '(ip, allocs) := entry in
  match inUseIPs c !! ip with
  | Some _ => ret allocatedButNotInUseIPs
  | None =>
      when (showProblemIPs c)
        (forM_ allocs (fun alloc =>
           attrs <- lift (GetAttrString alloc);;
           println ("  " +:+ ip +:+ " leaked; attrs " +:+ attrs)));;
      ret (allocatedButNotInUseIPs ++ [ip])
  end.

Definition scanAllocations : M (list string) :=
  println "Scanning for IPs that are allocated but not actually in use...";;
  c <- getChecker;;
  allocatedButNotInUseIPs <-
    foldM (leakedStep c) (map_range (allocations c)) [];;
  println ("Found " +:+ pretty (length allocatedButNotInUseIPs)
           +:+ " IPs that are allocated in IPAM but not actually in use.");;
  ret allocatedButNotInUseIPs.

(** The inner loop over [activeIPPools], with its [break]. *)
Definition inActivePool (activeIPPools : list IPNet) (ip : string) : bool :=
  existsb (fun cidr => Contains cidr (ParseIP ip)) activeIPPools.

(** The body of the loop over [c.inUseIPs]; the accumulator is
    [(inUseButNotAllocatedIPs, nonCalicoIPs)]. *)
Definition inUseStep (c : IPAMChecker) (activeIPPools : list IPNet)
    (acc : list string * list string) (entry : string * list ownerRecord)
    : M (list string * list string) :=
  let '(inUseButNotAllocatedIPs, nonCalicoIPs) := acc in
  let '(ip, owners) := entry in
  when (showProblemIPs c && bool_decide (1 < length owners))
    (println ("  " +:+ ip +:+ " has multiple owners."));;
  match allocations c !! ip with
  | Some _ => ret (inUseButNotAllocatedIPs, nonCalicoIPs)
  | None =>
      if negb (inActivePool activeIPPools ip) then
        when (showProblemIPs c)
          (forM_ owners (fun owner =>
             println ("  " +:+ ip +:+ " in use by " +:+ FriendlyName owner
                      +:+ " is not in any active IP pool.")));;
        ret (inUseButNotAllocatedIPs, nonCalicoIPs ++ [ip])
      else
        when (showProblemIPs c)
          (forM_ owners (fun owner =>
             println ("  " +:+ ip +:+ " in use by " +:+ FriendlyName owner
                      +:+ " and in active IPAM pool but has no IPAM allocation.")));;
        ret (inUseButNotAllocatedIPs ++ [ip], nonCalicoIPs)
  end.

(** Returns [(inUseButNotAllocatedIPs, nonCalicoIPs)]. *)
Definition scanInUse (activeIPPools : list IPNet)
    : M (list string * list string) :=
  println "Scanning for IPs that are in use by a workload or node but not allocated in IPAM...";;
  c <- getChecker;;
  r <- foldM (inUseStep c activeIPPools) (map_range (inUseIPs c)) ([], []);;
  println ("Found " +:+ pretty (length r.2)
           +:+ " in-use IPs that are not in active IP pools.");;
  println ("Found " +:+ pretty (length r.1)
           +:+ " in-use IPs that are in active IP pools but have no corresponding IPAM allocation.");;
  println "";;
  ret r.

(** The local variables of [checkIPAM] at its last line. *)
Record Report := {
  allocatedButNotInUseIPs : list string;
  inUseButNotAllocatedIPs : list string;
  nonCalicoIPs : list string;
  numProblems : nat;
}.

(** Everything [checkIPAM] does after the four loads. *)
Definition classify (activeIPPools : list IPNet) : M Report :=
  let numProblems := 0 in
  leaked <- scanAllocations;;
  let numProblems := numProblems + length leaked in
  r <- scanInUse activeIPPools;;
  let numProblems := numProblems + length r.2 in
  let numProblems := numProblems + length r.1 in
  println ("Check complete; found " +:+ pretty numProblems +:+ " problems.");;
  ret {| allocatedButNotInUseIPs := leaked;
         inUseButNotAllocatedIPs := r.1;
         nonCalicoIPs := r.2;
         numProblems := numProblems |}.

Definition load : M (list IPNet) :=
  println "Checking IPAM for inconsistencies...";;
  println "";;
  loadBlocks;;
  activeIPPools <- loadPools;;
  loadNodes;;
  loadWorkloadEndpoints;;
  ret activeIPPools.

(** [checkIPAM], keeping its local variables. *)
Definition checkIPAM_locals : M Report :=
  activeIPPools <- load;;
  classify activeIPPools.

(** [checkIPAM]: [Done tt] is the nil error. *)
Definition checkIPAM : M unit :=
  checkIPAM_locals;;
  ret tt.

(** [Check] from the point where the two flags are read; the arguments are
    the parsed [--show-all-ips] and [--show-problem-ips]. *)
Definition Check (showAllIPsArg showProblemIPsArg : bool) : M unit :=
  let showAllIPs := showAllIPsArg in
  let showProblemIPs := showAllIPs || showProblemIPsArg in
  setChecker (NewIPAMChecker showAllIPs showProblemIPs);;
  checkIPAM.

(** A fresh process: nothing written yet. *)
Definition start (c : IPAMChecker) (d : Datastore) : Run :=
  {| checker := c; stdout := []; store := d |}.

End Checker.

(** * The [ipam release] command

    [Release] frees one address given on the command line, or the addresses
    a report of the checker lists as not in use.  The report and the
    cluster information are read through what the command imports. *)

Module ReleaseCmd.

(** The fields of [apiv3.ClusterInformation] the command reads. *)
Record ClusterInformation := {
  ResourceVersion : string;
  Spec_ClusterGUID : string;
  Spec_DatastoreReady : option bool;
}.

(** An entry of the report: an address and whether something uses it. *)
Record Allocation := {
  alloc_IP : string;
  InUse : bool;
}.

(** The report, as [releaseFromReport] reads it; [Allocations] lists the
    groups of entries in the order [range] yields them. *)
Record Report := {
  Version : string;
  ClusterGUID : string;
  ClusterInfoRevision : string;
  Allocations : list (list Allocation);
}.

Section Release.
Context {lib : NetLib} {client : Client}.

Class ReleaseEnv := {
  (** [ioutil.ReadFile]: the contents or the error *)
  ReadFile : string -> string + string;
  (** [json.Unmarshal] into a [Report] *)
  Unmarshal : string -> Report + string;
  (** [argutils.ValidateIP]: the address, unless the call does not return *)
  ValidateIP : string -> outcome IP;
  (** [ClusterInformation().Get(ctx, "default", ...)] *)
  GetClusterInformation :
    Datastore -> (ClusterInformation + string) * Datastore;
  (** [IPAM().ReleaseIPs]: the addresses that were not allocated, or the
      error *)
  ReleaseIPs : list IP -> Datastore -> (list IP + string) * Datastore;
  GetClusterInformation_read : forall d, (GetClusterInformation d).2 = d;
}.

Context {env : ReleaseEnv}.
Local Open Scope run_scope.

(** A call that returns a value or an error, the error returned as it is. *)
Definition returned {A} (r : A + string) : M A :=
  match r with
  | inl a => ret a
  | inr err => fail err
  end.

(** A call of the client, the error returned as it is. *)
Definition clientCall {A} (call : Datastore -> (A + string) * Datastore)
    : M A :=
  fun s =>
    let '(r, d) := call (store s) in
    let s' := {| checker := checker s; stdout := stdout s; store := d |} in
    match r with
    | inl a => (Done a, s')
    | inr e => (Fail e, s')
    end.

(** [fmt.Errorf(format, err)] on the error of a call. *)
Definition wrapError {A} (format : string -> string) (m : M A) : M A :=
  fun s =>
    match m s with
    | (Fail err, s') => (Fail (format err), s')
    | r => r
    end.

(** The body of the inner loop over the entries of the report. *)
Definition collect (ipsToRelease : list IP) (a : Allocation) : M (list IP) :=
  if negb (InUse a) then
    ip <- lift (ValidateIP (alloc_IP a));;
    ret (ipsToRelease ++ [ip])
  else ret ipsToRelease.

(** The two loops of [releaseFromReport] over the report. *)
Definition collectLeaked (r : Report) : M (list IP) :=
  foldM (fun ipsToRelease allocations =>
           foldM collect allocations ipsToRelease)
    (Allocations r) [].

(** What [releaseFromReport] does with the addresses it collected. *)
Definition releaseCollected (ipsToRelease : list IP) : M unit :=
  if bool_decide (length ipsToRelease = 0) then
    println "No addresses need to be released."
  else
    println ("Releasing " +:+ pretty (length ipsToRelease) +:+ " old IPs");;
    unallocated <- clientCall (ReleaseIPs ipsToRelease);;
    if negb (bool_decide (length unallocated = 0)) then
      println "Warning: report contained addresses which are no longer allocated"
    else
      println ("Released " +:+ pretty (length ipsToRelease)
               +:+ " IPs successfully").

Definition releaseFromReport (force : bool) (reportFile : string)
    (version : string) : M unit :=
  bytes <- returned (ReadFile reportFile);;
  r <- returned (Unmarshal bytes);;
  clusterInfo <- clientCall GetClusterInformation;;
  when (negb (bool_decide (Spec_ClusterGUID clusterInfo = ClusterGUID r)))
    (fail "Cluster does not match the provided report: mismatched cluster GUID. Refusing to release.");;
  when (negb (bool_decide (ResourceVersion clusterInfo = ClusterInfoRevision r)))
    (fail "The provided report is stale, please generate a new report while the data store is locked and try again.");;
  when (default true (Spec_DatastoreReady clusterInfo))
    (if negb force then
       fail "Data store is not locked. Either lock the data store, or re-run with --force."
     else
       println "WARNING: Data store is not locked. Ignoring due to --force option");;
  when (negb (bool_decide (version = Version r)))
    (if negb force then
       fail ("The provided report was produced using a different version ("
             +:+ Version r +:+ ") of calicoctl. Refusing to release.")
     else
       println "WARNING: Report was produced using a different version of calicoctl. Ignoring due to --force option");;
  ipsToRelease <- collectLeaked r;;
  releaseCollected ipsToRelease.

(** [Release] from the point where the client is built; the arguments are
    the parsed [--from-report], [--force] and [--ip] ([None]: not given). *)
Definition Release (fromReport : option string) (forceArg : option bool)
    (ipArg : option string) (version : string) : M unit :=
  match fromReport with
  | Some reportFile =>
      let force := default false forceArg in
      releaseFromReport force reportFile version;;
      println "You may now unlock the data store."
  | None =>
      match ipArg with
      | Some passedIP =>
          ip <- lift (ValidateIP passedIP);;
          unallocatedIPs <-
            wrapError (fun err => "Error: " +:+ err)
              (clientCall (ReleaseIPs [ip]));;
          if negb (bool_decide (length unallocatedIPs = 0)) then
            fail ("IP address " +:+ IP_String ip +:+ " is not assigned")
          else
            println ("Successfully released IP address " +:+ IP_String ip)
      | None => ret tt
      end
  end.

(** The entries of the report that nothing uses, in the order they are
    read. *)
Definition leaked (r : Report) : list Allocation :=
  filter (fun a => InUse a = false) (concat (Allocations r)).

(** The report is of this cluster and of its present state; and either the
    release is forced, or the datastore is locked and the report was made
    by this version. *)
Definition guardsPass (force : bool) (info : ClusterInformation) (r : Report)
    (version : string) : Prop :=
  Spec_ClusterGUID info = ClusterGUID r /\
  ResourceVersion info = ClusterInfoRevision r /\
  (force = true \/
   (Spec_DatastoreReady info = Some false /\ version = Version r)).

Global Instance guardsPass_dec force info r version :
  Decision (guardsPass force info r version).
Proof. unfold guardsPass. apply _. Defined.

(** The error of a release that is refused. *)
Definition refusal (force : bool) (info : ClusterInformation) (r : Report)
    (version : string) : string :=
  if negb (bool_decide (Spec_ClusterGUID info = ClusterGUID r)) then
    "Cluster does not match the provided report: mismatched cluster GUID. Refusing to release."
  else if negb (bool_decide (ResourceVersion info = ClusterInfoRevision r)) then
    "The provided report is stale, please generate a new report while the data store is locked and try again."
  else if default true (Spec_DatastoreReady info) then
    "Data store is not locked. Either lock the data store, or re-run with --force."
  else
    "The provided report was produced using a different version ("
    +:+ Version r +:+ ") of calicoctl. Refusing to release.".

(** The warnings of a release that goes on. *)
Definition warnings (info : ClusterInformation) (r : Report)
    (version : string) : list string :=
  (if default true (Spec_DatastoreReady info)
   then ["WARNING: Data store is not locked. Ignoring due to --force option"]
   else [])
  ++ (if bool_decide (version = Version r) then []
      else ["WARNING: Report was produced using a different version of calicoctl. Ignoring due to --force option"]).

(** The state after the client's call [call], which wrote [lines] before. *)
Definition afterCall {A} (call : Datastore -> (A + string) * Datastore)
    (lines : list string) (s : Run) : Run :=
  {| checker := checker s; stdout := stdout s ++ lines;
     store := (call (store s)).2 |}.

End Release.
End ReleaseCmd.

(** * The file of a datastore migration ([splitImportFile])

    [calicoctl import] reads one file that holds three parts: the v3
    resources, the cluster information and the IPAM data, each closed by a
    line of three [=] signs. *)

(** ** Byte slices: [s[:n]], [s[n:]], [bytes.Index], [bytes.Split] *)

Fixpoint sliceTo (n : nat) (s : string) : string :=
  match n, s with
  | S n', String c rest => String c (sliceTo n' rest)
  | _, _ => ""
  end.

Fixpoint sliceFrom (n : nat) (s : string) : string :=
  match n, s with
  | S n', String _ rest => sliceFrom n' rest
  | _, _ => s
  end.

(** The index of the first instance of [sep] in [s]; [None] is -1. *)
Fixpoint Index (s sep : string) : option nat :=
  if String.prefix sep s then Some 0
  else match s with
       | "" => None
       | String _ rest => S <$> Index rest sep
       end.

(** The loop of [bytes.Split] for a separator that is not empty: cut at the
    first instance of [sep], go on behind it.  [s] holds at most
    [String.length s] instances, so the loop runs out of instances before
    it runs out of [fuel]. *)
Fixpoint genSplit (fuel : nat) (s sep : string) : list string :=
  match fuel with
  | 0 => [s]
  | S fuel' =>
      match Index s sep with
      | None => [s]
      | Some m =>
          sliceTo m s :: genSplit fuel' (sliceFrom (m + String.length sep) s) sep
      end
  end.

Definition Split (s sep : string) : list string :=
  genSplit (String.length s) s sep.

(** The line that closes a part of the file: three [=] signs and a line
    feed. *)
Definition importSeparator : string :=
  String "="%char (String "="%char (String "="%char (String "010"%char ""))).

Section ImportFile.

(** [ioutil.ReadFile] and [os.Stdin.Name()] *)
Class Files := {
  ReadFile : string -> string + string;
  StdinName : string;
}.

Context {files : Files}.

(** The name of the file [splitImportFile] reads. *)
Definition importFileName (filename : string) : string :=
  if decide (filename = "-") then StdinName else filename.

Definition splitImportFile (filename : string)
    : (string * string * string) + string :=
  let fname := importFileName filename in
  match ReadFile fname with
  | inr err => inr err
  | inl b =>
      match Split b importSeparator with
      | [v3Yaml; clusterInfoJson; ipamJson] =>
          inl (v3Yaml, clusterInfoJson, ipamJson)
      | _ =>
          inr ("Imported file: " +:+ fname
               +:+ " is improperly formatted. Try recreating with 'calicoctl export'")
      end
  end.

End ImportFile.

(** * The vocabulary of the statements

    States, relations between states, and the lists and lines the scans
    compute, written as functions of the two indexes. *)

Section Vocabulary.
Context {lib : NetLib} {client : Client} {range : MapRange}.

(** The state after writing [lines]. *)
Definition emit (lines : list string) (s : Run) : Run :=
  {| checker := checker s; stdout := stdout s ++ lines; store := store s |}.

(** Whatever its outcome, [m] takes a state to a state related to it. *)
Definition always {A} (R : relation Run) (m : M A) : Prop :=
  forall s, R s (m s).2.

(** The datastore is handed back as it was. *)
Definition same_store : relation Run := fun s s' => store s' = store s.

(** Only lines of the class [P] were written. *)
Definition prints (P : string -> Prop) : relation Run := fun s s' =>
  exists lines, stdout s' = stdout s ++ lines /\ Forall P lines.

(** The checker is untouched. *)
Definition same_checker : relation Run := fun s s' => checker s' = checker s.

(** The flags are untouched and no address leaves the in-use index. *)
Definition usage_grows : relation Run := fun s s' =>
  showAllIPs (checker s') = showAllIPs (checker s) /\
  showProblemIPs (checker s') = showProblemIPs (checker s) /\
  forall ip, is_Some (inUseIPs (checker s) !! ip) ->
             is_Some (inUseIPs (checker s') !! ip).

(** The allocation index is untouched. *)
Definition same_allocations : relation Run := fun s s' =>
  allocations (checker s') = allocations (checker s).

(** When [m] returns, it takes a state in [I] to a state in [I]. *)
Definition keeps {A} (I : Run -> Prop) (m : M A) : Prop :=
  forall s a s', I s -> m s = (Done a, s') -> I s'.

(** The checker after [recordInUseIP]. *)
Definition useIP (ip : string) (r : referrer) (f : string) (c : IPAMChecker)
    : IPAMChecker :=
  {| allocations := allocations c;
     allocationsByNode := allocationsByNode c;
     inUseIPs :=
       <[ip := default [] (inUseIPs c !! ip)
                 ++ [{| FriendlyName := f; Resource := r |}]]> (inUseIPs c);
     showAllIPs := showAllIPs c;
     showProblemIPs := showProblemIPs c |}.

(** The lines that open a scan and the line that closes the check. *)
Definition classificationLine (l : string) : bool :=
  String.prefix "Scanning for IPs" l || String.prefix "Check complete; found " l.

(** The attributes of the allocation can be shown. *)
Definition attr_ok (a : allocation) : Prop :=
  exists attrs, GetAttrString a = Done attrs.

(** So can those of every recorded allocation. *)
Definition allocs_ok (s : Run) : Prop :=
  forall ip allocs,
    allocations (checker s) !! ip = Some allocs -> Forall attr_ok allocs.

(** The attribute an allocation resolves to, when its index is in range. *)
Definition resolveAttr (b : AllocationBlock) (ord : Z)
    : option AllocationAttribute :=
  match index (Allocations b) ord with
  | Done (Some attrIdx) =>
      if (attrIdx <? 0)%Z then None else Attributes b !! Z.to_nat attrIdx
  | _ => None
  end.

(** The text [GetAttrString] returns. *)
Definition attrText (a : allocation) : string :=
  match GetAttrString a with
  | Done attrs => attrs
  | _ => ""
  end.

(** The line written for one allocation of a leaked address. *)
Definition leakedLine (ip : string) (alloc : allocation) : string :=
  "  " +:+ ip +:+ " leaked; attrs " +:+ attrText alloc.

(** What one entry of [c.allocations] adds to [allocatedButNotInUseIPs]
    and writes. *)
Definition leakedIP (c : IPAMChecker) (entry : string * list allocation)
    : list string :=
  match inUseIPs c !! entry.1 with
  | Some _ => []
  | None => [entry.1]
  end.

Definition leakedLines (c : IPAMChecker) (entry : string * list allocation)
    : list string :=
  match inUseIPs c !! entry.1 with
  | Some _ => []
  | None => if showProblemIPs c then leakedLine entry.1 <$> entry.2 else []
  end.

(** What one entry of [c.inUseIPs] writes and adds to
    [inUseButNotAllocatedIPs] and [nonCalicoIPs]. *)
Definition multiOwnerLines (c : IPAMChecker) (entry : string * list ownerRecord)
    : list string :=
  if showProblemIPs c && bool_decide (1 < length entry.2)
  then ["  " +:+ entry.1 +:+ " has multiple owners."] else [].

Definition foreignLine (ip : string) (owner : ownerRecord) : string :=
  "  " +:+ ip +:+ " in use by " +:+ FriendlyName owner
  +:+ " is not in any active IP pool.".

Definition missingLine (ip : string) (owner : ownerRecord) : string :=
  "  " +:+ ip +:+ " in use by " +:+ FriendlyName owner
  +:+ " and in active IPAM pool but has no IPAM allocation.".

Definition missingIP (c : IPAMChecker) (activeIPPools : list IPNet)
    (entry : string * list ownerRecord) : list string :=
  match allocations c !! entry.1 with
  | Some _ => []
  | None => if inActivePool activeIPPools entry.1 then [entry.1] else []
  end.

Definition foreignIP (c : IPAMChecker) (activeIPPools : list IPNet)
    (entry : string * list ownerRecord) : list string :=
  match allocations c !! entry.1 with
  | Some _ => []
  | None => if inActivePool activeIPPools entry.1 then [] else [entry.1]
  end.

Definition inUseLines (c : IPAMChecker) (activeIPPools : list IPNet)
    (entry : string * list ownerRecord) : list string :=
  multiOwnerLines c entry ++
  match allocations c !! entry.1 with
  | Some _ => []
  | None =>
      if showProblemIPs c then
        if inActivePool activeIPPools entry.1
        then missingLine entry.1 <$> entry.2
        else foreignLine entry.1 <$> entry.2
      else []
  end.

(** The three lists of [checkIPAM]: leaked, missing allocation, foreign. *)
Definition leakedOf (c : IPAMChecker) : list string :=
  map_range (allocations c) ≫= leakedIP c.

Definition missingOf (c : IPAMChecker) (pools : list IPNet) : list string :=
  map_range (inUseIPs c) ≫= missingIP c pools.

Definition foreignOf (c : IPAMChecker) (pools : list IPNet) : list string :=
  map_range (inUseIPs c) ≫= foreignIP c pools.

(** The local variables of [checkIPAM] at its last line. *)
Definition reportOf (c : IPAMChecker) (pools : list IPNet) : Report :=
  {| allocatedButNotInUseIPs := leakedOf c;
     inUseButNotAllocatedIPs := missingOf c pools;
     nonCalicoIPs := foreignOf c pools;
     numProblems :=
       0 + length (leakedOf c) + length (foreignOf c pools)
       + length (missingOf c pools) |}.

(** What [classify] writes. *)
Definition classifyLines (c : IPAMChecker) (pools : list IPNet) : list string :=
  ["Scanning for IPs that are allocated but not actually in use..."]
  ++ (map_range (allocations c) ≫= leakedLines c)
  ++ ["Found " +:+ pretty (length (leakedOf c))
      +:+ " IPs that are allocated in IPAM but not actually in use.";
      "Scanning for IPs that are in use by a workload or node but not allocated in IPAM..."]
  ++ (map_range (inUseIPs c) ≫= inUseLines c pools)
  ++ ["Found " +:+ pretty (length (foreignOf c pools))
      +:+ " in-use IPs that are not in active IP pools.";
      "Found " +:+ pretty (length (missingOf c pools))
      +:+ " in-use IPs that are in active IP pools but have no corresponding IPAM allocation.";
      "";
      "Check complete; found " +:+ pretty (numProblems (reportOf c pools))
      +:+ " problems."].

(** The owner [recordAllocation] registers for a reserved allocation. *)
Definition reservedOwner (b : AllocationBlock) : ownerRecord :=
  {| FriendlyName := "Reserved for Windows"; Resource := RefBlock b |}.

(** The pools that are not disabled, in the order they are listed. *)
Definition enabledPools (pools : list IPPool) : list IPPool :=
  filter (fun p => pool_Disabled p = false) pools.

(** No allocation of the blocks carries a negative attribute index. *)
Definition blocks_ok (blocks : list AllocationBlock) : Prop :=
  forall b i attrIdx,
    b ∈ blocks -> Allocations b !! i = Some (Some attrIdx) -> (0 <= attrIdx)%Z.

(** The CIDR of every pool that is not disabled parses. *)
Definition pools_ok (pools : list IPPool) : Prop :=
  forall p, p ∈ pools -> pool_Disabled p = false ->
            exists cidr, ParseCIDR (pool_CIDR p) = inl cidr.

(** An address field of a node, when it is set. *)
Definition setAddr (field : string) (addr : option string)
    : list (string * string) :=
  match addr with
  | Some a => if decide (a = "") then [] else [(field, a)]
  | None => []
  end.

(** The addresses [getNodeIPs] reads, each with the name of its field. *)
Definition nodeAddrs (n : Node) : list (string * string) :=
  setAddr "IPv4VXLANTunnelAddr" (Some (IPv4VXLANTunnelAddr n))
  ++ setAddr "Wireguard.InterfaceIPv4Address" (Wireguard_InterfaceIPv4Address n)
  ++ setAddr "IPv4IPIPTunnelAddr" (BGP_IPv4IPIPTunnelAddr n).

(** The errors of [getNodeIPs] and [getWEPIPs]. *)
Definition nodeParseError (n : Node) (field raw err : string) : string :=
  "failed to parse " +:+ field +:+ " (" +:+ raw +:+ ") of node "
  +:+ node_Name n +:+ ": " +:+ err.

Definition wepParseError (w : WorkloadEndpoint) (raw err : string) : string :=
  "failed to parse IP (" +:+ raw +:+ ") of workload "
  +:+ wep_Namespace w +:+ "/" +:+ wep_Name w +:+ ": " +:+ err.

(** Some address of the node, of the workload endpoint, does not
    normalise. *)
Definition nodeFails (n : Node) : Prop :=
  exists field raw err, (field, raw) ∈ nodeAddrs n /\ normaliseIP raw = Fail err.

Definition wepFails (w : WorkloadEndpoint) : Prop :=
  exists raw err, raw ∈ IPNetworks w /\ normaliseIP raw = Fail err.

(** [getNodeIPs] as one loop over [nodeAddrs]. *)
Fixpoint normaliseAll (n : Node) (addrs : list (string * string))
    (ips : list string) : outcome (list string) :=
  match addrs with
  | [] => Done ips
  | (field, raw) :: rest =>
      match normaliseIP raw with
      | Done ip => normaliseAll n rest (ips ++ [ip])
      | Fail err => Fail (nodeParseError n field raw err)
      | Panic p => Panic p
      end
  end.

(** A listed node or workload endpoint with an address that does not
    normalise: the load cannot succeed. *)
Definition parseFailure (d : Datastore) : Prop :=
  (exists nodes, (ListNodes d).1 = inl nodes /\ Exists nodeFails nodes) \/
  (exists weps, (ListWorkloadEndpoints d).1 = inl weps /\ Exists wepFails weps).

(** The error names a listed node or workload endpoint and one of its
    addresses that does not normalise. *)
Definition namesParseFailure (d : Datastore) (msg : string) : Prop :=
  (exists nodes n field raw err,
     (ListNodes d).1 = inl nodes /\ n ∈ nodes /\
     (field, raw) ∈ nodeAddrs n /\ normaliseIP raw = Fail err /\
     msg = nodeParseError n field raw err) \/
  (exists weps w raw err,
     (ListWorkloadEndpoints d).1 = inl weps /\ w ∈ weps /\
     raw ∈ IPNetworks w /\ normaliseIP raw = Fail err /\
     msg = wepParseError w raw err).

(** The lines [classify] writes when the problem lines are off. *)
Definition quietLines (c : IPAMChecker) (pools : list IPNet) : list string :=
  ["Scanning for IPs that are allocated but not actually in use...";
   "Found " +:+ pretty (length (leakedOf c))
   +:+ " IPs that are allocated in IPAM but not actually in use.";
   "Scanning for IPs that are in use by a workload or node but not allocated in IPAM...";
   "Found " +:+ pretty (length (foreignOf c pools))
   +:+ " in-use IPs that are not in active IP pools.";
   "Found " +:+ pretty (length (missingOf c pools))
   +:+ " in-use IPs that are in active IP pools but have no corresponding IPAM allocation.";
   "";
   "Check complete; found " +:+ pretty (numProblems (reportOf c pools))
   +:+ " problems."].

(** The rendering of an attribute lists the secondary keys in increasing
    order. *)
Definition sortedRendering (R : MapRange) (attribute : AllocationAttribute)
    : Prop :=
  exists keys,
    Sorted string_le keys /\
    keys ≡ₚ (map_to_list (AttrSecondary attribute)).*1 /\
    formatAttrs (range := R) attribute
    = "Main:" +:+ default "<none>" (AttrPrimary attribute) +:+ " Extra:"
      +:+ Join ((fun k => k +:+ "=" +:+ default "" (AttrSecondary attribute !! k))
                  <$> keys) ",".

(** What the three lists must hold, given the two indexes and the active
    pools. *)
Definition classified (c : IPAMChecker) (activeIPPools : list IPNet)
    (report : Report) : Prop :=
  forall ip,
    (ip ∈ allocatedButNotInUseIPs report <->
       is_Some (allocations c !! ip) /\ inUseIPs c !! ip = None) /\
    (ip ∈ nonCalicoIPs report <->
       is_Some (inUseIPs c !! ip) /\ allocations c !! ip = None /\
       forall cidr, cidr ∈ activeIPPools -> Contains cidr (ParseIP ip) = false) /\
    (ip ∈ inUseButNotAllocatedIPs report <->
       is_Some (inUseIPs c !! ip) /\ allocations c !! ip = None /\
       exists cidr, cidr ∈ activeIPPools /\ Contains cidr (ParseIP ip) = true).

(** Every address of the node, of the workload endpoint, normalises. *)
Definition nodeNormalises (n : Node) : Prop :=
  forall field raw, (field, raw) ∈ nodeAddrs n ->
                    exists ip, normaliseIP raw = Done ip.

Definition wepNormalises (w : WorkloadEndpoint) : Prop :=
  forall raw, raw ∈ IPNetworks w -> exists ip, normaliseIP raw = Done ip.

End Vocabulary.

(** ** The indexes in terms of what is listed *)

Section IndexContents.
Context {lib : NetLib} {client : Client} {range : MapRange}.

(** The address of an allocation. *)
Definition allocIP (a : allocation) : string :=
  IP_String (OrdinalToIP (CIDR (Block a)) (Ordinal a)).

(** The allocated ordinals of a block, in increasing order. *)
Definition allocatedIn (b : AllocationBlock) : list allocation :=
  imap pair (Allocations b) ≫= (fun '(ord, attrIdx) =>
    match attrIdx with
    | Some _ => [{| Block := b; Ordinal := Z.of_nat ord |}]
    | None => []
    end).

(** The allocation resolves to an attribute whose primary tag is the
    reserved handle. *)
Definition isReserved (a : allocation) : bool :=
  match resolveAttr (Block a) (Ordinal a) with
  | Some attrs => bool_decide (AttrPrimary attrs = Some WindowsReservedHandle)
  | None => false
  end.

Definition reservedUses (b : AllocationBlock) : list (string * ownerRecord) :=
  allocatedIn b ≫= (fun a =>
    if isReserved a then [(allocIP a, reservedOwner b)] else []).

Definition nodeOwner (n : Node) : ownerRecord :=
  {| FriendlyName := "Node(" +:+ node_Name n +:+ ")"; Resource := RefNode n |}.

Definition wepOwner (w : WorkloadEndpoint) : ownerRecord :=
  {| FriendlyName :=
       "Workload(" +:+ wep_Namespace w +:+ "/" +:+ wep_Name w +:+ ")";
     Resource := RefWorkload w |}.

Definition nodeUses (n : Node) : list (string * ownerRecord) :=
  match getNodeIPs n with
  | Done ips => (fun ip => (ip, nodeOwner n)) <$> ips
  | _ => []
  end.

Definition wepUses (w : WorkloadEndpoint) : list (string * ownerRecord) :=
  match getWEPIPs w with
  | Done ips => (fun ip => (ip, wepOwner w)) <$> ips
  | _ => []
  end.

Definition usesOf (blocks : list AllocationBlock) (nodes : list Node)
    (weps : list WorkloadEndpoint) : list (string * ownerRecord) :=
  (blocks ≫= reservedUses) ++ (nodes ≫= nodeUses) ++ (weps ≫= wepUses).

(** [m[k] = append(m[k], v)] *)
Definition addTo {V} (m : gmap string (list V)) (kv : string * V)
    : gmap string (list V) :=
  <[kv.1 := default [] (m !! kv.1) ++ [kv.2]]> m.

(** The entries of a map of slices filled by appending [l], under [k]. *)
Definition group {V} (k : string) (l : list (string * V)) : option (list V) :=
  match (filter (fun kv => kv.1 = k) l).*2 with
  | [] => None
  | vs => Some vs
  end.

Definition records (allocs : list allocation)
    (uses : list (string * ownerRecord)) : relation Run := fun s s' =>
  allocations (checker s')
    = foldl addTo (allocations (checker s)) ((fun a => (allocIP a, a)) <$> allocs) /\
  inUseIPs (checker s') = foldl addTo (inUseIPs (checker s)) uses.

End IndexContents.

Section IndexVocabulary.
Context {lib : NetLib}.

(** Some listed block allocates the address. *)
Definition allocatedAt (blocks : list AllocationBlock) (ip : string) : Prop :=
  exists b i attrIdx,
    b ∈ blocks /\ Allocations b !! i = Some (Some attrIdx) /\
    IP_String (OrdinalToIP (CIDR b) (Z.of_nat i)) = ip.

(** A listed node or workload endpoint has the address, or a listed block
    reserves it. *)
Definition usedAt (blocks : list AllocationBlock) (nodes : list Node)
    (weps : list WorkloadEndpoint) (ip : string) : Prop :=
  (exists n ips, n ∈ nodes /\ getNodeIPs n = Done ips /\ ip ∈ ips) \/
  (exists w ips, w ∈ weps /\ getWEPIPs w = Done ips /\ ip ∈ ips) \/
  (exists b i attrs,
     b ∈ blocks /\ resolveAttr b (Z.of_nat i) = Some attrs /\
     AttrPrimary attrs = Some WindowsReservedHandle /\
     IP_String (OrdinalToIP (CIDR b) (Z.of_nat i)) = ip).

End IndexVocabulary.

(** ** Runs that differ in their flags only *)

Section AgreeDefs.
Context {lib : NetLib} {client : Client}.

(** Two states with the same indexes and the same datastore; the flags and
    what was written may differ. *)
Definition same_indexes : relation Run := fun s t =>
  allocations (checker s) = allocations (checker t) /\
  inUseIPs (checker s) = inUseIPs (checker t) /\
  store s = store t.

(** From such states [m] and [m'] have the same outcome and reach such
    states. *)
Definition agree {A} (m m' : M A) : Prop :=
  forall s t, same_indexes s t ->
    (m s).1 = (m' t).1 /\ same_indexes (m s).2 (m' t).2.

End AgreeDefs.

(** ** Loads that stop early *)

Section FailureDefs.
Context {lib : NetLib} {client : Client}.

(** The first list call that fails, and the error the check wraps its
    error in; the phases before it go through. *)
Inductive listingFailure (d : Datastore) : string -> Prop :=
| blocksFailure e :
    (ListBlocks d).1 = inr e ->
    listingFailure d ("failed to list IPAM blocks: " +:+ e)
| poolsFailure blocks e :
    (ListBlocks d).1 = inl blocks -> blocks_ok blocks ->
    (ListIPPools d).1 = inr e ->
    listingFailure d ("failed to load IP pools: " +:+ e)
| nodesFailure blocks pools e :
    (ListBlocks d).1 = inl blocks -> blocks_ok blocks ->
    (ListIPPools d).1 = inl pools -> pools_ok pools ->
    (ListNodes d).1 = inr e ->
    listingFailure d ("failed to list nodes: " +:+ e)
| wepsFailure blocks pools nodes e :
    (ListBlocks d).1 = inl blocks -> blocks_ok blocks ->
    (ListIPPools d).1 = inl pools -> pools_ok pools ->
    (ListNodes d).1 = inl nodes -> Forall nodeNormalises nodes ->
    (ListWorkloadEndpoints d).1 = inr e ->
    listingFailure d ("failed to list workload endpoints: " +:+ e).


End FailureDefs.

(** ** What the load counts *)

Section CountDefs.
Context {lib : NetLib} {client : Client} {range : MapRange}.

(** The lines of the load that count what was found. *)
Definition countLines (blocks : list AllocationBlock) (pools : list IPPool)
    (nodes : list Node) (weps : list WorkloadEndpoint) : list string :=
  ["Found " +:+ pretty (length blocks) +:+ " IPAM blocks.";
   "IPAM blocks record "
   +:+ pretty (length (remove_dups (allocIP <$> (blocks ≫= allocatedIn))))
   +:+ " allocations.";
   "Found " +:+ pretty (length (enabledPools pools)) +:+ " active IP pools.";
   "Found " +:+ pretty (length (nodes ≫= nodeAddrs)) +:+ " node tunnel IPs.";
   "Found " +:+ pretty (length (weps ≫= IPNetworks)) +:+ " workload IPs.";
   "Workloads and nodes are using "
   +:+ pretty (length (remove_dups (usesOf blocks nodes weps).*1))
   +:+ " IPs."].

(** Lines were written, none was taken back. *)
Definition grows : relation Run := prints (fun _ => True).

End CountDefs.

(** * A small cluster to run the checker on

    A stand-in for the imported library that knows a handful of addresses,
    a datastore that is a snapshot of four lists, and two orders for
    [range]. *)

Module Fixture.

Definition dotted (a : N) : string :=
  pretty (a / 16777216)%N +:+ "." +:+ pretty ((a / 65536) mod 256)%N +:+ "."
  +:+ pretty ((a / 256) mod 256)%N +:+ "." +:+ pretty (a mod 256)%N.

Definition known : list (string * N) :=
  [("10.0.0.5", 167772165%N); ("10.0.0.6", 167772166%N);
   ("10.0.0.7", 167772167%N); ("10.0.0.9", 167772169%N);
   ("10.0.0.9/32", 167772169%N); ("192.168.99.9", 3232260873%N)].

Definition lookup_known (s : string) : option N :=
  snd <$> find (fun kv => bool_decide (kv.1 = s)) known.

Definition parse_cidr (s : string) : (N * N) + string :=
  if decide (s = "10.0.0.0/24") then inl (167772160%N, 24%N)
  else if decide (s = "192.168.0.0/16") then inl (3232235520%N, 16%N)
  else inr ("invalid CIDR address: " +:+ s).

Definition contains (n : N * N) (ip : option N) : bool :=
  match ip with
  | Some a => bool_decide (a / 2 ^ (32 - n.2) = n.1 / 2 ^ (32 - n.2))%N
  | None => false
  end.

Global Instance lib : NetLib := {|
  IPNet := N * N;
  IP := N;
  IPNet_String := fun n => dotted n.1 +:+ "/" +:+ pretty n.2;
  IP_String := dotted;
  ParseCIDR := parse_cidr;
  ParseCIDROrIP := fun s =>
    match lookup_known s with
    | Some a => inl a
    | None => inr ("invalid IP address: " +:+ s)
    end;
  ParseIP := lookup_known;
  Contains := contains;
  OrdinalToIP := fun n ord => (n.1 + Z.to_N ord)%N;
  WindowsReservedHandle := "windows-reserved-ipam-handle";
|}.

Record Snapshot := {
  blocks : list AllocationBlock + string;
  pools : list IPPool + string;
  nodes : list Node + string;
  weps : list WorkloadEndpoint + string;
}.

Global Instance client : Client := {|
  Datastore := Snapshot;
  ListBlocks := fun d => (blocks d, d);
  ListIPPools := fun d => (pools d, d);
  ListNodes := fun d => (nodes d, d);
  ListWorkloadEndpoints := fun d => (weps d, d);
  ListBlocks_read := fun d => eq_refl;
  ListIPPools_read := fun d => eq_refl;
  ListNodes_read := fun d => eq_refl;
  ListWorkloadEndpoints_read := fun d => eq_refl;
|}.

Lemma forward_perm (V : Type) (m : gmap string V) :
  map_to_list m ≡ₚ map_to_list m.
Proof. reflexivity. Qed.

Lemma backward_perm (V : Type) (m : gmap string V) :
  reverse (map_to_list m) ≡ₚ map_to_list m.
Proof. apply reverse_Permutation. Qed.

Definition forward : MapRange :=
  {| map_range := fun V m => map_to_list m; map_range_perm := forward_perm |}.

Definition backward : MapRange :=
  {| map_range := fun V m => reverse (map_to_list m);
     map_range_perm := backward_perm |}.

(** One block with three allocations: an ordinary one, a reserved one and
    one whose attribute index is past the table. *)
Definition block1 : AllocationBlock :=
  {| CIDR := (167772160%N, 26%N);
     Affinity := Some "host:node1";
     Allocations :=
       [None; None; None; None; None; Some 0%Z; Some 1%Z; Some 7%Z];
     Attributes :=
       [ {| AttrPrimary := Some "h1";
            AttrSecondary :=
              {[ "pod" := "p1"; "namespace" := "default"; "node" := "n1" ]} |};
         {| AttrPrimary := Some "windows-reserved-ipam-handle";
            AttrSecondary := ∅ |} ] |}.

Definition node1 : Node :=
  {| node_Name := "n1";
     IPv4VXLANTunnelAddr := "10.0.0.9";
     Wireguard_InterfaceIPv4Address := None;
     BGP_IPv4IPIPTunnelAddr := Some "" |}.

Definition wep1 : WorkloadEndpoint :=
  {| wep_Namespace := "default"; wep_Name := "w1";
     IPNetworks := ["192.168.99.9"] |}.

Definition cluster : Snapshot :=
  {| blocks := inl [block1];
     pools := inl [ {| pool_CIDR := "10.0.0.0/24"; pool_Disabled := false |};
                    {| pool_CIDR := "192.168.0.0/16"; pool_Disabled := true |} ];
     nodes := inl [node1];
     weps := inl [wep1] |}.

(** The state after the four loads, with the problem lines switched on,
    and the pools it found active. *)
Definition loaded : Run :=
  Eval vm_compute in
    (load (range := forward) (start (NewIPAMChecker false true) cluster)).2.

Definition active : list IPNet := [(167772160%N, 24%N)].

Lemma load_cluster :
  load (range := forward) (start (NewIPAMChecker false true) cluster)
  = (Done active, loaded).
Proof. reflexivity. Qed.

(** A node whose tunnel address is not an address. *)
Definition node2 : Node :=
  {| node_Name := "n2";
     IPv4VXLANTunnelAddr := "not-an-ip";
     Wireguard_InterfaceIPv4Address := None;
     BGP_IPv4IPIPTunnelAddr := None |}.

Definition badNodeCluster : Snapshot :=
  {| blocks := inl [block1];
     pools := inl [ {| pool_CIDR := "10.0.0.0/24"; pool_Disabled := false |} ];
     nodes := inl [node1; node2];
     weps := inl [wep1] |}.

(** A pool that is not disabled and whose CIDR is not a CIDR. *)
Definition badPoolCluster : Snapshot :=
  {| blocks := inl [];
     pools := inl [ {| pool_CIDR := "bogus"; pool_Disabled := false |} ];
     nodes := inl [];
     weps := inl [] |}.

(** A block whose only allocation carries the attribute index -1. *)
Definition badBlock : AllocationBlock :=
  {| CIDR := (167772160%N, 26%N);
     Affinity := None;
     Allocations := [Some (-1)%Z];
     Attributes := [] |}.

Definition badIndexCluster : Snapshot :=
  {| blocks := inl [badBlock]; pools := inl []; nodes := inl [];
     weps := inl [] |}.

(** What the check writes on the small cluster with the problem lines on,
    under the two orders of [range]. *)
Definition transcriptForward : list string :=
  Eval vm_compute in
    stdout (checkIPAM (lib := lib) (client := client)
              (range := forward)
              (start (NewIPAMChecker false true) cluster)).2.

Definition transcriptBackward : list string :=
  Eval vm_compute in
    stdout (checkIPAM (lib := lib) (client := client)
              (range := backward)
              (start (NewIPAMChecker false true) cluster)).2.

End Fixture.

(** ** A report to release from *)

Module ReleaseFixture.

Definition info : ReleaseCmd.ClusterInformation :=
  {| ReleaseCmd.ResourceVersion := "1042";
     ReleaseCmd.Spec_ClusterGUID := "f00d";
     ReleaseCmd.Spec_DatastoreReady := Some false |}.

(** The cluster information of a datastore that is not locked. *)
Definition unlockedInfo : ReleaseCmd.ClusterInformation :=
  {| ReleaseCmd.ResourceVersion := "1042";
     ReleaseCmd.Spec_ClusterGUID := "f00d";
     ReleaseCmd.Spec_DatastoreReady := None |}.

Definition entries : list (list ReleaseCmd.Allocation) :=
  [ [ {| ReleaseCmd.alloc_IP := "10.0.0.5"; ReleaseCmd.InUse := false |};
      {| ReleaseCmd.alloc_IP := "10.0.0.6"; ReleaseCmd.InUse := true |} ];
    [ {| ReleaseCmd.alloc_IP := "10.0.0.7"; ReleaseCmd.InUse := false |} ] ].

(** A report on the small cluster: 10.0.0.5 and 10.0.0.7 are not in use,
    10.0.0.6 is. *)
Definition report : ReleaseCmd.Report :=
  {| ReleaseCmd.Version := "v3.16.0"; ReleaseCmd.ClusterGUID := "f00d";
     ReleaseCmd.ClusterInfoRevision := "1042";
     ReleaseCmd.Allocations := entries |}.

(** The same report, made before the cluster information last changed. *)
Definition staleReport : ReleaseCmd.Report :=
  {| ReleaseCmd.Version := "v3.16.0"; ReleaseCmd.ClusterGUID := "f00d";
     ReleaseCmd.ClusterInfoRevision := "1000";
     ReleaseCmd.Allocations := entries |}.

(** A report with an entry that is not an address. *)
Definition brokenReport : ReleaseCmd.Report :=
  {| ReleaseCmd.Version := "v3.16.0"; ReleaseCmd.ClusterGUID := "f00d";
     ReleaseCmd.ClusterInfoRevision := "1042";
     ReleaseCmd.Allocations :=
       [ [ {| ReleaseCmd.alloc_IP := "10.0.0.5"; ReleaseCmd.InUse := false |};
           {| ReleaseCmd.alloc_IP := "10.0.0.x"; ReleaseCmd.InUse := false |} ] ] |}.

(** A report all of whose entries are in use. *)
Definition cleanReport : ReleaseCmd.Report :=
  {| ReleaseCmd.Version := "v3.16.0"; ReleaseCmd.ClusterGUID := "f00d";
     ReleaseCmd.ClusterInfoRevision := "1042";
     ReleaseCmd.Allocations :=
       [ [ {| ReleaseCmd.alloc_IP := "10.0.0.6"; ReleaseCmd.InUse := true |} ] ] |}.

Definition files : list (string * ReleaseCmd.Report) :=
  [("report.json", report); ("stale.json", staleReport);
   ("broken.json", brokenReport); ("clean.json", cleanReport)].

(** The addresses the blocks of a snapshot allocate. *)
Definition assigned (d : Fixture.Snapshot) : list N :=
  match Fixture.blocks d with
  | inl bs =>
      bs ≫= (fun b =>
        imap (fun ord p => (p, ((CIDR b).1 + N.of_nat ord)%N)) (Allocations b)
        ≫= (fun '(p, ip) => match p with Some _ => [ip] | None => [] end))
  | inr _ => []
  end.

Definition free (ips : list N) (b : AllocationBlock (lib := Fixture.lib))
    : AllocationBlock (lib := Fixture.lib) :=
  {| CIDR := CIDR b; Affinity := Affinity b;
     Allocations :=
       imap (fun ord p =>
               if bool_decide (((CIDR b).1 + N.of_nat ord)%N ∈ ips)
               then None else p) (Allocations b);
     Attributes := Attributes b |}.

Definition releaseIPs (ips : list N) (d : Fixture.Snapshot)
    : (list N + string) * Fixture.Snapshot :=
  (inl (filter (fun ip => ip ∉ assigned d) ips),
   {| Fixture.blocks :=
        match Fixture.blocks d with
        | inl bs => inl (free ips <$> bs)
        | inr e => inr e
        end;
      Fixture.pools := Fixture.pools d;
      Fixture.nodes := Fixture.nodes d;
      Fixture.weps := Fixture.weps d |}).

(** A file holds the name of the report it stands for; the cluster
    information is [info]. *)
Definition env
    : ReleaseCmd.ReleaseEnv (lib := Fixture.lib) (client := Fixture.client) :=
  {| ReleaseCmd.ReadFile := fun f =>
       match find (fun kv => bool_decide (kv.1 = f)) files with
       | Some _ => inl f
       | None => inr ("open " +:+ f +:+ ": no such file or directory")
       end;
     ReleaseCmd.Unmarshal := fun bytes =>
       match find (fun kv => bool_decide (kv.1 = bytes)) files with
       | Some kv => inl kv.2
       | None => inr "unexpected end of JSON input"
       end;
     ReleaseCmd.ValidateIP := fun s =>
       match Fixture.lookup_known s with
       | Some a => Done a
       | None => Panic "exit status 1"
       end;
     ReleaseCmd.GetClusterInformation := fun d => (inl info, d);
     ReleaseCmd.ReleaseIPs := releaseIPs;
     ReleaseCmd.GetClusterInformation_read := fun d => eq_refl |}.

(** The same, on a datastore that is not locked. *)
Definition unlockedEnv
    : ReleaseCmd.ReleaseEnv (lib := Fixture.lib) (client := Fixture.client) :=
  {| ReleaseCmd.ReadFile := ReleaseCmd.ReadFile (ReleaseEnv := env);
     ReleaseCmd.Unmarshal := ReleaseCmd.Unmarshal (ReleaseEnv := env);
     ReleaseCmd.ValidateIP := ReleaseCmd.ValidateIP (ReleaseEnv := env);
     ReleaseCmd.GetClusterInformation := fun d => (inl unlockedInfo, d);
     ReleaseCmd.ReleaseIPs := releaseIPs;
     ReleaseCmd.GetClusterInformation_read := fun d => eq_refl |}.

(** A process that starts on the small cluster. *)
Definition fresh : Run (lib := Fixture.lib) (client := Fixture.client) :=
  start (NewIPAMChecker false false) Fixture.cluster.

(** The small cluster once 10.0.0.5 and 10.0.0.7 are released. *)
Definition released : Fixture.Snapshot :=
  Eval vm_compute in
    (releaseIPs [167772165%N; 167772167%N] Fixture.cluster).2.

(** That process once the report is released from. *)
Definition afterRelease
    : Run (lib := Fixture.lib) (client := Fixture.client) :=
  {| checker := NewIPAMChecker false false;
     stdout := ["Releasing 2 old IPs"; "Released 2 IPs successfully"];
     store := released |}.

End ReleaseFixture.

(** ** A file to import *)

Module ImportFixture.

Definition migration : string :=
  "v3" +:+ importSeparator +:+ "info" +:+ importSeparator +:+ "ipam".

Definition files : Files :=
  {| ReadFile := fun f =>
       if decide (f = "/dev/stdin") then inl migration
       else if decide (f = "short.yaml") then inl ("v3" +:+ importSeparator)
       else inr ("open " +:+ f +:+ ": no such file or directory");
     StdinName := "/dev/stdin" |}.

End ImportFixture.

(** * Facts *)

(** ** The checker at work *)

(** An empty datastore: the check returns nil and finds nothing. *)
Example clean_state :
  let run :=
    checkIPAM_locals (lib := Fixture.lib) (client := Fixture.client)
      (range := Fixture.forward)
      (start (NewIPAMChecker false false)
         {| Fixture.blocks := inl []; Fixture.pools := inl [];
            Fixture.nodes := inl []; Fixture.weps := inl [] |}) in
  run.1 = Done {| allocatedButNotInUseIPs := [];
                  inUseButNotAllocatedIPs := [];
                  nonCalicoIPs := [];
                  numProblems := 0 |} /\
  last (stdout run.2) = Some "Check complete; found 0 problems.".
Proof. split; reflexivity. Qed.

(** The small cluster: 10.0.0.5 and 10.0.0.7 are allocated and not in use,
    10.0.0.6 is reserved, the node uses 10.0.0.9 inside the active pool
    without an allocation, the workload uses 192.168.99.9 outside it. *)
Example cluster_findings :
  (checkIPAM_locals (lib := Fixture.lib) (client := Fixture.client)
     (range := Fixture.forward)
     (start (NewIPAMChecker false true) Fixture.cluster)).1
  = Done {| allocatedButNotInUseIPs := ["10.0.0.7"; "10.0.0.5"];
            inUseButNotAllocatedIPs := ["10.0.0.9"];
            nonCalicoIPs := ["192.168.99.9"];
            numProblems := 4 |}.
Proof. reflexivity. Qed.

(** The secondary attributes come out in the order of their keys. *)
Example cluster_attrs :
  GetAttrString (range := Fixture.backward)
    {| Block := Fixture.block1; Ordinal := 5 |}
  = Done "Main:h1 Extra:namespace=default,node=n1,pod=p1".
Proof. reflexivity. Qed.

(** A list call that fails stops the check with the wrapped error. *)
Example listing_error :
  (checkIPAM (lib := Fixture.lib) (client := Fixture.client)
     (range := Fixture.forward)
     (start (NewIPAMChecker false false)
        {| Fixture.blocks := inl []; Fixture.pools := inr "connection refused";
           Fixture.nodes := inl []; Fixture.weps := inl [] |})).1
  = Fail "failed to load IP pools: connection refused".
Proof. reflexivity. Qed.

(** ** The order of [sort.Strings] *)

Lemma compare_as_OT (a b : string) :
  String.compare a b = OrdersEx.String_as_OT.compare a b.
Proof.
  reflexivity.
Qed.

Lemma string_le_cases (a b : string) :
  string_le a b <-> OrdersEx.String_as_OT.lt a b \/ a = b.
Proof.
  unfold string_le, String.leb. rewrite compare_as_OT.
  destruct (OrdersEx.String_as_OT.compare_spec a b) as [E|L|G].
  - split; auto.
  - split; auto.
  - split; [discriminate|]. intros [L| ->].
    + exfalso. eapply (irreflexivity OrdersEx.String_as_OT.lt).
      etransitivity; eassumption.
    + exfalso. eapply (irreflexivity OrdersEx.String_as_OT.lt); eassumption.
Qed.

Global Instance string_le_total : Total string_le.
Proof. intros a b. apply String.leb_total. Qed.

Global Instance string_le_antisymm : AntiSymm (=) string_le.
Proof. intros a b. apply String.leb_antisym. Qed.

Global Instance string_le_trans : Transitive string_le.
Proof.
  intros a b c. rewrite !string_le_cases.
  intros [L1| ->] [L2| ->]; auto.
  left. etransitivity; eassumption.
Qed.

Lemma sort_Strings_sorted (l : list string) : Sorted string_le (sort_Strings l).
Proof. apply (Sorted_merge_sort string_le). Qed.

Lemma sort_Strings_perm (l : list string) : sort_Strings l ≡ₚ l.
Proof. apply merge_sort_Permutation. Qed.

(** Sorting forgets the order its input came in. *)
Lemma sort_Strings_order (l1 l2 : list string) :
  l1 ≡ₚ l2 -> sort_Strings l1 = sort_Strings l2.
Proof.
  intros Hp. apply (Sorted_unique string_le); try apply sort_Strings_sorted.
  rewrite !sort_Strings_perm. exact Hp.
Qed.

(** ** Reasoning about runs *)

Section RunFacts.
Context {lib : NetLib} {client : Client}.

Lemma emit_nil s : emit [] s = s.
Proof. destruct s; unfold emit; simpl. by rewrite app_nil_r. Qed.

Lemma emit_emit l1 l2 s : emit l2 (emit l1 s) = emit (l1 ++ l2) s.
Proof. unfold emit; simpl. by rewrite app_assoc. Qed.

Lemma println_emit line s : println line s = (Done tt, emit [line] s).
Proof. reflexivity. Qed.

Lemma bind_Done {A B} (m : M A) (k : A -> M B) s b s2 :
  bind m k s = (Done b, s2) <->
  exists a s1, m s = (Done a, s1) /\ k a s1 = (Done b, s2).
Proof.
  unfold bind. destruct (m s) as [[a|e|p] s1]; split.
  - eauto.
  - intros (a' & s1' & E & K). by simplify_eq.
  - discriminate.
  - intros (a' & s1' & E & K). discriminate.
  - discriminate.
  - intros (a' & s1' & E & K). discriminate.
Qed.

Lemma bind_step {A B} (m : M A) (k : A -> M B) s a s1 :
  m s = (Done a, s1) -> bind m k s = k a s1.
Proof. unfold bind. by intros ->. Qed.

Lemma bind_Fail {A B} (m : M A) (k : A -> M B) s e s1 :
  m s = (Fail e, s1) -> bind m k s = (Fail e, s1).
Proof. unfold bind. by intros ->. Qed.

Lemma bind_Panic {A B} (m : M A) (k : A -> M B) s p s1 :
  m s = (Panic p, s1) -> bind m k s = (Panic p, s1).
Proof. unfold bind. by intros ->. Qed.

(** A computation that fails leaves the state its failing prefix reached;
    one that goes on runs its continuation. *)
Lemma bind_cases {A B} (m : M A) (k : A -> M B) s :
  (exists a s1, m s = (Done a, s1) /\ bind m k s = k a s1) \/
  (exists e s1, m s = (Fail e, s1) /\ bind m k s = (Fail e, s1)) \/
  (exists p s1, m s = (Panic p, s1) /\ bind m k s = (Panic p, s1)).
Proof.
  unfold bind. destruct (m s) as [[a|e|p] s1]; eauto 6.
Qed.

(** *** Relations that every step of a computation respects *)

Section Always.
Context (R : relation Run) `{!PreOrder R}.

Lemma always_ret {A} (a : A) : always R (ret a).
Proof. intros s. simpl. reflexivity. Qed.

Lemma always_fail {A} e : always R (fail (A := A) e).
Proof. intros s. simpl. reflexivity. Qed.

Lemma always_lift {A} (o : outcome A) : always R (lift o).
Proof. intros s. simpl. reflexivity. Qed.

Lemma always_getChecker : always R getChecker.
Proof. intros s. simpl. reflexivity. Qed.

Lemma always_bind {A B} (m : M A) (k : A -> M B) :
  always R m -> (forall a, always R (k a)) -> always R (bind m k).
Proof.
  intros Hm Hk s. specialize (Hm s). unfold bind.
  destruct (m s) as [[a|e|p] s1]; simpl in *; try done.
  etransitivity; [exact Hm | apply Hk].
Qed.

Lemma always_forM_ {A} (l : list A) (f : A -> M unit) :
  (forall x, always R (f x)) -> always R (forM_ l f).
Proof.
  intros Hf. induction l as [|x l IH]; simpl.
  - apply always_ret.
  - apply always_bind; auto.
Qed.

Lemma always_foldM {A B} (f : B -> A -> M B) (l : list A) (b : B) :
  (forall b x, always R (f b x)) -> always R (foldM f l b).
Proof.
  intros Hf. revert b. induction l as [|x l IH]; intros b; simpl.
  - apply always_ret.
  - apply always_bind; auto.
Qed.

Lemma always_when (b : bool) (m : M unit) :
  always R m -> always R (when b m).
Proof. destruct b; simpl; auto using always_ret. Qed.

End Always.

Global Instance same_store_po : PreOrder same_store.
Proof. split; unfold same_store; [done | congruence]. Qed.

Global Instance prints_po P : PreOrder (prints P).
Proof.
  split.
  - intros s. exists []. by rewrite app_nil_r.
  - intros s1 s2 s3 (l1 & E1 & F1) (l2 & E2 & F2). exists (l1 ++ l2).
    rewrite E2, E1, app_assoc. split; [done | by apply Forall_app].
Qed.

Global Instance same_checker_po : PreOrder same_checker.
Proof. split; unfold same_checker; [done | congruence]. Qed.

Global Instance usage_grows_po : PreOrder usage_grows.
Proof.
  split.
  - intros s. unfold usage_grows. auto.
  - intros s1 s2 s3 (A1 & B1 & D1) (A2 & B2 & D2).
    unfold usage_grows. repeat split; try congruence. auto.
Qed.

Global Instance same_allocations_po : PreOrder same_allocations.
Proof. split; unfold same_allocations; [done | congruence]. Qed.

Lemma always_println (R : relation Run) line :
  (forall s, R s (emit [line] s)) -> always R (println line).
Proof. intros HR s. apply HR. Qed.

Lemma always_setChecker (R : relation Run) c :
  (forall s, R s {| checker := c; stdout := stdout s; store := store s |}) ->
  always R (setChecker c).
Proof. intros HR s. apply HR. Qed.

Lemma always_listCall (R : relation Run) {A}
    (call : Datastore -> (list A + string) * Datastore) what :
  (forall s, R s {| checker := checker s; stdout := stdout s;
                    store := (call (store s)).2 |}) ->
  always R (listCall call what).
Proof.
  intros HR s. specialize (HR s). unfold listCall.
  destruct (call (store s)) as [[l|e] d]; exact HR.
Qed.

(** *** Invariants of the runs that go on *)

Section Keeps.
Context (I : Run -> Prop).

Lemma keeps_ret {A} (a : A) : keeps I (ret a).
Proof. intros s a' s' Hs E. unfold ret in E. by simplify_eq. Qed.

Lemma keeps_bind {A B} (m : M A) (k : A -> M B) :
  keeps I m -> (forall a, keeps I (k a)) -> keeps I (bind m k).
Proof.
  intros Hm Hk s b s2 Hs E. apply bind_Done in E as (a & s1 & E1 & E2).
  eapply Hk; [|exact E2]. eapply Hm; eauto.
Qed.

Lemma keeps_forM_ {A} (l : list A) (f : A -> M unit) :
  (forall x, keeps I (f x)) -> keeps I (forM_ l f).
Proof.
  intros Hf. induction l as [|x l IH]; simpl.
  - apply keeps_ret.
  - apply keeps_bind; auto.
Qed.

Lemma keeps_foldM {A B} (f : B -> A -> M B) (l : list A) (b : B) :
  (forall b x, keeps I (f b x)) -> keeps I (foldM f l b).
Proof.
  intros Hf. revert b. induction l as [|x l IH]; intros b; simpl.
  - apply keeps_ret.
  - apply keeps_bind; auto.
Qed.

Lemma always_keeps {A} (R : relation Run) (m : M A) :
  (forall s s', R s s' -> I s -> I s') -> always R m -> keeps I m.
Proof.
  intros HR Hm s a s' Hs E. apply (HR s); [|done].
  specialize (Hm s). by rewrite E in Hm.
Qed.

End Keeps.

(** What one element of a loop establishes still holds when the loop is
    over, if every step of the loop respects it. *)
Lemma forM__elem {A} (R : relation Run) `{!PreOrder R} (Q : Run -> Prop)
    (l : list A) (f : A -> M unit) (x : A) :
  (forall s s', R s s' -> Q s -> Q s') ->
  (forall y, always R (f y)) ->
  x ∈ l ->
  (forall s s', f x s = (Done tt, s') -> Q s') ->
  forall s s', forM_ l f s = (Done tt, s') -> Q s'.
Proof.
  intros HR Hf Hx HQ. induction l as [|y l IH]; [by apply elem_of_nil in Hx|].
  intros s s' E. simpl in E. apply bind_Done in E as ([] & s1 & E1 & E2).
  apply elem_of_cons in Hx as [->|Hx].
  - apply (HR s1); [|by eapply HQ].
    pose proof (always_forM_ R l f Hf s1) as Hl. by rewrite E2 in Hl.
  - by eapply IH.
Qed.

End RunFacts.

(** Walks down a computation along the combinators of the monad. *)
Ltac always_go :=
  repeat lazymatch goal with
    | |- always _ (ret _) => apply always_ret; apply _
    | |- always _ (fail _) => apply always_fail; apply _
    | |- always _ (lift _) => apply always_lift; apply _
    | |- always _ getChecker => apply always_getChecker; apply _
    | |- always _ (bind _ _) => apply always_bind; [apply _ | | intros ?]
    | |- always _ (forM_ _ _) => apply always_forM_; [apply _ | intros ?]
    | |- always _ (foldM _ _ _) => apply always_foldM; [apply _ | intros ? ?]
    | |- always _ (when _ _) => apply always_when; [apply _ |]
    | |- always _ (match ?x with _ => _ end) => destruct x
    | |- always _ ((match ?x with _ => _ end) _) => destruct x; cbv beta
    end.

(** Runs the first computation of a [bind] and goes on with the rest. *)
Ltac step_with lem := erewrite bind_step; [| lem ].
Ltac step := erewrite bind_step; [| reflexivity ].
Ltac finish :=
  unfold ret, emit; simpl;
  repeat (progress (rewrite <- ?app_assoc; simpl)); reflexivity.

(** ** What every run of the checker respects *)

Section CheckerFacts.
Context {lib : NetLib} {client : Client} {range : MapRange}.

Lemma recordInUseIP_eq ip r f s :
  recordInUseIP ip r f s =
  (Done tt,
   {| checker := useIP ip r f (checker s);
      stdout := stdout s ++ (if showAllIPs (checker s)
                             then ["  " +:+ ip +:+ " belongs to " +:+ f]
                             else []);
      store := store s |}).
Proof.
  unfold recordInUseIP, bind, getChecker, when, setChecker, println, ret, useIP.
  simpl. destruct (showAllIPs (checker s)); simpl; [done|].
  by rewrite app_nil_r.
Qed.

Ltac unfold_checker :=
  unfold checkIPAM, checkIPAM_locals, load, classify, loadBlocks,
    loadPools, loadNodes, loadWorkloadEndpoints, scanAllocations, scanInUse,
    leakedStep, inUseStep, blockStep, poolStep, nodeStep, wepStep.

(** [recordAllocation] taken apart into its cases. *)
Ltac recordAllocation_cases :=
  unfold recordAllocation, bind, getChecker, setChecker, when, lift, println,
    ret; simpl;
  repeat case_match; simplify_eq/=; try rewrite recordInUseIP_eq.

(** Closes [always R m] once the primitives that change the state are
    dealt with by [tac]. *)
Ltac always_with tac :=
  unfold_checker; always_go;
  first [ apply always_println; intros ?; tac
        | apply always_listCall; intros ?; tac
        | intros ?; rewrite recordInUseIP_eq; tac
        | intros ?; recordAllocation_cases; tac ].

Ltac store_tac :=
  first [ reflexivity
        | apply ListBlocks_read | apply ListIPPools_read
        | apply ListNodes_read | apply ListWorkloadEndpoints_read ].

Lemma checkIPAM_locals_store : always same_store checkIPAM_locals.
Proof. always_with ltac:(store_tac). Qed.

Lemma load_store : always same_store load.
Proof. always_with ltac:(store_tac). Qed.

Lemma loadBlocks_store : always same_store loadBlocks.
Proof. always_with ltac:(store_tac). Qed.

Lemma loadPools_store : always same_store loadPools.
Proof. always_with ltac:(store_tac). Qed.

Lemma loadNodes_store : always same_store loadNodes.
Proof. always_with ltac:(store_tac). Qed.

Ltac usage_tac :=
  unfold usage_grows; simpl; repeat split; try done;
  try (intros ip' Hs; rewrite lookup_insert; destruct (decide (_ = ip'));
       [by eexists | done]).

Lemma recordInUseIP_usage ip r f : always usage_grows (recordInUseIP ip r f).
Proof. intros s. rewrite recordInUseIP_eq. usage_tac. Qed.

Lemma recordAllocation_usage b ord : always usage_grows (recordAllocation b ord).
Proof. intros s. recordAllocation_cases; usage_tac. Qed.

Lemma loadBlocks_usage : always usage_grows loadBlocks.
Proof. always_with ltac:(usage_tac). Qed.

Lemma loadPools_usage : always usage_grows loadPools.
Proof. always_with ltac:(usage_tac). Qed.

Lemma loadNodes_usage : always usage_grows loadNodes.
Proof. always_with ltac:(usage_tac). Qed.

Lemma loadWorkloadEndpoints_usage : always usage_grows loadWorkloadEndpoints.
Proof. always_with ltac:(usage_tac). Qed.

Lemma load_usage : always usage_grows load.
Proof. always_with ltac:(usage_tac). Qed.

Lemma loadPools_allocations : always same_allocations loadPools.
Proof. always_with ltac:(reflexivity). Qed.

Lemma loadNodes_allocations : always same_allocations loadNodes.
Proof. always_with ltac:(reflexivity). Qed.

Lemma loadWorkloadEndpoints_allocations :
  always same_allocations loadWorkloadEndpoints.
Proof. always_with ltac:(reflexivity). Qed.

(** *** What the load phases write *)

Ltac prints_tac :=
  unfold prints, emit; simpl;
  try match goal with
      | |- context [if showAllIPs ?c then _ else _] => destruct (showAllIPs c)
      end;
  (eexists; split;
   [ first [ reflexivity | rewrite <- !app_assoc; reflexivity
           | symmetry; apply app_nil_r ]
   | repeat (apply Forall_cons_2; [reflexivity |]); apply Forall_nil_2 ]).

Lemma load_prints :
  always (prints (fun l => classificationLine l = false)) load.
Proof. always_with ltac:(prints_tac). Qed.

(** *** [recordAllocation] *)

Lemma recordAllocation_Done b ord s s' :
  recordAllocation b ord s = (Done tt, s') ->
  attr_ok {| Block := b; Ordinal := ord |} /\
  allocations (checker s') =
    <[IP_String (OrdinalToIP (CIDR b) ord) :=
        default [] (allocations (checker s)
                      !! IP_String (OrdinalToIP (CIDR b) ord))
          ++ [{| Block := b; Ordinal := ord |}]]> (allocations (checker s)).
Proof.
  intros E. unfold attr_ok, GetAttrString. revert E.
  recordAllocation_cases; intros E; simplify_eq/=; split; try done;
    repeat match goal with
           | Hx : _ = Done _ |- _ => rewrite Hx; simpl
           | Hx : (_ <? _)%Z = _ |- _ => rewrite Hx; simpl
           end; eauto.
Qed.

Lemma recordAllocation_allocs_ok b ord : keeps allocs_ok (recordAllocation b ord).
Proof.
  intros s [] s' Hs E. apply recordAllocation_Done in E as [Hok Ha].
  intros ip allocs. rewrite Ha, lookup_insert. case_decide as Hip.
  - intros [= <-]. apply Forall_app; split; [|by repeat constructor].
    destruct (allocations (checker s) !! _) as [l|] eqn:El; simpl.
    + subst ip. by eapply Hs.
    + constructor.
  - apply Hs.
Qed.

(** *** The two scans, as functions of the indexes *)

Lemma forM__println {A} (g : A -> string) (l : list A) s :
  forM_ l (fun x => println (g x)) s = (Done tt, emit (g <$> l) s).
Proof.
  revert s. induction l as [|x l IH]; intros s; simpl.
  - by rewrite emit_nil.
  - rewrite (bind_step _ _ _ _ _ (println_emit _ _)), IH, emit_emit. done.
Qed.

Lemma forM__leaked ip (allocs : list allocation) s :
  Forall attr_ok allocs ->
  forM_ allocs (fun alloc =>
    bind (lift (GetAttrString alloc)) (fun attrs =>
    println ("  " +:+ ip +:+ " leaked; attrs " +:+ attrs))) s
  = (Done tt, emit (leakedLine ip <$> allocs) s).
Proof.
  intros Hok. revert s. induction Hok as [|a l [str Ha] Hl IH]; intros s; simpl.
  - by rewrite emit_nil.
  - unfold bind at 1. unfold bind at 1. unfold lift. rewrite Ha.
    rewrite println_emit, IH, emit_emit. unfold leakedLine at 2, attrText.
    by rewrite Ha.
Qed.

Lemma leakedStep_eq c acc entry s :
  Forall attr_ok entry.2 ->
  leakedStep c acc entry s
  = (Done (acc ++ leakedIP c entry), emit (leakedLines c entry) s).
Proof.
  intros Hok. destruct entry as [ip allocs]. unfold leakedStep, leakedIP, leakedLines.
  simpl in *. destruct (inUseIPs c !! ip).
  - unfold ret. by rewrite emit_nil, app_nil_r.
  - destruct (showProblemIPs c); simpl.
    + by rewrite (bind_step _ _ _ _ _ (forM__leaked ip allocs s Hok)).
    + unfold bind, ret. by rewrite emit_nil.
Qed.

Lemma leakedLoop_eq c entries acc s :
  Forall (fun entry => Forall attr_ok entry.2) entries ->
  foldM (leakedStep c) entries acc s
  = (Done (acc ++ (entries ≫= leakedIP c)), emit (entries ≫= leakedLines c) s).
Proof.
  intros Hok. revert acc s.
  induction Hok as [|entry entries He Hes IH]; intros acc s; simpl.
  - unfold ret. by rewrite emit_nil, app_nil_r.
  - rewrite (bind_step _ _ _ _ _ (leakedStep_eq c acc entry s He)), IH.
    by rewrite emit_emit, app_assoc.
Qed.

Lemma inUseStep_eq c pools acc entry s :
  inUseStep c pools acc entry s
  = (Done (acc.1 ++ missingIP c pools entry, acc.2 ++ foreignIP c pools entry),
     emit (inUseLines c pools entry) s).
Proof.
  destruct acc as [a1 a2], entry as [ip owners].
  unfold inUseStep, missingIP, foreignIP, inUseLines, multiOwnerLines. simpl.
  assert (Hw : when (showProblemIPs c && bool_decide (1 < length owners))
                 (println ("  " +:+ ip +:+ " has multiple owners.")) s
               = (Done tt, emit (if showProblemIPs c
                                      && bool_decide (1 < length owners)
                                 then ["  " +:+ ip +:+ " has multiple owners."]
                                 else []) s)).
  { destruct (_ && _); simpl; [done | by rewrite emit_nil]. }
  rewrite (bind_step _ _ _ _ _ Hw). clear Hw.
  destruct (allocations c !! ip).
  - unfold ret. by rewrite !app_nil_r.
  - destruct (inActivePool pools ip), (showProblemIPs c); simpl;
      unfold bind, ret; rewrite ?forM__println, ?emit_emit, ?app_nil_r; done.
Qed.

Lemma inUseLoop_eq c pools entries acc s :
  foldM (inUseStep c pools) entries acc s
  = (Done (acc.1 ++ (entries ≫= missingIP c pools),
           acc.2 ++ (entries ≫= foreignIP c pools)),
     emit (entries ≫= inUseLines c pools) s).
Proof.
  revert acc s. induction entries as [|entry entries IH]; intros acc s; simpl.
  - unfold ret. rewrite emit_nil, !app_nil_r. by destruct acc.
  - rewrite (bind_step _ _ _ _ _ (inUseStep_eq c pools acc entry s)), IH.
    simpl. by rewrite emit_emit, !app_assoc.
Qed.

Lemma range_allocs_ok s :
  allocs_ok s ->
  Forall (fun entry => Forall attr_ok entry.2) (map_range (allocations (checker s))).
Proof.
  intros Hok. apply Forall_forall. intros [ip allocs] Hin. simpl.
  apply (Hok ip). apply elem_of_map_to_list.
  by rewrite <- (map_range_perm _ (allocations (checker s))).
Qed.

Lemma scanAllocations_eq s :
  allocs_ok s ->
  scanAllocations s
  = (Done (leakedOf (checker s)),
     emit (["Scanning for IPs that are allocated but not actually in use..."]
           ++ (map_range (allocations (checker s)) ≫= leakedLines (checker s))
           ++ ["Found " +:+ pretty (length (leakedOf (checker s)))
               +:+ " IPs that are allocated in IPAM but not actually in use."])
       s).
Proof.
  intros Hok. unfold scanAllocations. step. step.
  step_with ltac:(apply leakedLoop_eq; by apply range_allocs_ok).
  step. finish.
Qed.

Lemma scanInUse_eq pools s :
  scanInUse pools s
  = (Done (missingOf (checker s) pools, foreignOf (checker s) pools),
     emit (["Scanning for IPs that are in use by a workload or node but not allocated in IPAM..."]
           ++ (map_range (inUseIPs (checker s)) ≫= inUseLines (checker s) pools)
           ++ ["Found " +:+ pretty (length (foreignOf (checker s) pools))
               +:+ " in-use IPs that are not in active IP pools.";
               "Found " +:+ pretty (length (missingOf (checker s) pools))
               +:+ " in-use IPs that are in active IP pools but have no corresponding IPAM allocation.";
               ""])
       s).
Proof.
  unfold scanInUse. step. step. step_with ltac:(apply inUseLoop_eq).
  step. step. step. finish.
Qed.

Lemma classify_eq pools s :
  allocs_ok s ->
  classify pools s
  = (Done (reportOf (checker s) pools),
     emit (classifyLines (checker s) pools) s).
Proof.
  intros Hok. unfold classify.
  step_with ltac:(by apply scanAllocations_eq).
  step_with ltac:(apply scanInUse_eq).
  step. unfold classifyLines, reportOf. finish.
Qed.

(** *** Membership in the three lists *)

Lemma elem_of_map_range {V} (m : gmap string V) k v :
  (k, v) ∈ map_range m <-> m !! k = Some v.
Proof. by rewrite (map_range_perm V m), elem_of_map_to_list. Qed.

Lemma NoDup_map_range {V} (m : gmap string V) : NoDup (map_range m).*1.
Proof. rewrite (map_range_perm V m). apply NoDup_fst_map_to_list. Qed.

Lemma inActivePool_true pools ip :
  inActivePool pools ip = true <->
  exists cidr, cidr ∈ pools /\ Contains cidr (ParseIP ip) = true.
Proof.
  unfold inActivePool. rewrite existsb_exists.
  by setoid_rewrite list_elem_of_In.
Qed.

Lemma inActivePool_false pools ip :
  inActivePool pools ip = false <->
  forall cidr, cidr ∈ pools -> Contains cidr (ParseIP ip) = false.
Proof.
  rewrite <- not_true_iff_false, inActivePool_true. split.
  - intros Hn cidr Hin. apply not_true_iff_false. intros Hc. apply Hn; eauto.
  - intros Hall (cidr & Hin & Hc). rewrite (Hall cidr Hin) in Hc. done.
Qed.

Lemma elem_of_leakedOf c ip :
  ip ∈ leakedOf c <->
  is_Some (allocations c !! ip) /\ inUseIPs c !! ip = None.
Proof.
  unfold leakedOf. rewrite list_elem_of_bind. split.
  - intros ([k allocs] & Hin & He). apply elem_of_map_range in He.
    unfold leakedIP in Hin. simpl in Hin.
    destruct (inUseIPs c !! k) eqn:Eu; [by apply elem_of_nil in Hin|].
    apply list_elem_of_singleton in Hin as ->. eauto.
  - intros [[allocs Ha] Hu]. exists (ip, allocs). split.
    + unfold leakedIP. simpl. rewrite Hu. by apply list_elem_of_singleton.
    + by apply elem_of_map_range.
Qed.

Lemma elem_of_foreignOf c pools ip :
  ip ∈ foreignOf c pools <->
  is_Some (inUseIPs c !! ip) /\ allocations c !! ip = None /\
  inActivePool pools ip = false.
Proof.
  unfold foreignOf. rewrite list_elem_of_bind. split.
  - intros ([k owners] & Hin & He). apply elem_of_map_range in He.
    unfold foreignIP in Hin. simpl in Hin.
    destruct (allocations c !! k) eqn:Ea; [by apply elem_of_nil in Hin|].
    destruct (inActivePool pools k) eqn:Ep; [by apply elem_of_nil in Hin|].
    apply list_elem_of_singleton in Hin as ->. eauto.
  - intros ([owners Hu] & Ha & Hp). exists (ip, owners). split.
    + unfold foreignIP. simpl. rewrite Ha, Hp. by apply list_elem_of_singleton.
    + by apply elem_of_map_range.
Qed.

Lemma elem_of_missingOf c pools ip :
  ip ∈ missingOf c pools <->
  is_Some (inUseIPs c !! ip) /\ allocations c !! ip = None /\
  inActivePool pools ip = true.
Proof.
  unfold missingOf. rewrite list_elem_of_bind. split.
  - intros ([k owners] & Hin & He). apply elem_of_map_range in He.
    unfold missingIP in Hin. simpl in Hin.
    destruct (allocations c !! k) eqn:Ea; [by apply elem_of_nil in Hin|].
    destruct (inActivePool pools k) eqn:Ep; [|by apply elem_of_nil in Hin].
    apply list_elem_of_singleton in Hin as ->. eauto.
  - intros ([owners Hu] & Ha & Hp). exists (ip, owners). split.
    + unfold missingIP. simpl. rewrite Ha, Hp. by apply list_elem_of_singleton.
    + by apply elem_of_map_range.
Qed.

(** A loop that keeps the key of an entry or drops it keeps no key twice. *)
Lemma NoDup_bind_keys {V} (entries : list (string * V))
    (f : string * V -> list string) :
  NoDup entries.*1 ->
  (forall e, f e = [] \/ f e = [e.1]) ->
  NoDup (entries ≫= f).
Proof.
  intros Hnd Hf. induction entries as [|e entries IH]; [constructor|].
  rewrite bind_cons. rewrite fmap_cons in Hnd. apply NoDup_cons in Hnd as [Hn Hnd].
  destruct (Hf e) as [-> | ->]; simpl; [by apply IH|].
  apply NoDup_cons. split; [|by apply IH].
  intros Hin. apply list_elem_of_bind in Hin as (e' & Hin & He').
  apply Hn. destruct (Hf e') as [E|E]; rewrite E in Hin.
  - by apply elem_of_nil in Hin.
  - apply list_elem_of_singleton in Hin as ->. by apply list_elem_of_fmap_2.
Qed.

Lemma NoDup_leakedOf c : NoDup (leakedOf c).
Proof.
  apply NoDup_bind_keys; [apply NoDup_map_range|].
  intros e. unfold leakedIP. destruct (inUseIPs c !! e.1); auto.
Qed.

Lemma NoDup_foreignOf c pools : NoDup (foreignOf c pools).
Proof.
  apply NoDup_bind_keys; [apply NoDup_map_range|].
  intros e. unfold foreignIP.
  destruct (allocations c !! e.1), (inActivePool pools e.1); auto.
Qed.

Lemma NoDup_missingOf c pools : NoDup (missingOf c pools).
Proof.
  apply NoDup_bind_keys; [apply NoDup_map_range|].
  intros e. unfold missingIP.
  destruct (allocations c !! e.1), (inActivePool pools e.1); auto.
Qed.

(** *** The allocation index after the load *)

Lemma allocs_ok_same s s' : same_allocations s s' -> allocs_ok s -> allocs_ok s'.
Proof. unfold same_allocations, allocs_ok. intros -> Hs. exact Hs. Qed.

Lemma start_allocs_ok a p d : allocs_ok (start (NewIPAMChecker a p) d).
Proof. intros ip allocs. simpl. by rewrite lookup_empty. Qed.

Lemma println_allocations line : always same_allocations (println line).
Proof. by intros s. Qed.

Lemma loadBlocks_allocs_ok : keeps allocs_ok loadBlocks.
Proof.
  unfold loadBlocks, blockStep.
  repeat lazymatch goal with
    | |- keeps _ (bind _ _) => apply keeps_bind; [| intros ?]
    | |- keeps _ (forM_ _ _) => apply keeps_forM_; intros ?
    | |- keeps _ (match ?x with _ => _ end) => destruct x
    | |- keeps _ (recordAllocation _ _) => apply recordAllocation_allocs_ok
    | |- keeps _ (ret _) => apply keeps_ret
    | |- keeps _ _ =>
        apply (always_keeps _ same_allocations); [apply allocs_ok_same |];
        first [ apply println_allocations
              | apply always_listCall; by intros ?
              | apply always_getChecker; apply _ ]
    end.
Qed.

Lemma load_allocs_ok : keeps allocs_ok load.
Proof.
  unfold load.
  repeat lazymatch goal with
    | |- keeps _ (bind _ _) => apply keeps_bind; [| intros ?]
    | |- keeps _ loadBlocks => apply loadBlocks_allocs_ok
    | |- keeps _ (ret _) => apply keeps_ret
    | |- keeps _ _ =>
        apply (always_keeps _ same_allocations); [apply allocs_ok_same |];
        first [ apply println_allocations
              | apply loadPools_allocations
              | apply loadNodes_allocations
              | apply loadWorkloadEndpoints_allocations ]
    end.
Qed.

(** *** Inverting the steps of a run *)

Lemma listCall_Done {A} (call : Datastore -> (list A + string) * Datastore)
    what s l s' :
  listCall call what s = (Done l, s') ->
  (call (store s)).1 = inl l /\
  s' = {| checker := checker s; stdout := stdout s;
          store := (call (store s)).2 |}.
Proof.
  unfold listCall. destruct (call (store s)) as [[l'|e] d']; simpl.
  - by intros [= -> <-].
  - discriminate.
Qed.

Lemma listCall_eq {A} (call : Datastore -> (list A + string) * Datastore)
    what s l :
  (call (store s)).1 = inl l ->
  listCall call what s
  = (Done l, {| checker := checker s; stdout := stdout s;
                store := (call (store s)).2 |}).
Proof.
  unfold listCall. destruct (call (store s)) as [[l'|e] d']; simpl.
  - by intros [= ->].
  - discriminate.
Qed.

(** *** Reserved allocations *)

Lemma resolveAttr_Some b ord attrs :
  resolveAttr b ord = Some attrs ->
  exists attrIdx,
    (0 <= ord)%Z /\
    Allocations b !! Z.to_nat ord = Some (Some attrIdx) /\
    index (Allocations b) ord = Done (Some attrIdx) /\
    (attrIdx <? Z.of_nat (length (Attributes b)))%Z = true /\
    index (Attributes b) attrIdx = Done attrs.
Proof.
  unfold resolveAttr, index.
  destruct (ord <? 0)%Z eqn:Eo; [done|].
  destruct (Allocations b !! Z.to_nat ord) as [[attrIdx|]|] eqn:Ea; try done.
  destruct (attrIdx <? 0)%Z eqn:Ei; [done|]. intros Hat.
  exists attrIdx. rewrite Ei, Hat. apply Z.ltb_ge in Eo, Ei.
  repeat split; try done.
  apply lookup_lt_Some in Hat. apply Z.ltb_lt. lia.
Qed.

Lemma recordAllocation_reserved b ord attrs s :
  resolveAttr b ord = Some attrs ->
  AttrPrimary attrs = Some WindowsReservedHandle ->
  exists s' owners,
    recordAllocation b ord s = (Done tt, s') /\
    inUseIPs (checker s') !! IP_String (OrdinalToIP (CIDR b) ord)
      = Some owners /\
    reservedOwner b ∈ owners.
Proof.
  intros Hr Hp. apply resolveAttr_Some in Hr as (i & _ & _ & Hi & Hlt & Ha).
  unfold recordAllocation, GetAttrString, bind, getChecker, setChecker, when,
    lift, println, ret, andThen, deref. simpl. rewrite Hi, Hlt, Ha, Hp. simpl.
  rewrite decide_True by done.
  destruct (showAllIPs (checker s)); rewrite recordInUseIP_eq; simpl;
    eexists _, _; (split; [reflexivity|]); cbn; rewrite lookup_insert_eq;
    (split; [reflexivity|]); apply elem_of_app; right; by apply list_elem_of_singleton.
Qed.

Lemma loadBlocks_Done s s' :
  loadBlocks s = (Done tt, s') ->
  exists blocks s1 s2,
    (ListBlocks (store s)).1 = inl blocks /\
    forM_ blocks blockStep s1 = (Done tt, s2) /\
    usage_grows s2 s'.
Proof.
  unfold loadBlocks. intros E.
  apply bind_Done in E as ([] & sa & Ea & E).
  unfold println in Ea. simplify_eq/=.
  apply bind_Done in E as (blocks & sb & Eb & E).
  apply listCall_Done in Eb as [Eb _]. simpl in Eb.
  apply bind_Done in E as ([] & sc & _ & E).
  apply bind_Done in E as ([] & sd & Ef & E).
  exists blocks, sc, sd. split; [done|]. split; [exact Ef|].
  apply bind_Done in E as (c & se & Ec & E).
  apply bind_Done in E as ([] & sf & Ep1 & Ep2).
  unfold getChecker, println in *. by simplify_eq/=.
Qed.

(** After the blocks are loaded, every reserved allocation is in use. *)
Lemma loadBlocks_reserved s s' blocks b ord attrs :
  loadBlocks s = (Done tt, s') ->
  (ListBlocks (store s)).1 = inl blocks ->
  b ∈ blocks ->
  resolveAttr b ord = Some attrs ->
  AttrPrimary attrs = Some WindowsReservedHandle ->
  is_Some (inUseIPs (checker s') !! IP_String (OrdinalToIP (CIDR b) ord)).
Proof.
  intros E Hl Hb Hr Hp.
  apply loadBlocks_Done in E as (blocks' & s1 & s2 & Hl' & Ef & Hg).
  rewrite Hl in Hl'. injection Hl' as <-.
  apply Hg. clear Hg. revert s1 s2 Ef.
  apply (forM__elem usage_grows
           (fun s => is_Some (inUseIPs (checker s)
                                !! IP_String (OrdinalToIP (CIDR b) ord)))
           _ _ b); [by intros ?? (_ & _ & Hm); apply Hm | | done |].
  - intros b'. unfold blockStep.
    apply always_bind; [apply _ | by intros ? |].
    intros _. apply always_forM_; [apply _|]. intros [i [idx|]].
    + apply recordAllocation_usage.
    + apply always_ret; apply _.
  - intros s1 s2 E. unfold blockStep in E.
    apply bind_Done in E as ([] & s1' & _ & E). revert s1' s2 E.
    pose proof (resolveAttr_Some _ _ _ Hr) as (idx & Hord & Hai & _).
    apply (forM__elem usage_grows _ _ _ (Z.to_nat ord, Some idx));
      [by intros ?? (_ & _ & Hm); apply Hm | | |].
    + intros [i [idx'|]]; [apply recordAllocation_usage | apply always_ret; apply _].
    + apply elem_of_lookup_imap. eauto.
    + rewrite Z2Nat.id by done. intros sa sb E.
      destruct (recordAllocation_reserved b ord attrs sa Hr Hp)
        as (sb' & owners & E' & Ho & _).
      rewrite E in E'. injection E' as <-. eauto.
Qed.

(** *** The phases of a load that succeeds *)

Lemma always_run {A} (R : relation Run) (m : M A) s o s' :
  always R m -> m s = (o, s') -> R s s'.
Proof. intros Hm E. specialize (Hm s). by rewrite E in Hm. Qed.

Lemma load_Done s pools s1 :
  load s = (Done pools, s1) ->
  exists sa sb sc sd,
    store sa = store s /\ checker sa = checker s /\
    loadBlocks sa = (Done tt, sb) /\
    loadPools sb = (Done pools, sc) /\
    loadNodes sc = (Done tt, sd) /\
    loadWorkloadEndpoints sd = (Done tt, s1).
Proof.
  unfold load. intros E.
  apply bind_Done in E as ([] & s' & E1 & E). unfold println in E1. simplify_eq/=.
  apply bind_Done in E as ([] & s' & E1 & E). unfold println in E1. simplify_eq/=.
  apply bind_Done in E as ([] & sb & Eb & E).
  apply bind_Done in E as (pools' & sc & Ep & E).
  apply bind_Done in E as ([] & sd & En & E).
  apply bind_Done in E as ([] & se & Ew & E).
  unfold ret in E. simplify_eq/=.
  exists (emit [""] (emit ["Checking IPAM for inconsistencies..."] s)), sb, sc, sd.
  repeat split; done.
Qed.

Lemma poolLoop_Done pools acc s act s' :
  foldM poolStep pools acc s = (Done act, s') ->
  inl <$> act
  = (inl <$> acc) ++ ((fun p => ParseCIDR (pool_CIDR p)) <$> enabledPools pools).
Proof.
  revert acc s. induction pools as [|p pools IH]; intros acc s E; simpl in E.
  - unfold ret in E. simplify_eq. by rewrite app_nil_r.
  - apply bind_Done in E as (acc' & s1 & Ep & E). apply IH in E. rewrite E.
    unfold enabledPools. rewrite filter_cons. unfold poolStep in Ep.
    destruct (pool_Disabled p) eqn:Ed.
    + unfold ret in Ep. simplify_eq. by rewrite decide_False.
    + rewrite decide_True by done.
      apply bind_Done in Ep as ([] & s2 & _ & Ep).
      destruct (ParseCIDR (pool_CIDR p)) as [cidr|err] eqn:Ec; [|done].
      unfold ret in Ep. simplify_eq. rewrite fmap_app, <- app_assoc. simpl.
      by rewrite Ec.
Qed.

Lemma loadPools_Done s act s' :
  loadPools s = (Done act, s') ->
  exists pools,
    (ListIPPools (store s)).1 = inl pools /\
    inl <$> act = (fun p => ParseCIDR (pool_CIDR p)) <$> enabledPools pools.
Proof.
  unfold loadPools. intros E.
  apply bind_Done in E as ([] & sa & Ea & E). unfold println in Ea. simplify_eq/=.
  apply bind_Done in E as (pools & sb & Eb & E).
  apply listCall_Done in Eb as [Eb _]. simpl in Eb.
  apply bind_Done in E as (act' & sc & Ef & E).
  apply poolLoop_Done in Ef.
  apply bind_Done in E as ([] & sd & _ & E).
  apply bind_Done in E as ([] & se & _ & E).
  unfold ret in E. simplify_eq. eauto.
Qed.

(** An active pool is the parsed CIDR of a pool that is not disabled. *)
Lemma active_pool_enabled pools act cidr :
  inl <$> act = (fun p => ParseCIDR (pool_CIDR p)) <$> enabledPools pools ->
  cidr ∈ act ->
  exists p, p ∈ pools /\ pool_Disabled p = false /\
            ParseCIDR (pool_CIDR p) = inl cidr.
Proof.
  intros Ha Hin.
  assert (Hc : (inl cidr : IPNet + string) ∈ (inl <$> act : list (IPNet + string)))
    by by apply list_elem_of_fmap_2.
  rewrite Ha in Hc. apply list_elem_of_fmap in Hc as (p & Hp & Hin').
  apply list_elem_of_filter in Hin' as [Hd Hin']. eauto.
Qed.

(** *** Loops that run to their end *)

Lemma forM__total {A} (l : list A) (f : A -> M unit) :
  (forall x, x ∈ l -> forall s, exists s', f x s = (Done tt, s')) ->
  forall s, exists s', forM_ l f s = (Done tt, s').
Proof.
  induction l as [|x l IH]; intros Hf s; simpl.
  - by eexists.
  - destruct (Hf x (list_elem_of_here _ _) s) as [s1 E1].
    rewrite (bind_step _ _ _ _ _ E1). apply IH.
    intros y Hy. apply Hf. by apply list_elem_of_further.
Qed.

Lemma foldM_total {A B} (f : B -> A -> M B) (l : list A) :
  (forall x, x ∈ l -> forall b s, exists b' s', f b x s = (Done b', s')) ->
  forall b s, exists b' s', foldM f l b s = (Done b', s').
Proof.
  induction l as [|x l IH]; intros Hf b s; simpl.
  - by eexists _, _.
  - destruct (Hf x (list_elem_of_here _ _) b s) as (b1 & s1 & E1).
    rewrite (bind_step _ _ _ _ _ E1). apply IH.
    intros y Hy. apply Hf. by apply list_elem_of_further.
Qed.

(** *** The blocks *)

Lemma index_nat {A} (l : list A) (i : nat) x :
  l !! i = Some x -> index l (Z.of_nat i) = Done x.
Proof.
  intros Hl. unfold index.
  destruct (Z.of_nat i <? 0)%Z eqn:E; [apply Z.ltb_lt in E; lia|].
  by rewrite Nat2Z.id, Hl.
Qed.

Lemma attr_ok_nonneg b i attrIdx :
  Allocations b !! i = Some (Some attrIdx) -> (0 <= attrIdx)%Z ->
  attr_ok {| Block := b; Ordinal := Z.of_nat i |}.
Proof.
  intros Ha Hi. unfold attr_ok, GetAttrString. simpl.
  rewrite (index_nat _ _ _ Ha). simpl.
  destruct (attrIdx <? Z.of_nat (length (Attributes b)))%Z eqn:El; [|by eexists].
  apply Z.ltb_lt in El.
  destruct (lookup_lt_is_Some_2 (Attributes b) (Z.to_nat attrIdx)) as [a Hat];
    [lia|].
  unfold index. destruct (attrIdx <? 0)%Z eqn:E0; [apply Z.ltb_lt in E0; lia|].
  rewrite Hat. simpl. by eexists.
Qed.

Lemma recordAllocation_total b ord s :
  attr_ok {| Block := b; Ordinal := ord |} ->
  exists s', recordAllocation b ord s = (Done tt, s').
Proof.
  intros [str Hstr]. pose proof Hstr as Hfold.
  unfold GetAttrString in Hstr. simpl in Hstr.
  recordAllocation_cases;
    repeat match goal with
           | Hx : index _ _ = _ |- _ => rewrite Hx in Hstr; simpl in Hstr
           | Hx : deref _ = _ |- _ => rewrite Hx in Hstr; simpl in Hstr
           | Hx : (_ <? _)%Z = _ |- _ => rewrite Hx in Hstr; simpl in Hstr
           end; try discriminate; try congruence; by eexists.
Qed.

Lemma blockStep_total b s :
  (forall i attrIdx, Allocations b !! i = Some (Some attrIdx) -> (0 <= attrIdx)%Z) ->
  exists s', blockStep b s = (Done tt, s').
Proof.
  intros Hb. unfold blockStep. step. apply forM__total.
  intros [i [idx|]] Hin s1; [|by eexists].
  apply elem_of_lookup_imap in Hin as (i' & y & [= <- <-] & Hl).
  apply recordAllocation_total. eapply attr_ok_nonneg; eauto.
Qed.

Lemma loadBlocks_total blocks s :
  (ListBlocks (store s)).1 = inl blocks ->
  blocks_ok blocks ->
  exists s', loadBlocks s = (Done tt, s').
Proof.
  intros Hl Hok. unfold loadBlocks. step.
  step_with ltac:(by apply listCall_eq). step.
  edestruct (forM__total blocks blockStep) as [s1 E1].
  { intros b Hb s1. apply blockStep_total. intros i idx. by apply Hok. }
  rewrite (bind_step _ _ _ _ _ E1). step. step. by eexists.
Qed.

(** *** The pools *)

Lemma loadPools_total pools s :
  (ListIPPools (store s)).1 = inl pools ->
  pools_ok pools ->
  exists act s', loadPools s = (Done act, s').
Proof.
  intros Hl Hok. unfold loadPools. step.
  step_with ltac:(by apply listCall_eq).
  edestruct (foldM_total poolStep pools) as (act & s1 & E1).
  { intros p Hp acc s1. unfold poolStep.
    destruct (pool_Disabled p) eqn:Ed; [by eexists _, _|].
    destruct (Hok p Hp Ed) as [cidr Hc]. step. rewrite Hc. by eexists _, _. }
  rewrite (bind_step _ _ _ _ _ E1). step. step. by eexists _, _.
Qed.

(** A pool that is not disabled and whose CIDR does not parse stops the
    load of the pools. *)
Lemma poolLoop_fail pools acc s :
  (exists p, p ∈ pools /\ pool_Disabled p = false /\
             exists err, ParseCIDR (pool_CIDR p) = inr err) ->
  exists err s', foldM poolStep pools acc s
                 = (Fail ("failed to parse IP pool CIDR: " +:+ err), s').
Proof.
  revert acc s. induction pools as [|p pools IH]; intros acc s (q & Hq & Hd & err & He).
  { by apply elem_of_nil in Hq. }
  simpl. unfold poolStep at 1.
  destruct (pool_Disabled p) eqn:Ed.
  - step. apply IH. exists q. apply elem_of_cons in Hq as [-> | Hq]; [congruence|eauto].
  - destruct (ParseCIDR (pool_CIDR p)) as [cidr|err'] eqn:Ec.
    + erewrite bind_step; [| by step].
      apply IH. exists q. apply elem_of_cons in Hq as [-> | Hq]; [congruence|eauto].
    + eexists _, _. apply bind_Fail. by step.
Qed.

(** *** The nodes and the workload endpoints *)

Lemma normaliseIP_cases raw :
  (exists ip, normaliseIP raw = Done ip) \/ (exists err, normaliseIP raw = Fail err).
Proof. unfold normaliseIP. destruct (ParseCIDROrIP raw); eauto. Qed.

Lemma normaliseAll_app n l1 l2 ips :
  normaliseAll n (l1 ++ l2) ips
  = andThen (normaliseAll n l1 ips) (normaliseAll n l2).
Proof.
  revert ips. induction l1 as [|[f r] l1 IH]; intros ips; simpl; [done|].
  destruct (normaliseIP r); simpl; auto.
Qed.

Lemma nodeAddr_normaliseAll field n addr ips :
  nodeAddr field n addr ips = normaliseAll n (setAddr field addr) ips.
Proof.
  unfold nodeAddr, setAddr. destruct addr as [a|]; [|done].
  destruct (decide (a = "")); [done|]. simpl.
  unfold nodeParseError. by destruct (normaliseIP a).
Qed.

Lemma getNodeIPs_normaliseAll n :
  getNodeIPs n = normaliseAll n (nodeAddrs n) [].
Proof.
  unfold getNodeIPs, nodeAddrs.
  rewrite normaliseAll_app, nodeAddr_normaliseAll.
  destruct (normaliseAll n _ []) as [ips| |]; simpl; [|done..].
  rewrite normaliseAll_app, nodeAddr_normaliseAll.
  destruct (normaliseAll n _ ips) as [ips'| |]; simpl; [|done..].
  apply nodeAddr_normaliseAll.
Qed.

Lemma normaliseAll_cases n addrs ips :
  (exists ips', normaliseAll n addrs ips = Done ips' /\
                forall field raw err, (field, raw) ∈ addrs ->
                                      normaliseIP raw <> Fail err) \/
  (exists field raw err,
     (field, raw) ∈ addrs /\ normaliseIP raw = Fail err /\
     normaliseAll n addrs ips = Fail (nodeParseError n field raw err)).
Proof.
  revert ips. induction addrs as [|[f r] addrs IH]; intros ips; simpl.
  - left. eexists. split; [done|]. intros ??? Hin. by apply elem_of_nil in Hin.
  - destruct (normaliseIP_cases r) as [[ip E]|[err E]]; rewrite E.
    + destruct (IH (ips ++ [ip])) as [(ips' & E' & Hall)|(f' & r' & err & Hin & Ef & E')].
      * left. exists ips'. split; [done|]. intros f' r' err Hin.
        apply elem_of_cons in Hin as [[= -> ->]|Hin]; [congruence|eauto].
      * right. exists f', r', err. split; [by apply list_elem_of_further|done].
    + right. exists f, r, err. split; [apply list_elem_of_here|done].
Qed.

Lemma getNodeIPs_cases n :
  (exists ips, getNodeIPs n = Done ips /\ ~ nodeFails n) \/
  (exists field raw err,
     (field, raw) ∈ nodeAddrs n /\ normaliseIP raw = Fail err /\
     getNodeIPs n = Fail (nodeParseError n field raw err)).
Proof.
  rewrite getNodeIPs_normaliseAll.
  destruct (normaliseAll_cases n (nodeAddrs n) []) as [(ips & E & Hall)|Hf].
  - left. exists ips. split; [done|]. intros (f & r & err & Hin & Hf). by eapply Hall.
  - by right.
Qed.

Lemma getWEPIPs_cases w :
  (exists ips, getWEPIPs w = Done ips /\ ~ wepFails w) \/
  (exists raw err,
     raw ∈ IPNetworks w /\ normaliseIP raw = Fail err /\
     getWEPIPs w = Fail (wepParseError w raw err)).
Proof.
  unfold getWEPIPs, wepFails. generalize (@nil string) as ips.
  induction (IPNetworks w) as [|r l IH]; intros ips; simpl.
  - left. eexists. split; [done|]. intros (? & ? & Hin & _). by apply elem_of_nil in Hin.
  - destruct (normaliseIP_cases r) as [[ip E]|[err E]]; rewrite E.
    + destruct (IH (ips ++ [ip])) as [(ips' & E' & Hall)|(r' & err & Hin & Ef & E')].
      * left. exists ips'. split; [done|]. intros (r' & err & Hin & Hf).
        apply elem_of_cons in Hin as [->|Hin]; [congruence|]. apply Hall. eauto.
      * right. exists r', err. split; [by apply list_elem_of_further|done].
    + right. exists r, err. split; [apply list_elem_of_here|done].
Qed.

Lemma useLoop_total (ref : referrer) (name : string) ips (count : nat) s :
  exists count' s',
    foldM (fun numNodeIPs ip =>
             bind (recordInUseIP ip ref name) (fun _ => ret (S numNodeIPs)))
      ips count s = (Done count', s').
Proof.
  apply foldM_total. intros ip _ b s1. rewrite (bind_step _ _ _ _ _ (recordInUseIP_eq _ _ _ _)).
  by eexists _, _.
Qed.

Lemma nodeStep_total count n s :
  ~ nodeFails n -> exists count' s', nodeStep count n s = (Done count', s').
Proof.
  intros Hn. unfold nodeStep.
  destruct (getNodeIPs_cases n) as [(ips & E & _)|(f & r & err & Hin & Hf & _)].
  - unfold bind at 1, lift. rewrite E. apply useLoop_total.
  - destruct Hn. by exists f, r, err.
Qed.

Lemma wepStep_total count w s :
  ~ wepFails w -> exists count' s', wepStep count w s = (Done count', s').
Proof.
  intros Hn. unfold wepStep.
  destruct (getWEPIPs_cases w) as [(ips & E & _)|(r & err & Hin & Hf & _)].
  - unfold bind at 1, lift. rewrite E. apply useLoop_total.
  - destruct Hn. by exists r, err.
Qed.

(** The first node with an address that does not normalise stops the loop
    with the error of that address. *)
Lemma nodeLoop_fail nodes count s :
  Exists nodeFails nodes ->
  exists n field raw err s',
    n ∈ nodes /\ (field, raw) ∈ nodeAddrs n /\ normaliseIP raw = Fail err /\
    foldM nodeStep nodes count s = (Fail (nodeParseError n field raw err), s').
Proof.
  revert count s. induction nodes as [|n nodes IH]; intros count s Hex.
  { by apply Exists_nil in Hex. }
  simpl.
  destruct (getNodeIPs_cases n) as [(ips & E & Hn)|(f & r & err & Hin & Hf & E)].
  - destruct (nodeStep_total count n s Hn) as (count' & s1 & E1).
    rewrite (bind_step _ _ _ _ _ E1).
    apply Exists_cons in Hex as [Hex|Hex]; [done|].
    destruct (IH count' s1 Hex) as (n' & f & r & err & s' & Hin & ?).
    exists n', f, r, err, s'. split; [by apply list_elem_of_further|done].
  - exists n, f, r, err, s. split; [apply list_elem_of_here|].
    split; [done|]. split; [done|]. apply bind_Fail. unfold nodeStep.
    apply bind_Fail. unfold lift. by rewrite E.
Qed.

Lemma wepLoop_fail weps count s :
  Exists wepFails weps ->
  exists w raw err s',
    w ∈ weps /\ raw ∈ IPNetworks w /\ normaliseIP raw = Fail err /\
    foldM wepStep weps count s = (Fail (wepParseError w raw err), s').
Proof.
  revert count s. induction weps as [|w weps IH]; intros count s Hex.
  { by apply Exists_nil in Hex. }
  simpl.
  destruct (getWEPIPs_cases w) as [(ips & E & Hn)|(r & err & Hin & Hf & E)].
  - destruct (wepStep_total count w s Hn) as (count' & s1 & E1).
    rewrite (bind_step _ _ _ _ _ E1).
    apply Exists_cons in Hex as [Hex|Hex]; [done|].
    destruct (IH count' s1 Hex) as (w' & r & err & s' & Hin & ?).
    exists w', r, err, s'. split; [by apply list_elem_of_further|done].
  - exists w, r, err, s. split; [apply list_elem_of_here|].
    split; [done|]. split; [done|]. apply bind_Fail. unfold wepStep.
    apply bind_Fail. unfold lift. by rewrite E.
Qed.

Lemma loadNodes_total nodes s :
  (ListNodes (store s)).1 = inl nodes ->
  Forall (fun n => ~ nodeFails n) nodes ->
  exists s', loadNodes s = (Done tt, s').
Proof.
  intros Hl Hok. unfold loadNodes. step.
  step_with ltac:(by apply listCall_eq).
  edestruct (foldM_total nodeStep nodes) as (count & s1 & E1).
  { intros n Hn b s1. apply nodeStep_total. by eapply Forall_forall in Hok. }
  rewrite (bind_step _ _ _ _ _ E1). step. by eexists.
Qed.

Lemma loadWorkloadEndpoints_total weps s :
  (ListWorkloadEndpoints (store s)).1 = inl weps ->
  Forall (fun w => ~ wepFails w) weps ->
  exists s', loadWorkloadEndpoints s = (Done tt, s').
Proof.
  intros Hl Hok. unfold loadWorkloadEndpoints. step.
  step_with ltac:(by apply listCall_eq).
  edestruct (foldM_total wepStep weps) as (count & s1 & E1).
  { intros w Hw b s1. apply wepStep_total. by eapply Forall_forall in Hok. }
  rewrite (bind_step _ _ _ _ _ E1). step. step. step. by eexists.
Qed.

Lemma loadNodes_fail nodes s :
  (ListNodes (store s)).1 = inl nodes ->
  Exists nodeFails nodes ->
  exists n field raw err s',
    n ∈ nodes /\ (field, raw) ∈ nodeAddrs n /\ normaliseIP raw = Fail err /\
    loadNodes s = (Fail (nodeParseError n field raw err), s').
Proof.
  intros Hl Hex. unfold loadNodes. step.
  step_with ltac:(by apply listCall_eq).
  edestruct (nodeLoop_fail nodes 0) as (n & f & r & err & s' & Hin & Ha & Hf & E);
    [done|].
  exists n, f, r, err, s'. repeat (split; [done|]). by apply bind_Fail.
Qed.

Lemma loadWorkloadEndpoints_fail weps s :
  (ListWorkloadEndpoints (store s)).1 = inl weps ->
  Exists wepFails weps ->
  exists w raw err s',
    w ∈ weps /\ raw ∈ IPNetworks w /\ normaliseIP raw = Fail err /\
    loadWorkloadEndpoints s = (Fail (wepParseError w raw err), s').
Proof.
  intros Hl Hex. unfold loadWorkloadEndpoints. step.
  step_with ltac:(by apply listCall_eq).
  edestruct (wepLoop_fail weps 0) as (w & r & err & s' & Hin & Ha & Hf & E);
    [done|].
  exists w, r, err, s'. repeat (split; [done|]). by apply bind_Fail.
Qed.

(** *** The whole load *)

Lemma loadWorkloadEndpoints_store : always same_store loadWorkloadEndpoints.
Proof.
  unfold loadWorkloadEndpoints, wepStep. always_go;
    first [ apply always_println; by intros ?
          | apply always_listCall; intros ?; apply ListWorkloadEndpoints_read
          | intros ?; by rewrite recordInUseIP_eq ].
Qed.

Lemma nodes_fail_or_not nodes :
  Exists nodeFails nodes \/ Forall (fun n => ~ nodeFails n) nodes.
Proof.
  induction nodes as [|n nodes [IH|IH]].
  - right. constructor.
  - left. by apply Exists_cons_tl.
  - destruct (getNodeIPs_cases n) as [(ips & _ & Hn)|(f & r & err & Hin & Hf & _)].
    + right. by constructor.
    + left. apply Exists_cons_hd. by exists f, r, err.
Qed.

(** The load up to the nodes, when the blocks and the pools are sound. *)
Lemma load_to_nodes s blocks pools :
  (ListBlocks (store s)).1 = inl blocks -> blocks_ok blocks ->
  (ListIPPools (store s)).1 = inl pools -> pools_ok pools ->
  exists act sc,
    store sc = store s /\
    load s = bind loadNodes (fun _ =>
             bind loadWorkloadEndpoints (fun _ => ret act)) sc.
Proof.
  intros Hb Hbok Hp Hpok.
  set (sa := emit [""] (emit ["Checking IPAM for inconsistencies..."] s)).
  destruct (loadBlocks_total blocks sa Hb Hbok) as [sb Eb].
  pose proof (always_run _ _ _ _ _ loadBlocks_store Eb) as Hsb.
  unfold same_store in Hsb. simpl in Hsb.
  destruct (loadPools_total pools sb) as (act & sc & Ep); [by rewrite Hsb|done|].
  pose proof (always_run _ _ _ _ _ loadPools_store Ep) as Hsc.
  unfold same_store in Hsc.
  exists act, sc. split; [congruence|].
  unfold load. step. step. step_with ltac:(exact Eb). step_with ltac:(exact Ep).
  done.
Qed.

Lemma load_total s blocks pools nodes weps :
  (ListBlocks (store s)).1 = inl blocks -> blocks_ok blocks ->
  (ListIPPools (store s)).1 = inl pools -> pools_ok pools ->
  (ListNodes (store s)).1 = inl nodes ->
  Forall (fun n => ~ nodeFails n) nodes ->
  (ListWorkloadEndpoints (store s)).1 = inl weps ->
  Forall (fun w => ~ wepFails w) weps ->
  exists act s1, load s = (Done act, s1).
Proof.
  intros Hb Hbok Hp Hpok Hn Hnok Hw Hwok.
  destruct (load_to_nodes s blocks pools) as (act & sc & Hsc & ->); try done.
  destruct (loadNodes_total nodes sc) as [sd En]; [by rewrite Hsc|done|].
  pose proof (always_run _ _ _ _ _ loadNodes_store En) as Hsd.
  unfold same_store in Hsd.
  destruct (loadWorkloadEndpoints_total weps sd) as [se Ew];
    [by rewrite Hsd, Hsc|done|].
  step_with ltac:(exact En). step_with ltac:(exact Ew). by eexists _, _.
Qed.

Lemma load_not_Done s :
  parseFailure (store s) -> forall act s1, load s <> (Done act, s1).
Proof.
  intros Hpf act s1 E.
  apply load_Done in E as (sa & sb & sc & sd & Hsa & _ & Eb & Ep & En & Ew).
  pose proof (always_run _ _ _ _ _ loadBlocks_store Eb) as Hsb.
  pose proof (always_run _ _ _ _ _ loadPools_store Ep) as Hsc.
  pose proof (always_run _ _ _ _ _ loadNodes_store En) as Hsd.
  unfold same_store in *.
  destruct Hpf as [(nodes & Hl & Hex)|(weps & Hl & Hex)].
  - destruct (loadNodes_fail nodes sc) as (? & ? & ? & ? & ? & _ & _ & _ & E);
      [congruence|done|]. congruence.
  - destruct (loadWorkloadEndpoints_fail weps sd) as (? & ? & ? & ? & _ & _ & _ & E);
      [congruence|done|]. congruence.
Qed.

Lemma checkIPAM_of_load_Fail s msg s1 :
  load s = (Fail msg, s1) -> checkIPAM s = (Fail msg, s1).
Proof.
  intros E. unfold checkIPAM, checkIPAM_locals. by do 2 apply bind_Fail.
Qed.

Lemma load_fails s blocks pools nodes :
  (ListBlocks (store s)).1 = inl blocks -> blocks_ok blocks ->
  (ListIPPools (store s)).1 = inl pools -> pools_ok pools ->
  (ListNodes (store s)).1 = inl nodes ->
  parseFailure (store s) ->
  exists msg s1, load s = (Fail msg, s1) /\ namesParseFailure (store s) msg.
Proof.
  intros Hb Hbok Hp Hpok Hn Hpf.
  destruct (load_to_nodes s blocks pools) as (act & sc & Hsc & ->); try done.
  destruct (nodes_fail_or_not nodes) as [Hex|Hall].
  - destruct (loadNodes_fail nodes sc) as (n & f & r & err & s' & Hin & Ha & Hf & E);
      [by rewrite Hsc|done|].
    exists (nodeParseError n f r err), s'. split; [by apply bind_Fail|].
    left. exists nodes, n, f, r, err. done.
  - destruct (loadNodes_total nodes sc) as [sd En]; [by rewrite Hsc|done|].
    pose proof (always_run _ _ _ _ _ loadNodes_store En) as Hsd.
    unfold same_store in Hsd. step_with ltac:(exact En).
    destruct Hpf as [(nodes' & Hl & Hex)|(weps & Hl & Hex)].
    { rewrite Hn in Hl. injection Hl as <-.
      apply Exists_exists in Hex as (n & Hin & Hf).
      by eapply Forall_forall in Hall. }
    destruct (loadWorkloadEndpoints_fail weps sd)
      as (w & r & err & s' & Hin & Ha & Hf & E); [by rewrite Hsd, Hsc|done|].
    exists (wepParseError w r err), s'. split; [by apply bind_Fail|].
    right. exists weps, w, r, err. done.
Qed.

Lemma loaded_allocs_ok a p d pools s1 :
  load (start (NewIPAMChecker a p) d) = (Done pools, s1) -> allocs_ok s1.
Proof. intros E. eapply load_allocs_ok; [apply start_allocs_ok | exact E]. Qed.

(** *** Lines that are written, lines that are not *)

Lemma bind_lines_ext {A} (f g : A -> list string) (l : list A) :
  (forall x, f x = g x) -> l ≫= f = l ≫= g.
Proof.
  intros Hfg. induction l as [|x l IH]; [done|].
  by rewrite !bind_cons, Hfg, IH.
Qed.

Lemma bind_nil_all {A} (f : A -> list string) (l : list A) :
  (forall x, f x = []) -> l ≫= f = [].
Proof.
  intros Hf. induction l as [|x l IH]; [done|]. by rewrite bind_cons, Hf, IH.
Qed.

Lemma leakedLines_quiet c e :
  showProblemIPs c = false -> leakedLines c e = [].
Proof. intros Hq. unfold leakedLines. rewrite Hq. by destruct (inUseIPs c !! e.1). Qed.

Lemma inUseLines_quiet c pools e :
  showProblemIPs c = false -> inUseLines c pools e = [].
Proof.
  intros Hq. unfold inUseLines, multiOwnerLines. rewrite Hq. simpl.
  by destruct (allocations c !! e.1).
Qed.

(** An attribute index at or past the end of the table: the attributes are
    shown as missing and the allocation is recorded. *)
Lemma GetAttrString_missing b i attrIdx :
  Allocations b !! i = Some (Some attrIdx) ->
  (Z.of_nat (length (Attributes b)) <= attrIdx)%Z ->
  GetAttrString {| Block := b; Ordinal := Z.of_nat i |} = Done "<missing>" /\
  forall s, exists s', recordAllocation b (Z.of_nat i) s = (Done tt, s').
Proof.
  intros Ha Hge.
  assert (Hs : GetAttrString {| Block := b; Ordinal := Z.of_nat i |}
               = Done "<missing>").
  { unfold GetAttrString. simpl. rewrite (index_nat _ _ _ Ha). simpl.
    by rewrite (proj2 (Z.ltb_ge _ _) Hge). }
  split; [done|]. intros s. apply recordAllocation_total. by eexists.
Qed.

Lemma recordAllocation_quiet b ord s :
  showAllIPs (checker s) = false ->
  stdout (recordAllocation b ord s).2 = stdout s.
Proof.
  intros Hq. recordAllocation_cases; simpl; try congruence; try done.
  all: rewrite ?Hq; by rewrite ?app_nil_r.
Qed.

Lemma recordAllocation_shown b ord s attrs :
  showAllIPs (checker s) = true ->
  GetAttrString {| Block := b; Ordinal := ord |} = Done attrs ->
  ("  " +:+ IP_String (OrdinalToIP (CIDR b) ord) +:+ " allocated; attrs "
   +:+ attrs) ∈ stdout (recordAllocation b ord s).2.
Proof.
  intros Hs Ha. recordAllocation_cases; simpl; try congruence.
  all: rewrite ?Hs; simpl.
  all: rewrite ?elem_of_app, ?list_elem_of_singleton; auto.
Qed.

Lemma classifyLines_quiet c pools :
  showProblemIPs c = false -> classifyLines c pools = quietLines c pools.
Proof.
  intros Hq. unfold classifyLines, quietLines.
  rewrite (bind_nil_all (leakedLines c)) by (intros; by apply leakedLines_quiet).
  rewrite (bind_nil_all (inUseLines c pools))
    by (intros; by apply inUseLines_quiet).
  done.
Qed.

Lemma leakedLine_written c pools ip allocs alloc :
  showProblemIPs c = true ->
  allocations c !! ip = Some allocs -> inUseIPs c !! ip = None ->
  alloc ∈ allocs ->
  leakedLine ip alloc ∈ classifyLines c pools.
Proof.
  intros Hs Ha Hu Hin. unfold classifyLines.
  apply elem_of_app. right. apply elem_of_app. left.
  apply list_elem_of_bind. exists (ip, allocs).
  split; [|by apply elem_of_map_range].
  unfold leakedLines. simpl. rewrite Hu, Hs. by apply list_elem_of_fmap_2.
Qed.

Lemma inUseLine_written c pools ip owners line :
  inUseIPs c !! ip = Some owners ->
  line ∈ inUseLines c pools (ip, owners) ->
  line ∈ classifyLines c pools.
Proof.
  intros Hu Hin. unfold classifyLines.
  do 3 (apply elem_of_app; right). apply elem_of_app. left.
  apply list_elem_of_bind. exists (ip, owners).
  split; [done|by apply elem_of_map_range].
Qed.

Lemma reportOf_classified c pools : classified c pools (reportOf c pools).
Proof.
  intros ip. simpl. split; [|split].
  - apply elem_of_leakedOf.
  - by rewrite elem_of_foreignOf, inActivePool_false.
  - by rewrite elem_of_missingOf, inActivePool_true.
Qed.

End CheckerFacts.

(** ** Two runs under two orders of [range] *)

Section TwoRuns.
Context {lib : NetLib} {client : Client} (R1 R2 : MapRange).

Lemma map_range_order {V} (m : gmap string V) :
  map_range (MapRange := R1) m ≡ₚ map_range (MapRange := R2) m.
Proof. by rewrite !map_range_perm. Qed.

Lemma formatAttrs_order attribute :
  formatAttrs (range := R1) attribute = formatAttrs (range := R2) attribute.
Proof.
  unfold formatAttrs.
  by rewrite (sort_Strings_order _ _
                (fmap_Permutation fst _ _ (map_range_order (AttrSecondary attribute)))).
Qed.

Lemma GetAttrString_order a :
  GetAttrString (range := R1) a = GetAttrString (range := R2) a.
Proof.
  unfold GetAttrString, andThen.
  repeat case_match; try done. by rewrite formatAttrs_order.
Qed.

Lemma bind_ext {A B} (m m' : M A) (k k' : A -> M B) s :
  m s = m' s -> (forall a s1, k a s1 = k' a s1) -> bind m k s = bind m' k' s.
Proof. intros Hm Hk. unfold bind. rewrite Hm. destruct (m' s) as [[a|e|p] s1]; auto. Qed.

Lemma forM__ext {A} (f g : A -> M unit) l s :
  (forall x s1, f x s1 = g x s1) -> forM_ l f s = forM_ l g s.
Proof.
  intros Hfg. revert s. induction l as [|x l IH]; intros s; simpl; [done|].
  apply bind_ext; auto.
Qed.

Lemma recordAllocation_order b ord s :
  recordAllocation (range := R1) b ord s = recordAllocation (range := R2) b ord s.
Proof. unfold recordAllocation. by rewrite GetAttrString_order. Qed.

Lemma blockStep_order b s :
  blockStep (range := R1) b s = blockStep (range := R2) b s.
Proof.
  unfold blockStep. apply bind_ext; [done|]. intros _ s1.
  apply forM__ext. intros [i [idx|]] s2; [apply recordAllocation_order|done].
Qed.

Lemma loadBlocks_order s :
  loadBlocks (range := R1) s = loadBlocks (range := R2) s.
Proof.
  unfold loadBlocks. repeat (apply bind_ext; [done|]; intros ? ?).
  apply bind_ext; [|done]. apply forM__ext. apply blockStep_order.
Qed.

Lemma load_order s : load (range := R1) s = load (range := R2) s.
Proof.
  unfold load. repeat (apply bind_ext; [done|]; intros ? ?).
  apply bind_ext; [apply loadBlocks_order|done].
Qed.

Lemma attrText_order a : attrText (range := R1) a = attrText (range := R2) a.
Proof. unfold attrText. by rewrite GetAttrString_order. Qed.

Lemma leakedLines_order c e :
  leakedLines (range := R1) c e = leakedLines (range := R2) c e.
Proof.
  unfold leakedLines. repeat case_match; try done.
  apply list_fmap_ext. intros _ a _. unfold leakedLine. by rewrite attrText_order.
Qed.

Lemma attr_ok_order a : attr_ok (range := R1) a -> attr_ok (range := R2) a.
Proof. unfold attr_ok. by rewrite GetAttrString_order. Qed.

Lemma allocs_ok_order s : allocs_ok (range := R1) s -> allocs_ok (range := R2) s.
Proof.
  intros Hok ip allocs Hl. eapply Forall_impl; [by eapply Hok|].
  apply attr_ok_order.
Qed.

Lemma leakedOf_order c : leakedOf (range := R1) c ≡ₚ leakedOf (range := R2) c.
Proof. unfold leakedOf. by rewrite map_range_order. Qed.

Lemma foreignOf_order c pools :
  foreignOf (range := R1) c pools ≡ₚ foreignOf (range := R2) c pools.
Proof. unfold foreignOf. by rewrite map_range_order. Qed.

Lemma missingOf_order c pools :
  missingOf (range := R1) c pools ≡ₚ missingOf (range := R2) c pools.
Proof. unfold missingOf. by rewrite map_range_order. Qed.

Lemma numProblems_order c pools :
  numProblems (reportOf (range := R1) c pools)
  = numProblems (reportOf (range := R2) c pools).
Proof.
  simpl. by rewrite (leakedOf_order c), (foreignOf_order c pools),
    (missingOf_order c pools).
Qed.

Lemma classifyLines_order c pools :
  classifyLines (range := R1) c pools ≡ₚ classifyLines (range := R2) c pools.
Proof.
  unfold classifyLines.
  rewrite numProblems_order.
  rewrite (Permutation_length (leakedOf_order c)),
    (Permutation_length (foreignOf_order c pools)),
    (Permutation_length (missingOf_order c pools)).
  rewrite (bind_lines_ext _ _ _ (leakedLines_order c)).
  rewrite (map_range_order (allocations c)) at 1.
  rewrite (map_range_order (inUseIPs c)) at 1.
  done.
Qed.

Lemma classifyLines_quiet_order c pools :
  showProblemIPs c = false ->
  classifyLines (range := R1) c pools = classifyLines (range := R2) c pools.
Proof.
  intros Hq. unfold classifyLines.
  rewrite numProblems_order.
  rewrite (Permutation_length (leakedOf_order c)),
    (Permutation_length (foreignOf_order c pools)),
    (Permutation_length (missingOf_order c pools)).
  rewrite (bind_nil_all (leakedLines (range := R1) c))
    by (intros; by apply leakedLines_quiet).
  rewrite (bind_nil_all (leakedLines (range := R2) c))
    by (intros; by apply leakedLines_quiet).
  rewrite !(bind_nil_all (inUseLines c pools))
    by (intros; by apply inUseLines_quiet).
  done.
Qed.

Lemma formatAttrs_sorted (R : MapRange) attribute : sortedRendering R attribute.
Proof.
  exists (sort_Strings (map_range (MapRange := R) (AttrSecondary attribute)).*1).
  split; [apply sort_Strings_sorted|]. split; [|done].
  by rewrite sort_Strings_perm, map_range_perm.
Qed.

End TwoRuns.

(** * The claims *)

(** C1: after a successful load the classification runs to its end, and an
    address is leaked exactly when it is allocated and not in use, foreign
    exactly when it is in use, not allocated and in no active pool, and a
    missing allocation exactly when it is in use, not allocated and in some
    active pool. *)
Theorem C1_classification {lib : NetLib} {client : Client} {range : MapRange}
    (showAll showProblem : bool) (d : Datastore)
    (activeIPPools : list IPNet) (s1 : Run) :
  load (start (NewIPAMChecker showAll showProblem) d)
    = (Done activeIPPools, s1) ->
  exists report s2,
    classify activeIPPools s1 = (Done report, s2) /\
    classified (checker s1) activeIPPools report.
Proof.
  intros E. apply loaded_allocs_ok in E.
  eexists _, _. split; [by apply classify_eq|]. apply reportOf_classified.
Qed.

(** C1 on the small cluster. *)
Lemma C1_classification_witness :
  exists report s2,
    classify (lib := Fixture.lib) (client := Fixture.client)
      (range := Fixture.forward) Fixture.active Fixture.loaded
      = (Done report, s2) /\
    classified (checker Fixture.loaded) Fixture.active report.
Proof.
  apply (C1_classification (lib := Fixture.lib) (client := Fixture.client)
      (range := Fixture.forward) false true Fixture.cluster).
  reflexivity.
Defined.

(** C2: the total that is printed is the sum of the lengths of the three
    lists; no address occurs twice in the three lists taken together; an
    address that has several owners and an allocation is in none of them. *)
Theorem C2_problem_total {lib : NetLib} {client : Client} {range : MapRange}
    (showAll showProblem : bool) (d : Datastore)
    (activeIPPools : list IPNet) (s1 : Run) :
  load (start (NewIPAMChecker showAll showProblem) d)
    = (Done activeIPPools, s1) ->
  exists report s2,
    classify activeIPPools s1 = (Done report, s2) /\
    numProblems report
      = length (allocatedButNotInUseIPs report)
        + length (nonCalicoIPs report)
        + length (inUseButNotAllocatedIPs report) /\
    last (stdout s2)
      = Some ("Check complete; found " +:+ pretty (numProblems report)
              +:+ " problems.") /\
    NoDup (allocatedButNotInUseIPs report ++ nonCalicoIPs report
           ++ inUseButNotAllocatedIPs report) /\
    forall ip owners,
      inUseIPs (checker s1) !! ip = Some owners ->
      1 < length owners ->
      is_Some (allocations (checker s1) !! ip) ->
      ip ∉ allocatedButNotInUseIPs report ++ nonCalicoIPs report
           ++ inUseButNotAllocatedIPs report.
Proof.
  intros E. apply loaded_allocs_ok in E.
  eexists _, _. split; [by apply classify_eq|].
  set (c := checker s1). split; [simpl; lia|]. split; [|split].
  - unfold classifyLines, emit. cbn [stdout]. by rewrite !last_app.
  - apply NoDup_app. split; [apply NoDup_leakedOf|]. split.
    + intros ip Hl Hin. apply elem_of_leakedOf in Hl as [_ Hu].
      apply elem_of_app in Hin as [Hin|Hin].
      * apply elem_of_foreignOf in Hin as [[o Ho] _]. congruence.
      * apply elem_of_missingOf in Hin as [[o Ho] _]. congruence.
    + apply NoDup_app. split; [apply NoDup_foreignOf|].
      split; [|apply NoDup_missingOf].
      intros ip Hf Hm. apply elem_of_foreignOf in Hf as (_ & _ & Hf).
      apply elem_of_missingOf in Hm as (_ & _ & Hm). congruence.
  - intros ip owners Ho _ [allocs Ha] Hin.
    apply elem_of_app in Hin as [Hin|Hin].
    { apply elem_of_leakedOf in Hin as [_ Hu]. congruence. }
    apply elem_of_app in Hin as [Hin|Hin].
    + apply elem_of_foreignOf in Hin as (_ & Hn & _). congruence.
    + apply elem_of_missingOf in Hin as (_ & Hn & _). congruence.
Qed.

(** C2 on the small cluster. *)
Lemma C2_problem_total_witness :
  exists report s2,
    classify (lib := Fixture.lib) (client := Fixture.client)
      (range := Fixture.forward) Fixture.active Fixture.loaded
      = (Done report, s2) /\
    numProblems report
      = length (allocatedButNotInUseIPs report)
        + length (nonCalicoIPs report)
        + length (inUseButNotAllocatedIPs report) /\
    last (stdout s2)
      = Some ("Check complete; found " +:+ pretty (numProblems report)
              +:+ " problems.") /\
    NoDup (allocatedButNotInUseIPs report ++ nonCalicoIPs report
           ++ inUseButNotAllocatedIPs report) /\
    forall ip owners,
      inUseIPs (checker Fixture.loaded) !! ip = Some owners ->
      1 < length owners ->
      is_Some (allocations (checker Fixture.loaded) !! ip) ->
      ip ∉ allocatedButNotInUseIPs report ++ nonCalicoIPs report
           ++ inUseButNotAllocatedIPs report.
Proof.
  apply (C2_problem_total (lib := Fixture.lib) (client := Fixture.client)
      (range := Fixture.forward) false true Fixture.cluster).
  reflexivity.
Defined.

(** C3: recording an allocation whose attribute has the reserved handle as
    its primary tag returns and leaves the address in the in-use index under
    the owner "Reserved for Windows"; after a load that succeeds no such
    address is in the list of leaked addresses, whatever the nodes and the
    workload endpoints are. *)
Theorem C3_reserved_in_use {lib : NetLib} {client : Client} {range : MapRange}
    (showAll showProblem : bool) (d : Datastore)
    (blocks : list AllocationBlock) (b : AllocationBlock) (ord : Z)
    (attrs : AllocationAttribute) (activeIPPools : list IPNet) (s1 : Run) :
  load (start (NewIPAMChecker showAll showProblem) d)
    = (Done activeIPPools, s1) ->
  (ListBlocks d).1 = inl blocks ->
  b ∈ blocks ->
  resolveAttr b ord = Some attrs ->
  AttrPrimary attrs = Some WindowsReservedHandle ->
  (forall s, exists s' owners,
     recordAllocation b ord s = (Done tt, s') /\
     inUseIPs (checker s') !! IP_String (OrdinalToIP (CIDR b) ord)
       = Some owners /\
     reservedOwner b ∈ owners) /\
  exists report s2,
    classify activeIPPools s1 = (Done report, s2) /\
    IP_String (OrdinalToIP (CIDR b) ord) ∉ allocatedButNotInUseIPs report.
Proof.
  intros E Hl Hb Hr Hp. split.
  { intros s. by apply recordAllocation_reserved with attrs. }
  pose proof (loaded_allocs_ok _ _ _ _ _ E) as Hok.
  eexists _, _. split; [by apply classify_eq|]. simpl.
  rewrite elem_of_leakedOf. intros [_ Hnone].
  apply load_Done in E as (sa & sb & sc & sd & Hs & _ & Eb & Epl & En & Ew).
  assert (Hin : is_Some (inUseIPs (checker sb)
                           !! IP_String (OrdinalToIP (CIDR b) ord))).
  { eapply loadBlocks_reserved; eauto. by rewrite Hs. }
  apply (always_run _ _ _ _ _ loadPools_usage) in Epl as (_ & _ & Hg1).
  apply (always_run _ _ _ _ _ loadNodes_usage) in En as (_ & _ & Hg2).
  apply (always_run _ _ _ _ _ loadWorkloadEndpoints_usage) in Ew as (_ & _ & Hg3).
  apply Hg1, Hg2, Hg3 in Hin. rewrite Hnone in Hin. by destruct Hin.
Qed.

(** C3 on the small cluster: the allocation at ordinal 6 of its block is
    reserved. *)
Lemma C3_reserved_in_use_witness :
  (forall s, exists s' owners,
     recordAllocation (range := Fixture.forward) Fixture.block1 6 s
       = (Done tt, s') /\
     inUseIPs (checker s') !! "10.0.0.6" = Some owners /\
     reservedOwner Fixture.block1 ∈ owners) /\
  exists report s2,
    classify (lib := Fixture.lib) (client := Fixture.client)
      (range := Fixture.forward) Fixture.active Fixture.loaded
      = (Done report, s2) /\
    "10.0.0.6" ∉ allocatedButNotInUseIPs report.
Proof.
  apply (C3_reserved_in_use (lib := Fixture.lib) (client := Fixture.client)
           (range := Fixture.forward) false true Fixture.cluster
           [Fixture.block1] Fixture.block1 6
           {| AttrPrimary := Some "windows-reserved-ipam-handle";
              AttrSecondary := ∅ |}).
  - reflexivity.
  - reflexivity.
  - apply list_elem_of_singleton. reflexivity.
  - reflexivity.
  - reflexivity.
Defined.

(** C4: the active pools are the parsed CIDRs of the pools that are not
    disabled, in order; so an address in use, without allocation, that no
    pool that is not disabled contains is foreign and is not a missing
    allocation, whatever the disabled pools contain. *)
Theorem C4_disabled_pools_excluded {lib : NetLib} {client : Client} {range : MapRange}
    (showAll showProblem : bool)
    (d : Datastore) (pools : list IPPool) (activeIPPools : list IPNet)
    (s1 : Run) (ip : string) :
  load (start (NewIPAMChecker showAll showProblem) d)
    = (Done activeIPPools, s1) ->
  (ListIPPools d).1 = inl pools ->
  is_Some (inUseIPs (checker s1) !! ip) ->
  allocations (checker s1) !! ip = None ->
  (forall p cidr,
     p ∈ pools -> pool_Disabled p = false ->
     ParseCIDR (pool_CIDR p) = inl cidr ->
     Contains cidr (ParseIP ip) = false) ->
  inl <$> activeIPPools
    = (fun p => ParseCIDR (pool_CIDR p)) <$> enabledPools pools /\
  exists report s2,
    classify activeIPPools s1 = (Done report, s2) /\
    ip ∈ nonCalicoIPs report /\
    ip ∉ inUseButNotAllocatedIPs report.
Proof.
  intros E Hl Hu Ha Hout. pose proof (loaded_allocs_ok _ _ _ _ _ E) as Hok.
  apply load_Done in E as (sa & sb & sc & sd & Hs & _ & Eb & Epl & _ & _).
  apply (always_run _ _ _ _ _ loadBlocks_store) in Eb. unfold same_store in Eb.
  apply loadPools_Done in Epl as (pools' & Hl' & Hact).
  rewrite Eb, Hs in Hl'. simpl in Hl'. rewrite Hl in Hl'. injection Hl' as <-.
  split; [done|].
  assert (Hno : inActivePool activeIPPools ip = false).
  { apply inActivePool_false. intros cidr Hin.
    destruct (active_pool_enabled _ _ _ Hact Hin) as (p & Hp & Hd & Hc). eauto. }
  eexists _, _. split; [by apply classify_eq|]. simpl. split.
  - by apply elem_of_foreignOf.
  - rewrite elem_of_missingOf. intros (_ & _ & Hyes). congruence.
Qed.

(** C4 on the small cluster: 192.168.99.9 is in use, has no allocation and
    lies in the disabled pool 192.168.0.0/16 only. *)
Lemma C4_disabled_pools_excluded_witness :
  inl <$> Fixture.active
    = (fun p => ParseCIDR (pool_CIDR p))
        <$> enabledPools
              [ {| pool_CIDR := "10.0.0.0/24"; pool_Disabled := false |};
                {| pool_CIDR := "192.168.0.0/16"; pool_Disabled := true |} ] /\
  exists report s2,
    classify (lib := Fixture.lib) (client := Fixture.client)
      (range := Fixture.forward) Fixture.active Fixture.loaded
      = (Done report, s2) /\
    "192.168.99.9" ∈ nonCalicoIPs report /\
    "192.168.99.9" ∉ inUseButNotAllocatedIPs report.
Proof.
  apply (C4_disabled_pools_excluded (lib := Fixture.lib)
           (client := Fixture.client) (range := Fixture.forward)
           false true Fixture.cluster).
  - reflexivity.
  - reflexivity.
  - eexists. reflexivity.
  - reflexivity.
  - intros p cidr Hp Hd Hc.
    apply elem_of_cons in Hp as [-> | Hp].
    + injection Hc as <-. reflexivity.
    + apply list_elem_of_singleton in Hp as ->. discriminate Hd.
Defined.

(** C5: when a listed node or workload endpoint has an address that does
    not normalise, the check never returns nil and never writes a line of
    the classification or the summary; and when the blocks and the pools
    load and the nodes are listed, it returns the error of [getNodeIPs] or
    [getWEPIPs], which names the node or the workload endpoint and the raw
    address. *)
Theorem C5_parse_failure_aborts {lib : NetLib} {client : Client} {range : MapRange}
    (showAll showProblem : bool) (d : Datastore) :
  parseFailure d ->
  let run := checkIPAM (start (NewIPAMChecker showAll showProblem) d) in
  (forall s', run <> (Done tt, s')) /\
  Forall (fun l => classificationLine l = false) (stdout run.2) /\
  (forall blocks pools nodes,
     (ListBlocks d).1 = inl blocks -> blocks_ok blocks ->
     (ListIPPools d).1 = inl pools -> pools_ok pools ->
     (ListNodes d).1 = inl nodes ->
     exists msg s', run = (Fail msg, s') /\ namesParseFailure d msg).
Proof.
  intros Hpf. set (s0 := start (NewIPAMChecker showAll showProblem) d).
  assert (Hnot : forall act s1, load s0 <> (Done act, s1))
    by by apply load_not_Done.
  simpl. split; [|split].
  - intros s' E. unfold checkIPAM, checkIPAM_locals in E.
    apply bind_Done in E as (rep & s1 & E & _).
    apply bind_Done in E as (act & s2 & E & _). by eapply Hnot.
  - pose proof (load_prints s0) as (lines & Hout & Hlines).
    unfold checkIPAM, checkIPAM_locals.
    destruct (load s0) as [[act|msg|p] s1] eqn:E.
    + by destruct (Hnot act s1).
    + rewrite (bind_Fail _ _ _ _ _ (bind_Fail _ _ _ _ _ E)). simpl in *.
      by rewrite Hout.
    + rewrite (bind_Panic _ _ _ _ _ (bind_Panic _ _ _ _ _ E)). simpl in *.
      by rewrite Hout.
  - intros blocks pools nodes Hb Hbok Hp Hpok Hn.
    destruct (load_fails s0 blocks pools nodes) as (msg & s1 & E & Hnames);
      try done.
    exists msg, s1. split; [by apply checkIPAM_of_load_Fail|done].
Qed.

(** C5 on a cluster whose second node has a tunnel address that is not an
    address. *)
Lemma C5_parse_failure_aborts_witness :
  let run :=
    checkIPAM (lib := Fixture.lib) (client := Fixture.client)
      (range := Fixture.forward)
      (start (NewIPAMChecker false true) Fixture.badNodeCluster) in
  (forall s', run <> (Done tt, s')) /\
  Forall (fun l => classificationLine l = false) (stdout run.2) /\
  (forall blocks pools nodes,
     (ListBlocks Fixture.badNodeCluster).1 = inl blocks -> blocks_ok blocks ->
     (ListIPPools Fixture.badNodeCluster).1 = inl pools -> pools_ok pools ->
     (ListNodes Fixture.badNodeCluster).1 = inl nodes ->
     exists msg s', run = (Fail msg, s') /\
                    namesParseFailure Fixture.badNodeCluster msg).
Proof.
  apply (C5_parse_failure_aborts (lib := Fixture.lib)
           (client := Fixture.client) (range := Fixture.forward)
           false true Fixture.badNodeCluster).
  left. exists [Fixture.node1; Fixture.node2]. split; [reflexivity|].
  apply Exists_cons_tl, Exists_cons_hd.
  exists "IPv4VXLANTunnelAddr", "not-an-ip", "invalid IP address: not-an-ip".
  split; [apply list_elem_of_here | reflexivity].
Defined.

(** The error the check returns on that cluster. *)
Example badNodeCluster_error :
  (checkIPAM (lib := Fixture.lib) (client := Fixture.client)
     (range := Fixture.forward)
     (start (NewIPAMChecker false true) Fixture.badNodeCluster)).1
  = Fail "failed to parse IPv4VXLANTunnelAddr (not-an-ip) of node n2: invalid IP address: not-an-ip".
Proof. reflexivity. Qed.

(** C6, at a block whose allocation carries the attribute index -1: the
    guard [len(Attributes) > attrIdx] lets the index through, the attribute
    table is indexed with it, and both [GetAttrString] and
    [recordAllocation] panic; so does the whole check. *)
Theorem C6_negative_index_panics :
  GetAttrString (lib := Fixture.lib) (range := Fixture.forward)
    {| Block := Fixture.badBlock; Ordinal := 0 |}
    = Panic "index out of range" /\
  (forall s : Run (lib := Fixture.lib) (client := Fixture.client),
     (recordAllocation (range := Fixture.forward) Fixture.badBlock 0 s).1
     = Panic "index out of range") /\
  (checkIPAM (lib := Fixture.lib) (client := Fixture.client)
     (range := Fixture.forward)
     (start (NewIPAMChecker false false) Fixture.badIndexCluster)).1
  = Panic "index out of range".
Proof.
  split; [reflexivity|]. split; [|reflexivity].
  intros s. unfold recordAllocation, bind, getChecker, setChecker, when, lift,
    println, ret. simpl. by destruct (showAllIPs (checker s)).
Qed.

(** C7 as stated fails: two runs on the same datastore, with the problem
    lines on, write the leaked addresses in the order [range] walks the
    map, and the two transcripts differ. *)
Lemma C7_counterexample :
  stdout (checkIPAM (lib := Fixture.lib) (client := Fixture.client)
            (range := Fixture.forward)
            (start (NewIPAMChecker false true) Fixture.cluster)).2
  <> stdout (checkIPAM (lib := Fixture.lib) (client := Fixture.client)
               (range := Fixture.backward)
               (start (NewIPAMChecker false true) Fixture.cluster)).2.
Proof.
  change (Fixture.transcriptForward <> Fixture.transcriptBackward).
  intros E. apply (f_equal (fun l => l !! 20)) in E. discriminate E.
Qed.

(** C7, amended: the secondary keys are rendered in increasing order, so
    the attribute strings do not depend on the order of [range]; two runs on
    the same datastore load the same state, find the same addresses in each
    category (as sets, hence the same counts and the same total) and write
    the same lines, in the same order when the problem lines are off and up
    to the order of the lines otherwise. *)
Theorem C7_runs_agree {lib : NetLib} {client : Client} (R1 R2 : MapRange)
    (showAll showProblem : bool) (d : Datastore)
    (activeIPPools : list IPNet) (s1 : Run) :
  load (range := R1) (start (NewIPAMChecker showAll showProblem) d)
    = (Done activeIPPools, s1) ->
  (forall attribute,
     sortedRendering R1 attribute /\
     formatAttrs (range := R1) attribute = formatAttrs (range := R2) attribute) /\
  (forall a, GetAttrString (range := R1) a = GetAttrString (range := R2) a) /\
  load (range := R2) (start (NewIPAMChecker showAll showProblem) d)
    = (Done activeIPPools, s1) /\
  exists r1 t1 r2 t2,
    classify (range := R1) activeIPPools s1 = (Done r1, t1) /\
    classify (range := R2) activeIPPools s1 = (Done r2, t2) /\
    allocatedButNotInUseIPs r1 ≡ₚ allocatedButNotInUseIPs r2 /\
    nonCalicoIPs r1 ≡ₚ nonCalicoIPs r2 /\
    inUseButNotAllocatedIPs r1 ≡ₚ inUseButNotAllocatedIPs r2 /\
    length (allocatedButNotInUseIPs r1) = length (allocatedButNotInUseIPs r2) /\
    length (nonCalicoIPs r1) = length (nonCalicoIPs r2) /\
    length (inUseButNotAllocatedIPs r1) = length (inUseButNotAllocatedIPs r2) /\
    numProblems r1 = numProblems r2 /\
    stdout t1 ≡ₚ stdout t2 /\
    (showProblem = false -> stdout t1 = stdout t2).
Proof.
  intros E. split; [|split; [|split]].
  - intros attribute. split; [apply formatAttrs_sorted|apply formatAttrs_order].
  - apply GetAttrString_order.
  - by rewrite <- (load_order R1 R2).
  - pose proof (load_allocs_ok (range := R1) _ _ _ (start_allocs_ok _ _ _) E)
      as Hok1.
    pose proof (allocs_ok_order R1 R2 _ Hok1) as Hok2.
    pose proof (always_run _ _ _ _ _ (load_usage (range := R1)) E)
      as (_ & Hflag & _). simpl in Hflag.
    eexists _, _, _, _.
    split; [by apply classify_eq|]. split; [by apply classify_eq|].
    set (c := checker s1) in *. simpl.
    split; [apply leakedOf_order|]. split; [apply foreignOf_order|].
    split; [apply missingOf_order|].
    split; [apply Permutation_length, leakedOf_order|].
    split; [apply Permutation_length, foreignOf_order|].
    split; [apply Permutation_length, missingOf_order|].
    split; [apply (numProblems_order R1 R2 c)|].
    split; [by rewrite (classifyLines_order R1 R2)|].
    intros ->. by rewrite (classifyLines_quiet_order R1 R2).
Qed.

(** C7, amended, on the small cluster, for the two orders. *)
Lemma C7_runs_agree_witness :
  exists r1 t1 r2 t2,
    classify (lib := Fixture.lib) (client := Fixture.client)
      (range := Fixture.forward) Fixture.active Fixture.loaded = (Done r1, t1) /\
    classify (lib := Fixture.lib) (client := Fixture.client)
      (range := Fixture.backward) Fixture.active Fixture.loaded = (Done r2, t2) /\
    numProblems r1 = numProblems r2 /\
    stdout t1 ≡ₚ stdout t2.
Proof.
  destruct (C7_runs_agree (lib := Fixture.lib) (client := Fixture.client)
              Fixture.forward Fixture.backward false true Fixture.cluster
              Fixture.active Fixture.loaded)
    as (_ & _ & _ & r1 & t1 & r2 & t2 & E1 & E2 & _ & _ & _ & _ & _ & _ & Hn & Hp & _).
  - reflexivity.
  - exists r1, t1, r2, t2. repeat split; assumption.
Defined.

(** C8: whatever the check does (success, error or panic), the datastore it
    hands back is the datastore it was given. *)
Theorem C8_check_only_reads {lib : NetLib} {client : Client} {range : MapRange}
    (showAllIPsArg showProblemIPsArg : bool) (s : Run) :
  store (checkIPAM s).2 = store s /\
  store (Check showAllIPsArg showProblemIPsArg s).2 = store s.
Proof.
  assert (Hc : always same_store checkIPAM).
  { unfold checkIPAM. apply always_bind; [apply _ | |intros ?; apply always_ret; apply _].
    apply checkIPAM_locals_store. }
  split; [apply Hc|].
  unfold Check. apply (always_bind same_store); [| by intros ?].
  by apply always_setChecker.
Qed.

(** C9 as stated fails: with [--show-all-ips] set and [--show-problem-ips]
    not set, the line of a leaked address is written. *)
Lemma C9_counterexample :
  "  10.0.0.7 leaked; attrs <missing>"
    ∈ stdout (Check (lib := Fixture.lib) (client := Fixture.client)
                (range := Fixture.forward) true false
                (start (NewIPAMChecker false false) Fixture.cluster)).2.
Proof.
  apply list_elem_of_lookup_2 with 25. reflexivity.
Qed.

(** C9, amended: [Check] builds the checker with [showAllIPs] as given and
    [showProblemIPs] set when either flag is; the flags do not change during
    the load; the per-address lines of the load are written exactly when
    [showAllIPs] is set, the per-address lines of the two scans exactly when
    [showProblemIPs] is set, that is when either flag was given. *)
Theorem C9_verbosity_flags {lib : NetLib} {client : Client} {range : MapRange}
    (showAllIPsArg showProblemIPsArg : bool) :
  (forall s,
     Check showAllIPsArg showProblemIPsArg s
     = checkIPAM {| checker := NewIPAMChecker showAllIPsArg
                                 (showAllIPsArg || showProblemIPsArg);
                    stdout := stdout s; store := store s |}) /\
  (forall d pools s1,
     load (start (NewIPAMChecker showAllIPsArg
                    (showAllIPsArg || showProblemIPsArg)) d)
       = (Done pools, s1) ->
     showAllIPs (checker s1) = showAllIPsArg /\
     showProblemIPs (checker s1) = showAllIPsArg || showProblemIPsArg) /\
  (forall ip ref name s,
     stdout (recordInUseIP ip ref name s).2
     = stdout s ++ (if showAllIPs (checker s)
                    then ["  " +:+ ip +:+ " belongs to " +:+ name] else [])) /\
  (forall b ord s,
     showAllIPs (checker s) = false ->
     stdout (recordAllocation b ord s).2 = stdout s) /\
  (forall b ord s attrs,
     showAllIPs (checker s) = true ->
     GetAttrString {| Block := b; Ordinal := ord |} = Done attrs ->
     ("  " +:+ IP_String (OrdinalToIP (CIDR b) ord) +:+ " allocated; attrs "
      +:+ attrs) ∈ stdout (recordAllocation b ord s).2) /\
  (forall pools s,
     allocs_ok s -> showProblemIPs (checker s) = false ->
     stdout (classify pools s).2 = stdout s ++ quietLines (checker s) pools) /\
  (forall pools s,
     allocs_ok s -> showProblemIPs (checker s) = true ->
     (forall ip allocs alloc,
        allocations (checker s) !! ip = Some allocs ->
        inUseIPs (checker s) !! ip = None ->
        alloc ∈ allocs ->
        leakedLine ip alloc ∈ stdout (classify pools s).2) /\
     (forall ip owners owner,
        inUseIPs (checker s) !! ip = Some owners ->
        allocations (checker s) !! ip = None ->
        owner ∈ owners ->
        (if inActivePool pools ip then missingLine ip owner
         else foreignLine ip owner) ∈ stdout (classify pools s).2) /\
     (forall ip owners,
        inUseIPs (checker s) !! ip = Some owners ->
        1 < length owners ->
        ("  " +:+ ip +:+ " has multiple owners.")
          ∈ stdout (classify pools s).2)).
Proof.
  split; [done|]. split.
  { intros d pools s1 E.
    by apply (always_run _ _ _ _ _ load_usage) in E as (Ha & Hp & _). }
  split; [intros; by rewrite recordInUseIP_eq|].
  split; [apply recordAllocation_quiet|].
  split; [apply recordAllocation_shown|].
  split.
  { intros pools s Hok Hq. rewrite (classify_eq pools s Hok). simpl.
    by rewrite classifyLines_quiet. }
  intros pools s Hok Hs. rewrite (classify_eq pools s Hok). simpl.
  split; [|split].
  - intros ip allocs alloc Ha Hu Hin. apply elem_of_app. right.
    by eapply leakedLine_written.
  - intros ip owners owner Hu Ha Hin. apply elem_of_app. right.
    apply (inUseLine_written _ _ ip owners); [done|].
    unfold inUseLines. simpl. rewrite Ha, Hs. apply elem_of_app. right.
    destruct (inActivePool pools ip); by apply list_elem_of_fmap_2.
  - intros ip owners Hu Hlen. apply elem_of_app. right.
    apply (inUseLine_written _ _ ip owners); [done|].
    unfold inUseLines, multiOwnerLines. simpl.
    rewrite Hs, bool_decide_true by done. simpl.
    apply list_elem_of_here.
Qed.

(** C10 as stated fails: the four list calls succeed and there is no
    address to normalise, yet the check returns an error, because the CIDR
    of a pool does not parse. *)
Lemma C10_counterexample :
  (ListBlocks Fixture.badPoolCluster).1 = inl [] /\
  (ListIPPools Fixture.badPoolCluster).1
    = inl [ {| pool_CIDR := "bogus"; pool_Disabled := false |} ] /\
  (ListNodes Fixture.badPoolCluster).1 = inl [] /\
  (ListWorkloadEndpoints Fixture.badPoolCluster).1 = inl [] /\
  (checkIPAM (lib := Fixture.lib) (client := Fixture.client)
     (range := Fixture.forward)
     (start (NewIPAMChecker false false) Fixture.badPoolCluster)).1
  = Fail "failed to parse IP pool CIDR: invalid CIDR address: bogus".
Proof. repeat split; reflexivity. Qed.

(** C10, amended: when the four list calls succeed, no allocation carries a
    negative attribute index, the CIDR of every pool that is not disabled
    parses and every address of every node and workload endpoint
    normalises, [checkIPAM] returns nil, whatever it found. *)
Theorem C10_returns_nil {lib : NetLib} {client : Client} {range : MapRange}
    (showAll showProblem : bool) (d : Datastore)
    (blocks : list AllocationBlock) (pools : list IPPool) (nodes : list Node)
    (weps : list WorkloadEndpoint) :
  (ListBlocks d).1 = inl blocks ->
  (ListIPPools d).1 = inl pools ->
  (ListNodes d).1 = inl nodes ->
  (ListWorkloadEndpoints d).1 = inl weps ->
  blocks_ok blocks ->
  pools_ok pools ->
  Forall nodeNormalises nodes ->
  Forall wepNormalises weps ->
  exists s', checkIPAM (start (NewIPAMChecker showAll showProblem) d)
             = (Done tt, s').
Proof.
  intros Hb Hp Hn Hw Hbok Hpok Hnok Hwok.
  set (s0 := start (NewIPAMChecker showAll showProblem) d).
  destruct (load_total s0 blocks pools nodes weps) as (act & s1 & E); try done.
  - eapply Forall_impl; [exact Hnok|]. intros n Hok (f & r & err & Hin & Hf).
    destruct (Hok f r Hin) as [ip Hip]. congruence.
  - eapply Forall_impl; [exact Hwok|]. intros w Hok (r & err & Hin & Hf).
    destruct (Hok r Hin) as [ip Hip]. congruence.
  - pose proof (loaded_allocs_ok _ _ _ _ _ E) as Hok.
    unfold checkIPAM, checkIPAM_locals.
    step_with ltac:(rewrite (bind_step _ _ _ _ _ E); by apply classify_eq).
    by eexists.
Qed.

(** C10, amended, on the small cluster. *)
Lemma C10_returns_nil_witness :
  exists s',
    checkIPAM (lib := Fixture.lib) (client := Fixture.client)
      (range := Fixture.forward)
      (start (NewIPAMChecker false true) Fixture.cluster) = (Done tt, s').
Proof.
  apply (C10_returns_nil (lib := Fixture.lib) (client := Fixture.client)
           (range := Fixture.forward) false true Fixture.cluster
           [Fixture.block1]
           [ {| pool_CIDR := "10.0.0.0/24"; pool_Disabled := false |};
             {| pool_CIDR := "192.168.0.0/16"; pool_Disabled := true |} ]
           [Fixture.node1] [Fixture.wep1]).
  - reflexivity.
  - reflexivity.
  - reflexivity.
  - reflexivity.
  - intros b i attrIdx Hb Hi. apply list_elem_of_singleton in Hb as ->.
    do 8 (destruct i as [|i]; [simpl in Hi; simplify_eq; lia|]).
    discriminate Hi.
  - intros p Hp Hd. apply elem_of_cons in Hp as [-> | Hp].
    + eexists. reflexivity.
    + apply list_elem_of_singleton in Hp as ->. discriminate Hd.
  - apply Forall_cons_2; [|apply Forall_nil_2].
    intros field raw Hin. apply list_elem_of_singleton in Hin as [= -> ->].
    eexists. reflexivity.
  - apply Forall_cons_2; [|apply Forall_nil_2].
    intros raw Hin. apply list_elem_of_singleton in Hin as ->.
    eexists. reflexivity.
Defined.

(** * Further facts *)

(** ** The addresses of nodes and workload endpoints *)

Section AddressFacts.
Context {lib : NetLib}.

Lemma normaliseIP_not_Panic raw p : normaliseIP raw <> Panic p.
Proof. unfold normaliseIP. by destruct (ParseCIDROrIP raw). Qed.

Lemma normaliseAll_Done n addrs ips0 ips :
  normaliseAll n addrs ips0 = Done ips <->
  exists new, ips = ips0 ++ new /\
    Forall2 (fun fr ip => normaliseIP fr.2 = Done ip) addrs new.
Proof.
  revert ips0. induction addrs as [|[field raw] rest IH]; intros ips0; simpl.
  - split.
    + intros [= <-]. exists []. by rewrite app_nil_r.
    + intros (new & -> & Hf). inversion Hf. by rewrite app_nil_r.
  - destruct (normaliseIP raw) as [ip|err|p] eqn:E.
    + rewrite IH. split.
      * intros (new & -> & Hf). exists (ip :: new). rewrite <- app_assoc.
        split; [done|]. by constructor.
      * intros (new & -> & Hf). inversion Hf as [|? ip' ? new' Hip Hrest]; subst.
        simpl in Hip. rewrite E in Hip. injection Hip as <-.
        exists new'. by rewrite <- app_assoc.
    + split; [done|]. intros (new & _ & Hf). inversion Hf; subst. simpl in *. congruence.
    + split; [done|]. intros (new & _ & Hf). inversion Hf; subst. simpl in *. congruence.
Qed.

Lemma normaliseAll_Fail n addrs ips0 msg :
  normaliseAll n addrs ips0 = Fail msg <->
  exists before field raw after err,
    addrs = before ++ (field, raw) :: after /\
    Forall (fun fr => exists ip, normaliseIP fr.2 = Done ip) before /\
    normaliseIP raw = Fail err /\ msg = nodeParseError n field raw err.
Proof.
  revert ips0. induction addrs as [|[field raw] rest IH]; intros ips0; simpl.
  - split; [done|]. intros (before & ? & ? & ? & ? & H & _). by destruct before.
  - destruct (normaliseIP raw) as [ip|err|p] eqn:E.
    + rewrite IH. split.
      * intros (before & f & r & after & err & -> & Hb & Hr & ->).
        exists ((field, raw) :: before), f, r, after, err.
        split; [done|]. split; [|done]. constructor; [by exists ip|done].
      * intros (before & f & r & after & err & Heq & Hb & Hr & ->).
        destruct before as [|x before]; simpl in Heq; simplify_eq;
          try first [done|congruence].
        apply Forall_cons in Hb as [_ Hb]. by exists before, f, r, after, err.
    + split.
      * intros [= <-]. exists [], field, raw, rest, err. by repeat split.
      * intros (before & f & r & after & err' & Heq & Hb & Hr & ->).
        destruct before as [|x before]; simpl in Heq; simplify_eq;
          try first [done|congruence].
        apply Forall_cons in Hb as [[ip Hip] _]. simpl in Hip. congruence.
    + by destruct (normaliseIP_not_Panic raw p).
Qed.

Lemma setAddr_length field addr : length (setAddr field addr) <= 1.
Proof. unfold setAddr. destruct addr; [case_decide|]; simpl; lia. Qed.

Lemma wepAddrs_Done w l ips0 ips :
  wepAddrs w l ips0 = Done ips <->
  exists new, ips = ips0 ++ new /\
    Forall2 (fun raw ip => normaliseIP raw = Done ip) l new.
Proof.
  revert ips0. induction l as [|raw rest IH]; intros ips0; simpl.
  - split.
    + intros [= <-]. exists []. by rewrite app_nil_r.
    + intros (new & -> & Hf). inversion Hf. by rewrite app_nil_r.
  - destruct (normaliseIP raw) as [ip|err|p] eqn:E.
    + rewrite IH. split.
      * intros (new & -> & Hf). exists (ip :: new). rewrite <- app_assoc.
        split; [done|]. by constructor.
      * intros (new & -> & Hf). inversion Hf as [|? ip' ? new' Hip Hrest]; subst.
        rewrite E in Hip. injection Hip as <-.
        exists new'. by rewrite <- app_assoc.
    + split; [done|]. intros (new & _ & Hf). inversion Hf; subst. congruence.
    + split; [done|]. intros (new & _ & Hf). inversion Hf; subst. congruence.
Qed.

Lemma wepAddrs_Fail w l ips0 msg :
  wepAddrs w l ips0 = Fail msg <->
  exists before raw after err,
    l = before ++ raw :: after /\
    Forall (fun r => exists ip, normaliseIP r = Done ip) before /\
    normaliseIP raw = Fail err /\ msg = wepParseError w raw err.
Proof.
  revert ips0. induction l as [|raw rest IH]; intros ips0; simpl.
  - split; [done|]. intros (before & ? & ? & ? & H & _). by destruct before.
  - destruct (normaliseIP raw) as [ip|err|p] eqn:E.
    + rewrite IH. split.
      * intros (before & r & after & err & -> & Hb & Hr & ->).
        exists (raw :: before), r, after, err.
        split; [done|]. split; [|done]. constructor; [by exists ip|done].
      * intros (before & r & after & err & Heq & Hb & Hr & ->).
        destruct before as [|x before]; simpl in Heq; simplify_eq;
          try first [done|congruence].
        apply Forall_cons in Hb as [_ Hb]. by exists before, r, after, err.
    + split.
      * intros [= <-]. exists [], raw, rest, err. by repeat split.
      * intros (before & r & after & err' & Heq & Hb & Hr & ->).
        destruct before as [|x before]; simpl in Heq; simplify_eq;
          unfold wepParseError; try first [done|congruence].
        apply Forall_cons in Hb as [[ip Hip] _]. congruence.
    + by destruct (normaliseIP_not_Panic raw p).
Qed.

End AddressFacts.

(** ** Loads that stop early *)

Section FailureFacts.
Context {lib : NetLib} {client : Client} {range : MapRange}.

Lemma listCall_fail {A} (call : Datastore -> (list A + string) * Datastore)
    what s e :
  (call (store s)).1 = inr e ->
  listCall call what s
  = (Fail (what +:+ ": " +:+ e),
     {| checker := checker s; stdout := stdout s; store := (call (store s)).2 |}).
Proof.
  intros H. unfold listCall. destruct (call (store s)) as [r d']. simpl in *.
  by subst.
Qed.

Lemma checkIPAM_load_Fail s msg s1 :
  stdout s = [] ->
  load s = (Fail msg, s1) ->
  (checkIPAM s).1 = Fail msg /\
  Forall (fun l => classificationLine l = false) (stdout (checkIPAM s).2).
Proof.
  intros Hs E. rewrite (checkIPAM_of_load_Fail _ _ _ E). split; [done|].
  pose proof (load_prints s) as (lines & Hout & Hlines).
  rewrite E in Hout. simpl in *. by rewrite Hout, Hs.
Qed.

Lemma not_nodeFails n : nodeNormalises n -> ~ nodeFails n.
Proof.
  intros Hok (f & r & err & Hin & Hf). destruct (Hok f r Hin) as [ip Hip].
  congruence.
Qed.

Lemma load_listing_fails s msg :
  listingFailure (store s) msg -> exists s1, load s = (Fail msg, s1).
Proof.
  intros [e Hb|blocks e Hb Hbok Hp|blocks pools e Hb Hbok Hp Hpok Hn
         |blocks pools nodes e Hb Hbok Hp Hpok Hn Hnok Hw].
  - unfold load, loadBlocks. step. step. eexists.
    apply bind_Fail. erewrite bind_step; [|reflexivity].
    apply bind_Fail. by rewrite (listCall_fail _ _ _ e).
  - set (sa := emit [""] (emit ["Checking IPAM for inconsistencies..."] s)).
    destruct (loadBlocks_total blocks sa Hb Hbok) as [sb Eb].
    pose proof (always_run _ _ _ _ _ loadBlocks_store Eb) as Sb.
    unfold same_store in Sb. simpl in Sb.
    unfold load. step. step. step_with ltac:(exact Eb). eexists.
    apply bind_Fail. unfold loadPools. step.
    apply bind_Fail. rewrite (listCall_fail _ _ _ e); [done|].
    simpl. by rewrite Sb.
  - destruct (load_to_nodes s blocks pools) as (act & sc & Sc & ->); try done.
    eexists. apply bind_Fail. unfold loadNodes. step.
    apply bind_Fail. rewrite (listCall_fail _ _ _ e); [done|].
    simpl. by rewrite Sc.
  - destruct (load_to_nodes s blocks pools) as (act & sc & Sc & ->); try done.
    edestruct (loadNodes_total nodes sc) as [sd Ed].
    { by rewrite Sc. }
    { eapply Forall_impl; [exact Hnok|]. apply not_nodeFails. }
    pose proof (always_run _ _ _ _ _ loadNodes_store Ed) as Sd.
    unfold same_store in Sd.
    rewrite (bind_step _ _ _ _ _ Ed). eexists.
    apply bind_Fail. unfold loadWorkloadEndpoints. step.
    apply bind_Fail. rewrite (listCall_fail _ _ _ e); [done|].
    simpl. by rewrite Sd, Sc.
Qed.






End FailureFacts.

(** ** What the load records *)

Section IndexFacts.
Context {lib : NetLib} {client : Client} {range : MapRange}.

Lemma foldl_addTo_lookup {V} (l : list (string * V)) m k :
  foldl addTo m l !! k =
  match (filter (fun kv => kv.1 = k) l).*2 with
  | [] => m !! k
  | vs => Some (default [] (m !! k) ++ vs)
  end.
Proof.
  revert m. induction l as [|[k' v] l IH]; intros m; [done|].
  simpl. rewrite IH. unfold addTo at 1 2. simpl.
  rewrite filter_cons. simpl. destruct (decide (k' = k)) as [->|Hne].
  - rewrite lookup_insert_eq. rewrite fmap_cons. simpl.
    destruct ((filter (fun kv => kv.1 = k) l).*2) as [|v' vs]; simpl.
    + done.
    + by rewrite <- app_assoc.
  - by rewrite lookup_insert_ne.
Qed.

Lemma group_empty {V} (l : list (string * V)) k :
  foldl addTo ∅ l !! k = group k l.
Proof.
  rewrite foldl_addTo_lookup, lookup_empty. unfold group.
  by destruct ((filter (fun kv => kv.1 = k) l).*2).
Qed.

Lemma records_refl s : records [] [] s s.
Proof. done. Qed.

Lemma records_trans a1 u1 a2 u2 s1 s2 s3 :
  records a1 u1 s1 s2 -> records a2 u2 s2 s3 ->
  records (a1 ++ a2) (u1 ++ u2) s1 s3.
Proof.
  intros [Ha1 Hu1] [Ha2 Hu2]. split.
  - by rewrite fmap_app, foldl_app, <- Ha1.
  - by rewrite foldl_app, <- Hu1.
Qed.

Lemma records_emit lines s : records [] [] s (emit lines s).
Proof. done. Qed.

Lemma records_forM_ {A} (l : list A) (f : A -> M unit)
    (al : A -> list allocation) (us : A -> list (string * ownerRecord)) :
  (forall x s s', f x s = (Done tt, s') -> records (al x) (us x) s s') ->
  forall s s', forM_ l f s = (Done tt, s') -> records (l ≫= al) (l ≫= us) s s'.
Proof.
  intros Hf. induction l as [|x l IH]; intros s s' E; simpl in E.
  - unfold ret in E. simplify_eq. apply records_refl.
  - apply bind_Done in E as ([] & s1 & E1 & E2).
    change ((x :: l) ≫= al) with (al x ++ (l ≫= al)).
    change ((x :: l) ≫= us) with (us x ++ (l ≫= us)).
    eapply records_trans; eauto.
Qed.

Lemma records_foldM {A B} (l : list A) (f : B -> A -> M B)
    (al : A -> list allocation) (us : A -> list (string * ownerRecord)) :
  (forall b x s b' s', f b x s = (Done b', s') -> records (al x) (us x) s s') ->
  forall b s b' s',
    foldM f l b s = (Done b', s') -> records (l ≫= al) (l ≫= us) s s'.
Proof.
  intros Hf. induction l as [|x l IH]; intros b s b' s' E; simpl in E.
  - unfold ret in E. simplify_eq. apply records_refl.
  - apply bind_Done in E as (b1 & s1 & E1 & E2).
    change ((x :: l) ≫= al) with (al x ++ (l ≫= al)).
    change ((x :: l) ≫= us) with (us x ++ (l ≫= us)).
    eapply records_trans; eauto.
Qed.

Lemma recordInUseIP_records ip r f s :
  records [] [(ip, {| FriendlyName := f; Resource := r |})] s
    (recordInUseIP ip r f s).2.
Proof. by rewrite recordInUseIP_eq. Qed.

Lemma recordAllocation_records b ord s s' :
  recordAllocation b ord s = (Done tt, s') ->
  let a := {| Block := b; Ordinal := ord |} in
  records [a] (if isReserved a then [(allocIP a, reservedOwner b)] else []) s s'.
Proof.
  intros E a. unfold isReserved, resolveAttr. simpl.
  unfold recordAllocation, bind, getChecker, setChecker, when, lift, println,
    ret in E. simpl in E.
  repeat case_match; simplify_eq/=; try rewrite recordInUseIP_eq in *;
    simplify_eq/=; try done;
    unfold index in *; repeat case_match; simplify_eq/=;
    repeat case_bool_decide; simplify_eq/=; try done;
    repeat match goal with
           | H : _ !! _ = Some _ |- _ => apply lookup_lt_Some in H
           | H : (_ <? _)%Z = false |- _ => apply Z.ltb_ge in H
           end; lia.
Qed.

Lemma list_bind_bind {A B C} (f : A -> list B) (g : B -> list C) (l : list A) :
  (l ≫= f) ≫= g = l ≫= (fun x => f x ≫= g).
Proof.
  induction l as [|x l IH]; [done|].
  by rewrite !bind_cons, bind_app, IH.
Qed.

Lemma blockStep_records b s s' :
  blockStep b s = (Done tt, s') -> records (allocatedIn b) (reservedUses b) s s'.
Proof.
  unfold blockStep. intros E. apply bind_Done in E as ([] & s1 & E1 & E2).
  rewrite println_emit in E1. injection E1 as <-.
  unfold reservedUses, allocatedIn. rewrite list_bind_bind.
  revert E2. intros E2. eapply records_forM_ in E2; [exact E2|].
  clear. intros [ord [attrIdx|]] s s' E.
  - apply recordAllocation_records in E. simpl in E.
    rewrite bind_singleton. exact E.
  - unfold ret in E. simplify_eq. apply records_refl.
Qed.

Lemma loadBlocks_records s s' :
  loadBlocks s = (Done tt, s') ->
  exists blocks,
    (ListBlocks (store s)).1 = inl blocks /\
    records (blocks ≫= allocatedIn) (blocks ≫= reservedUses) s s'.
Proof.
  unfold loadBlocks. intros E.
  apply bind_Done in E as ([] & s1 & E1 & E).
  rewrite println_emit in E1. injection E1 as <-.
  apply bind_Done in E as (blocks & s2 & E2 & E).
  apply listCall_Done in E2 as [Hl ->]. exists blocks. split; [done|].
  apply bind_Done in E as ([] & s3 & E3 & E).
  rewrite println_emit in E3. injection E3 as <-.
  apply bind_Done in E as ([] & s4 & E4 & E).
  apply (records_forM_ _ _ _ _ blockStep_records) in E4.
  unfold getChecker in E. apply bind_Done in E as (c & s5 & E5 & E).
  injection E5 as <- <-.
  apply bind_Done in E as ([] & s6 & E6 & E).
  rewrite println_emit in E6. injection E6 as <-.
  rewrite println_emit in E. injection E as <-.
  destruct E4 as [Ha Hu]. split; simpl in *; [by rewrite Ha | by rewrite Hu].
Qed.

Lemma loadPools_checker : always same_checker loadPools.
Proof.
  unfold loadPools, poolStep. always_go;
    first [ apply always_println; intros ?; reflexivity
          | apply always_listCall; intros ?; reflexivity ].
Qed.

Lemma useLoop_records (ref : referrer) (name : string) ips (count : nat) s :
  exists s',
    foldM (fun numNodeIPs ip =>
             bind (recordInUseIP ip ref name) (fun _ => ret (S numNodeIPs)))
      ips count s = (Done (count + length ips), s') /\
    records []
      ((fun ip => (ip, {| FriendlyName := name; Resource := ref |})) <$> ips)
      s s'.
Proof.
  revert count s. induction ips as [|ip ips IH]; intros count s; simpl.
  - exists s. rewrite Nat.add_0_r. split; [done|apply records_refl].
  - destruct (IH (S count) (recordInUseIP ip ref name s).2) as (s' & E & Hr).
    exists s'. split.
    + erewrite bind_step; [|erewrite bind_step; [reflexivity|apply recordInUseIP_eq]].
      rewrite recordInUseIP_eq in E. simpl in E. rewrite E.
      f_equal. f_equal. lia.
    + eapply (records_trans [] [_] [] _); [apply recordInUseIP_records|exact Hr].
Qed.

Lemma nodeStep_records count n s count' s' :
  nodeStep count n s = (Done count', s') ->
  count' = count + length (nodeUses n) /\ records [] (nodeUses n) s s'.
Proof.
  unfold nodeStep, nodeUses, nodeOwner. intros E.
  apply bind_Done in E as (ips & s1 & E1 & E).
  unfold lift in E1. injection E1 as E1 <-. rewrite E1.
  destruct (useLoop_records (RefNode n) ("Node(" +:+ node_Name n +:+ ")")
              ips count s) as (s2 & E2 & Hr).
  rewrite E2 in E. injection E as <- <-. by rewrite length_fmap.
Qed.

Lemma wepStep_records count w s count' s' :
  wepStep count w s = (Done count', s') ->
  count' = count + length (wepUses w) /\ records [] (wepUses w) s s'.
Proof.
  unfold wepStep, wepUses, wepOwner. intros E.
  apply bind_Done in E as (ips & s1 & E1 & E).
  unfold lift in E1. injection E1 as E1 <-. rewrite E1.
  destruct (useLoop_records (RefWorkload w)
              ("Workload(" +:+ wep_Namespace w +:+ "/" +:+ wep_Name w +:+ ")")
              ips count s) as (s2 & E2 & Hr).
  rewrite E2 in E. injection E as <- <-. by rewrite length_fmap.
Qed.

Lemma nodeLoop_records nodes count s count' s' :
  foldM nodeStep nodes count s = (Done count', s') ->
  count' = count + length (nodes ≫= nodeUses) /\
  records [] (nodes ≫= nodeUses) s s'.
Proof.
  revert count s. induction nodes as [|n nodes IH]; intros count s E; simpl in E.
  - unfold ret in E. simplify_eq. split; [simpl; lia|apply records_refl].
  - apply bind_Done in E as (c1 & s1 & E1 & E).
    apply nodeStep_records in E1 as [-> Hr1]. apply IH in E as [-> Hr].
    rewrite bind_cons, length_app. split; [lia|].
    by apply (records_trans [] _ [] _ s s1 s').
Qed.

Lemma wepLoop_records weps count s count' s' :
  foldM wepStep weps count s = (Done count', s') ->
  count' = count + length (weps ≫= wepUses) /\
  records [] (weps ≫= wepUses) s s'.
Proof.
  revert count s. induction weps as [|w weps IH]; intros count s E; simpl in E.
  - unfold ret in E. simplify_eq. split; [simpl; lia|apply records_refl].
  - apply bind_Done in E as (c1 & s1 & E1 & E).
    apply wepStep_records in E1 as [-> Hr1]. apply IH in E as [-> Hr].
    rewrite bind_cons, length_app. split; [lia|].
    by apply (records_trans [] _ [] _ s s1 s').
Qed.

Lemma loadNodes_records s s' :
  loadNodes s = (Done tt, s') ->
  exists nodes,
    (ListNodes (store s)).1 = inl nodes /\ records [] (nodes ≫= nodeUses) s s'.
Proof.
  unfold loadNodes. intros E.
  apply bind_Done in E as ([] & s1 & E1 & E).
  rewrite println_emit in E1. injection E1 as <-.
  apply bind_Done in E as (nodes & s2 & E2 & E).
  apply listCall_Done in E2 as [Hl ->]. exists nodes. split; [done|].
  apply bind_Done in E as (count & s3 & E3 & E).
  apply nodeLoop_records in E3 as [_ [Ha Hu]].
  apply bind_Done in E as ([] & s4 & E4 & E).
  rewrite println_emit in E4. injection E4 as <-.
  rewrite println_emit in E. injection E as <-.
  split; simpl in *; [by rewrite Ha | by rewrite Hu].
Qed.

Lemma loadWorkloadEndpoints_records s s' :
  loadWorkloadEndpoints s = (Done tt, s') ->
  exists weps,
    (ListWorkloadEndpoints (store s)).1 = inl weps /\
    records [] (weps ≫= wepUses) s s'.
Proof.
  unfold loadWorkloadEndpoints. intros E.
  apply bind_Done in E as ([] & s1 & E1 & E).
  rewrite println_emit in E1. injection E1 as <-.
  apply bind_Done in E as (weps & s2 & E2 & E).
  apply listCall_Done in E2 as [Hl ->]. exists weps. split; [done|].
  apply bind_Done in E as (count & s3 & E3 & E).
  apply wepLoop_records in E3 as [_ [Ha Hu]].
  apply bind_Done in E as ([] & s4 & E4 & E).
  rewrite println_emit in E4. injection E4 as <-.
  unfold getChecker in E. apply bind_Done in E as (c & s5 & E5 & E).
  injection E5 as <- <-.
  apply bind_Done in E as ([] & s6 & E6 & E).
  rewrite println_emit in E6. injection E6 as <-.
  rewrite println_emit in E. injection E as <-.
  split; simpl in *; [by rewrite Ha | by rewrite Hu].
Qed.

(** The two indexes after a load that succeeds, from a fresh checker. *)
Lemma load_records a p d pools s1 :
  load (start (NewIPAMChecker a p) d) = (Done pools, s1) ->
  exists blocks nodes weps,
    (ListBlocks d).1 = inl blocks /\ (ListNodes d).1 = inl nodes /\
    (ListWorkloadEndpoints d).1 = inl weps /\
    (forall ip, allocations (checker s1) !! ip
                = group ip ((fun a => (allocIP a, a)) <$> (blocks ≫= allocatedIn))) /\
    (forall ip, inUseIPs (checker s1) !! ip
                = group ip (usesOf blocks nodes weps)).
Proof.
  intros E.
  apply load_Done in E as (sa & sb & sc & sd & Hs & Hc & Eb & Ep & En & Ew).
  pose proof (always_run _ _ _ _ _ loadBlocks_store Eb) as Sb.
  pose proof (always_run _ _ _ _ _ loadPools_store Ep) as Sp.
  pose proof (always_run _ _ _ _ _ loadNodes_store En) as Sn.
  pose proof (always_run _ _ _ _ _ loadPools_checker Ep) as Cp.
  unfold same_store, same_checker in *. simpl in *.
  apply loadBlocks_records in Eb as (blocks & Hb & Hab & Hub).
  apply loadNodes_records in En as (nodes & Hn & Han & Hun).
  apply loadWorkloadEndpoints_records in Ew as (weps & Hw & Haw & Huw).
  exists blocks, nodes, weps.
  rewrite Hs in Hb. rewrite Sp, Sb, Hs in Hn. rewrite Sn, Sp, Sb, Hs in Hw.
  simpl in *. split; [done|]. split; [done|]. split; [done|].
  rewrite Hc in Hab, Hub. simpl in *. rewrite Cp in Han, Hun.
  split; intros ip.
  - by rewrite Haw, Han, Hab, group_empty.
  - unfold usesOf. by rewrite Huw, Hun, Hub, <- !foldl_app, group_empty.
Qed.

End IndexFacts.

Section IndexFacts2.
Context {lib : NetLib} {client : Client} {range : MapRange}.

Lemma elem_of_allocatedIn a b :
  a ∈ allocatedIn b <->
  exists i attrIdx,
    Allocations b !! i = Some (Some attrIdx) /\
    a = {| Block := b; Ordinal := Z.of_nat i |}.
Proof.
  unfold allocatedIn. rewrite list_elem_of_bind. split.
  - intros ([i [attrIdx|]] & Ha & Hin); [|by apply elem_of_nil in Ha].
    apply list_elem_of_singleton in Ha as ->.
    apply list_elem_of_lookup in Hin as [j Hj].
    rewrite list_lookup_imap in Hj.
    destruct (Allocations b !! j) eqn:E; simplify_eq/=. eauto.
  - intros (i & attrIdx & Hi & ->). exists (i, Some attrIdx).
    split; [apply list_elem_of_here|].
    apply list_elem_of_lookup. exists i. by rewrite list_lookup_imap, Hi.
Qed.

Lemma group_filter {V} (f : V -> string) (l : list V) k :
  group k ((fun v => (f v, v)) <$> l)
  = match filter (fun v => f v = k) l with
    | [] => None
    | vs => Some vs
    end.
Proof.
  unfold group.
  assert ((filter (fun kv : string * V => kv.1 = k) ((fun v => (f v, v)) <$> l)).*2
          = filter (fun v => f v = k) l) as ->; [|done].
  induction l as [|v l IH]; [done|].
  rewrite fmap_cons, !filter_cons. cbn [fst].
  destruct (decide (f v = k)); [rewrite fmap_cons; cbn [snd]|]; by rewrite IH.
Qed.

Lemma group_is_Some {V} (l : list (string * V)) k :
  is_Some (group k l) <-> exists v, (k, v) ∈ l.
Proof.
  unfold group. split.
  - intros [vs Hvs].
    destruct ((filter (fun kv => kv.1 = k) l).*2) as [|v vs'] eqn:E; [done|].
    assert (Hin : v ∈ (filter (fun kv : string * V => kv.1 = k) l).*2)
      by (rewrite E; apply list_elem_of_here).
    apply list_elem_of_fmap in Hin as ([k' v'] & -> & Hin).
    apply list_elem_of_filter in Hin as [Hk Hin]. simpl in *. subst. eauto.
  - intros [v Hin].
    assert (Hv : v ∈ (filter (fun kv : string * V => kv.1 = k) l).*2).
    { apply list_elem_of_fmap. exists (k, v). split; [done|].
      by apply list_elem_of_filter. }
    destruct ((filter (fun kv => kv.1 = k) l).*2); [by apply elem_of_nil in Hv|].
    by eexists.
Qed.

Lemma group_None {V} (l : list (string * V)) k :
  group k l = None <-> ~ exists v, (k, v) ∈ l.
Proof.
  rewrite <- group_is_Some, eq_None_not_Some. done.
Qed.

Lemma allocated_allocatedAt blocks ip :
  (exists a, (ip, a) ∈ (fun a => (allocIP a, a)) <$> (blocks ≫= allocatedIn))
  <-> allocatedAt blocks ip.
Proof.
  unfold allocatedAt. split.
  - intros (a & Hin). apply list_elem_of_fmap in Hin as (a' & [= -> ->] & Hin).
    apply list_elem_of_bind in Hin as (b & Ha & Hb).
    apply elem_of_allocatedIn in Ha as (i & attrIdx & Hi & ->).
    by exists b, i, attrIdx.
  - intros (b & i & attrIdx & Hb & Hi & <-).
    exists {| Block := b; Ordinal := Z.of_nat i |}.
    apply list_elem_of_fmap.
    exists {| Block := b; Ordinal := Z.of_nat i |}. split; [reflexivity|].
    apply list_elem_of_bind. exists b. split; [|done].
    apply elem_of_allocatedIn. eauto.
Qed.

Lemma resolveAttr_allocated b i attrs :
  resolveAttr b (Z.of_nat i) = Some attrs ->
  exists attrIdx, Allocations b !! i = Some (Some attrIdx).
Proof.
  intros H. apply resolveAttr_Some in H as (attrIdx & _ & H & _).
  rewrite Nat2Z.id in H. eauto.
Qed.

Lemma used_usedAt blocks nodes weps ip :
  (exists o, (ip, o) ∈ usesOf blocks nodes weps) <-> usedAt blocks nodes weps ip.
Proof.
  unfold usesOf, usedAt. split.
  - intros (o & Hin). rewrite !elem_of_app in Hin. destruct Hin as [Hin|[Hin|Hin]].
    + right. right. apply list_elem_of_bind in Hin as (b & Hin & Hb).
      unfold reservedUses in Hin.
      apply list_elem_of_bind in Hin as (a & Hin & Ha).
      apply elem_of_allocatedIn in Ha as (i & attrIdx & Hi & ->).
      unfold isReserved in Hin. simpl in Hin.
      destruct (resolveAttr b (Z.of_nat i)) as [attrs|] eqn:E;
        [|by apply elem_of_nil in Hin].
      case_bool_decide; [|by apply elem_of_nil in Hin].
      apply list_elem_of_singleton in Hin as [= -> ->].
      by exists b, i, attrs.
    + left. apply list_elem_of_bind in Hin as (n & Hin & Hn).
      unfold nodeUses in Hin.
      destruct (getNodeIPs n) as [ips| |] eqn:E; try by apply elem_of_nil in Hin.
      apply list_elem_of_fmap in Hin as (ip' & [= -> ->] & Hin). eauto.
    + right. left. apply list_elem_of_bind in Hin as (w & Hin & Hw).
      unfold wepUses in Hin.
      destruct (getWEPIPs w) as [ips| |] eqn:E; try by apply elem_of_nil in Hin.
      apply list_elem_of_fmap in Hin as (ip' & [= -> ->] & Hin). eauto.
  - intros [(n & ips & Hn & E & Hin)|[(w & ips & Hw & E & Hin)
                                     |(b & i & attrs & Hb & E & Hp & <-)]].
    + exists (nodeOwner n). rewrite !elem_of_app. right. left.
      apply list_elem_of_bind. exists n. split; [|done].
      unfold nodeUses. rewrite E. apply list_elem_of_fmap. eauto.
    + exists (wepOwner w). rewrite !elem_of_app. right. right.
      apply list_elem_of_bind. exists w. split; [|done].
      unfold wepUses. rewrite E. apply list_elem_of_fmap. eauto.
    + exists (reservedOwner b). rewrite !elem_of_app. left.
      apply list_elem_of_bind. exists b. split; [|done].
      unfold reservedUses. apply list_elem_of_bind.
      exists {| Block := b; Ordinal := Z.of_nat i |}. split.
      * unfold isReserved. simpl. rewrite E, bool_decide_true by done.
        apply list_elem_of_here.
      * destruct (resolveAttr_allocated _ _ _ E) as [attrIdx Hi].
        apply elem_of_allocatedIn. eauto.
Qed.

End IndexFacts2.

(** ** Runs that differ in their flags only *)

Section AgreeFacts.
Context {lib : NetLib} {client : Client} {range : MapRange}.

Lemma agree_ret {A} (a : A) : agree (ret a) (ret a).
Proof. by intros s t H. Qed.

Lemma agree_fail {A} e : agree (fail (A := A) e) (fail e).
Proof. by intros s t H. Qed.

Lemma agree_lift {A} (o : outcome A) : agree (lift o) (lift o).
Proof. by intros s t H. Qed.

Lemma agree_println l l' : agree (println l) (println l').
Proof. by intros s t H. Qed.

Lemma agree_listCall {A} (call : Datastore -> (list A + string) * Datastore)
    what :
  agree (listCall call what) (listCall call what).
Proof.
  intros s t (Ha & Hu & Hs). unfold listCall. rewrite Hs.
  destruct (call (store t)) as [[l|e] d']; by repeat split.
Qed.

Lemma agree_bind {A B} (m m' : M A) (k k' : A -> M B) :
  agree m m' -> (forall a, agree (k a) (k' a)) -> agree (bind m k) (bind m' k').
Proof.
  intros Hm Hk s t H. destruct (Hm s t H) as [E H']. unfold bind.
  destruct (m s) as [[a|e|p] s1], (m' t) as [[a'|e'|p'] t1];
    simpl in E; simplify_eq; try done.
  by apply Hk.
Qed.

Lemma agree_getChecker {B} (k k' : IPAMChecker -> M B) :
  (forall c c', allocations c = allocations c' -> inUseIPs c = inUseIPs c' ->
                agree (k c) (k' c')) ->
  agree (bind getChecker k) (bind getChecker k').
Proof.
  intros Hk s t H. unfold bind, getChecker.
  destruct H as (Ha & Hu & Hs). by apply Hk.
Qed.

Lemma agree_forM_ {A} (l : list A) (f f' : A -> M unit) :
  (forall x, agree (f x) (f' x)) -> agree (forM_ l f) (forM_ l f').
Proof.
  intros Hf. induction l as [|x l IH]; simpl.
  - apply agree_ret.
  - apply agree_bind; [apply Hf | by intros _].
Qed.

Lemma agree_foldM {A B} (f f' : B -> A -> M B) (l : list A) (b : B) :
  (forall b x, agree (f b x) (f' b x)) -> agree (foldM f l b) (foldM f' l b).
Proof.
  intros Hf. revert b. induction l as [|x l IH]; intros b; simpl.
  - apply agree_ret.
  - apply agree_bind; [apply Hf | apply IH].
Qed.

Lemma agree_recordInUseIP ip r f :
  agree (recordInUseIP ip r f) (recordInUseIP ip r f).
Proof.
  intros s t (Ha & Hu & Hs). rewrite !recordInUseIP_eq.
  unfold same_indexes, useIP. simpl. by rewrite Hu.
Qed.

Lemma agree_recordAllocation b ord :
  agree (recordAllocation b ord) (recordAllocation b ord).
Proof.
  intros s t (Ha & Hu & Hs).
  unfold recordAllocation, bind, getChecker, setChecker, when, lift, println,
    ret, GetAttrString, andThen.
  destruct (showAllIPs (checker s)), (showAllIPs (checker t)); simpl;
    destruct (index (Allocations b) ord) as [[attrIdx|]| |]; simpl; try done;
    try (by rewrite Ha);
    (destruct (attrIdx <? Z.of_nat (length (Attributes b)))%Z; simpl;
     [destruct (index (Attributes b) attrIdx) as [attrs| |]; simpl;
      [destruct (AttrPrimary attrs) as [primary|]; simpl;
       [destruct (decide (primary = WindowsReservedHandle)); simpl|]|..]|];
     rewrite ?recordInUseIP_eq; unfold same_indexes; simpl;
     by rewrite ?Ha, ?Hu, ?Hs).
Qed.

Lemma agree_loadBlocks : agree loadBlocks loadBlocks.
Proof.
  unfold loadBlocks, blockStep.
  apply agree_bind; [apply agree_println|intros _].
  apply agree_bind; [apply agree_listCall|intros blocks].
  apply agree_bind; [apply agree_println|intros _].
  apply agree_bind.
  - apply agree_forM_. intros b.
    apply agree_bind; [apply agree_println|intros _].
    apply agree_forM_. intros [ord [attrIdx|]];
      [apply agree_recordAllocation|apply agree_ret].
  - intros _. apply agree_getChecker. intros c c' Ha Hu.
    apply agree_bind; [apply agree_println|intros _; apply agree_println].
Qed.

Lemma agree_loadPools : agree loadPools loadPools.
Proof.
  unfold loadPools, poolStep.
  apply agree_bind; [apply agree_println|intros _].
  apply agree_bind; [apply agree_listCall|intros pools].
  apply agree_bind.
  - apply agree_foldM. intros acc p. destruct (pool_Disabled p); [apply agree_ret|].
    apply agree_bind; [apply agree_println|intros _].
    destruct (ParseCIDR (pool_CIDR p)); [apply agree_ret|apply agree_fail].
  - intros act. apply agree_bind; [apply agree_println|intros _].
    apply agree_bind; [apply agree_println|intros _; apply agree_ret].
Qed.

Lemma agree_useLoop ref name ips count :
  agree
    (foldM (fun numNodeIPs ip =>
              bind (recordInUseIP ip ref name) (fun _ => ret (S numNodeIPs)))
       ips count)
    (foldM (fun numNodeIPs ip =>
              bind (recordInUseIP ip ref name) (fun _ => ret (S numNodeIPs)))
       ips count).
Proof.
  apply agree_foldM. intros c ip.
  apply agree_bind; [apply agree_recordInUseIP|intros _; apply agree_ret].
Qed.

Lemma agree_loadNodes : agree loadNodes loadNodes.
Proof.
  unfold loadNodes, nodeStep.
  apply agree_bind; [apply agree_println|intros _].
  apply agree_bind; [apply agree_listCall|intros nodes].
  apply agree_bind.
  - apply agree_foldM. intros count n.
    apply agree_bind; [apply agree_lift|intros ips]. apply agree_useLoop.
  - intros count. apply agree_bind; [apply agree_println|intros _].
    apply agree_println.
Qed.

Lemma agree_loadWorkloadEndpoints :
  agree loadWorkloadEndpoints loadWorkloadEndpoints.
Proof.
  unfold loadWorkloadEndpoints, wepStep.
  apply agree_bind; [apply agree_println|intros _].
  apply agree_bind; [apply agree_listCall|intros weps].
  apply agree_bind.
  - apply agree_foldM. intros count w.
    apply agree_bind; [apply agree_lift|intros ips]. apply agree_useLoop.
  - intros count. apply agree_bind; [apply agree_println|intros _].
    apply agree_getChecker. intros c c' Ha Hu.
    apply agree_bind; [apply agree_println|intros _; apply agree_println].
Qed.

Lemma agree_load : agree load load.
Proof.
  unfold load.
  apply agree_bind; [apply agree_println|intros _].
  apply agree_bind; [apply agree_println|intros _].
  apply agree_bind; [apply agree_loadBlocks|intros _].
  apply agree_bind; [apply agree_loadPools|intros act].
  apply agree_bind; [apply agree_loadNodes|intros _].
  apply agree_bind; [apply agree_loadWorkloadEndpoints|intros _].
  apply agree_ret.
Qed.

Lemma reportOf_same_indexes c c' pools :
  allocations c = allocations c' -> inUseIPs c = inUseIPs c' ->
  reportOf c pools = reportOf c' pools.
Proof.
  intros Ha Hu.
  assert (Hl : leakedOf c = leakedOf c').
  { unfold leakedOf. rewrite Ha. apply bind_lines_ext. intros e.
    unfold leakedIP. by rewrite Hu. }
  assert (Hm : missingOf c pools = missingOf c' pools).
  { unfold missingOf. rewrite Hu. apply bind_lines_ext. intros e.
    unfold missingIP. by rewrite Ha. }
  assert (Hf : foreignOf c pools = foreignOf c' pools).
  { unfold foreignOf. rewrite Hu. apply bind_lines_ext. intros e.
    unfold foreignIP. by rewrite Ha. }
  unfold reportOf. by rewrite Hl, Hm, Hf.
Qed.

End AgreeFacts.

(** ** What the load counts *)

Section CountFacts.
Context {lib : NetLib} {client : Client} {range : MapRange}.

Lemma grows_elem s s' line : grows s s' -> line ∈ stdout s -> line ∈ stdout s'.
Proof. intros (lines & -> & _) Hin. apply elem_of_app. by left. Qed.

Lemma grows_emit lines s : grows s (emit lines s).
Proof. exists lines. split; [done|]. by apply Forall_forall. Qed.

Lemma recordInUseIP_grows ip r f : always grows (recordInUseIP ip r f).
Proof.
  intros s. rewrite recordInUseIP_eq. eexists. split; [reflexivity|].
  by apply Forall_forall.
Qed.

Lemma recordAllocation_grows b ord : always grows (recordAllocation b ord).
Proof.
  intros s. unfold recordAllocation, bind, getChecker, setChecker, when, lift,
    println, ret. simpl.
  repeat case_match; simplify_eq/=; try rewrite recordInUseIP_eq; simpl;
    (eexists; split; [|by apply Forall_forall]);
    first [ symmetry; apply app_nil_r | reflexivity
          | rewrite <- app_assoc; reflexivity ].
Qed.

Ltac grows_go :=
  always_go;
  first [ apply always_println; intros ?; apply grows_emit
        | apply always_listCall; intros ?; exists []; split;
          [symmetry; apply app_nil_r | by apply Forall_forall]
        | apply recordInUseIP_grows
        | apply recordAllocation_grows ].

Lemma loadBlocks_grows : always grows loadBlocks.
Proof. unfold loadBlocks, blockStep. grows_go. Qed.

Lemma loadPools_grows : always grows loadPools.
Proof. unfold loadPools, poolStep. grows_go. Qed.

Lemma loadNodes_grows : always grows loadNodes.
Proof. unfold loadNodes, nodeStep. grows_go. Qed.

Lemma loadWorkloadEndpoints_grows : always grows loadWorkloadEndpoints.
Proof. unfold loadWorkloadEndpoints, wepStep. grows_go. Qed.

Lemma size_group {V} (l : list (string * V)) (m : gmap string (list V)) :
  (forall k, m !! k = group k l) -> size m = length (remove_dups l.*1).
Proof.
  intros Hm. rewrite <- length_map_to_list, <- (length_fmap fst).
  apply Permutation_length, NoDup_Permutation.
  - apply NoDup_fst_map_to_list.
  - apply NoDup_remove_dups.
  - intros k. rewrite elem_of_remove_dups, list_elem_of_fmap. split.
    + intros ([k' v] & -> & Hin). apply elem_of_map_to_list in Hin.
      simpl. assert (Hs : is_Some (group k' l)) by (rewrite <- Hm; eauto).
      apply group_is_Some in Hs as [v' Hv'].
      apply list_elem_of_fmap. by exists (k', v').
    + intros Hin. apply list_elem_of_fmap in Hin as ([k' v] & -> & Hin).
      assert (Hs : is_Some (m !! k')).
      { rewrite Hm. apply group_is_Some. eauto. }
      destruct Hs as [vs Hvs]. exists (k', vs). split; [done|].
      by apply elem_of_map_to_list.
Qed.

Lemma nodeUses_length n ips :
  getNodeIPs n = Done ips -> length (nodeUses n) = length (nodeAddrs n).
Proof.
  intros E. unfold nodeUses. rewrite E, length_fmap.
  rewrite getNodeIPs_normaliseAll in E.
  apply normaliseAll_Done in E as (new & -> & Hf). simpl.
  symmetry. by eapply Forall2_length.
Qed.

Lemma wepUses_length w ips :
  getWEPIPs w = Done ips -> length (wepUses w) = length (IPNetworks w).
Proof.
  intros E. unfold wepUses. rewrite E, length_fmap.
  apply wepAddrs_Done in E as (new & -> & Hf). simpl.
  symmetry. by eapply Forall2_length.
Qed.

Lemma nodeLoop_count nodes count s count' s' :
  foldM nodeStep nodes count s = (Done count', s') ->
  count' = count + length (nodes ≫= nodeAddrs).
Proof.
  revert count s. induction nodes as [|n nodes IH]; intros count s E; simpl in E.
  - unfold ret in E. simplify_eq. simpl. lia.
  - apply bind_Done in E as (c1 & s1 & E1 & E).
    pose proof E1 as E1'. apply nodeStep_records in E1' as [-> _].
    unfold nodeStep in E1. apply bind_Done in E1 as (ips & s2 & E2 & _).
    unfold lift in E2. injection E2 as E2 _.
    apply IH in E as ->. rewrite bind_cons, length_app.
    rewrite (nodeUses_length n ips E2). lia.
Qed.

Lemma wepLoop_count weps count s count' s' :
  foldM wepStep weps count s = (Done count', s') ->
  count' = count + length (weps ≫= IPNetworks).
Proof.
  revert count s. induction weps as [|w weps IH]; intros count s E; simpl in E.
  - unfold ret in E. simplify_eq. simpl. lia.
  - apply bind_Done in E as (c1 & s1 & E1 & E).
    pose proof E1 as E1'. apply wepStep_records in E1' as [-> _].
    unfold wepStep in E1. apply bind_Done in E1 as (ips & s2 & E2 & _).
    unfold lift in E2. injection E2 as E2 _.
    apply IH in E as ->. rewrite bind_cons, length_app.
    rewrite (wepUses_length w ips E2). lia.
Qed.

Lemma loadBlocks_counts s s' :
  loadBlocks s = (Done tt, s') ->
  exists blocks,
    (ListBlocks (store s)).1 = inl blocks /\
    ("Found " +:+ pretty (length blocks) +:+ " IPAM blocks.") ∈ stdout s' /\
    ("IPAM blocks record " +:+ pretty (size (allocations (checker s')))
     +:+ " allocations.") ∈ stdout s'.
Proof.
  unfold loadBlocks. intros E.
  apply bind_Done in E as ([] & s1 & E1 & E).
  rewrite println_emit in E1. injection E1 as <-.
  apply bind_Done in E as (blocks & s2 & E2 & E).
  apply listCall_Done in E2 as [Hl ->]. exists blocks. split; [done|].
  apply bind_Done in E as ([] & s3 & E3 & E).
  rewrite println_emit in E3. injection E3 as <-.
  apply bind_Done in E as ([] & s4 & E4 & E).
  assert (Hg : grows
            (emit ["Found " +:+ pretty (length blocks) +:+ " IPAM blocks."]
               {| checker := checker (emit ["Loading all IPAM blocks..."] s);
                  stdout := stdout (emit ["Loading all IPAM blocks..."] s);
                  store := (ListBlocks (store (emit ["Loading all IPAM blocks..."] s))).2 |})
            s4).
  { eapply (always_run grows); [|exact E4].
    apply always_forM_; [apply _|]. intros b. unfold blockStep. grows_go. }
  unfold getChecker in E. apply bind_Done in E as (c & s5 & E5 & E).
  injection E5 as <- <-.
  apply bind_Done in E as ([] & s6 & E6 & E).
  rewrite println_emit in E6. injection E6 as <-.
  rewrite println_emit in E. injection E as <-. simpl. split.
  - rewrite !elem_of_app. left. left. eapply grows_elem; [exact Hg|].
    simpl. rewrite elem_of_app. right. apply list_elem_of_here.
  - rewrite !elem_of_app. left. right. apply list_elem_of_here.
Qed.

Lemma loadPools_counts s act s' :
  loadPools s = (Done act, s') ->
  ("Found " +:+ pretty (length act) +:+ " active IP pools.") ∈ stdout s'.
Proof.
  unfold loadPools. intros E.
  apply bind_Done in E as ([] & s1 & E1 & E).
  apply bind_Done in E as (pools & s2 & E2 & E).
  apply bind_Done in E as (act' & s3 & E3 & E).
  apply bind_Done in E as ([] & s4 & E4 & E).
  rewrite println_emit in E4. injection E4 as <-.
  apply bind_Done in E as ([] & s5 & E5 & E).
  rewrite println_emit in E5. injection E5 as <-.
  unfold ret in E. injection E as <- <-. simpl.
  rewrite !elem_of_app. left. right. apply list_elem_of_here.
Qed.

Lemma loadNodes_counts s s' :
  loadNodes s = (Done tt, s') ->
  exists nodes,
    (ListNodes (store s)).1 = inl nodes /\
    ("Found " +:+ pretty (length (nodes ≫= nodeAddrs)) +:+ " node tunnel IPs.")
      ∈ stdout s'.
Proof.
  unfold loadNodes. intros E.
  apply bind_Done in E as ([] & s1 & E1 & E).
  rewrite println_emit in E1. injection E1 as <-.
  apply bind_Done in E as (nodes & s2 & E2 & E).
  apply listCall_Done in E2 as [Hl ->]. exists nodes. split; [done|].
  apply bind_Done in E as (count & s3 & E3 & E).
  apply nodeLoop_count in E3 as ->.
  apply bind_Done in E as ([] & s4 & E4 & E).
  rewrite println_emit in E4. injection E4 as <-.
  rewrite println_emit in E. injection E as <-. simpl.
  rewrite !elem_of_app. left. right. apply list_elem_of_here.
Qed.

Lemma loadWorkloadEndpoints_counts s s' :
  loadWorkloadEndpoints s = (Done tt, s') ->
  exists weps,
    (ListWorkloadEndpoints (store s)).1 = inl weps /\
    ("Found " +:+ pretty (length (weps ≫= IPNetworks)) +:+ " workload IPs.")
      ∈ stdout s' /\
    ("Workloads and nodes are using " +:+ pretty (size (inUseIPs (checker s')))
     +:+ " IPs.") ∈ stdout s'.
Proof.
  unfold loadWorkloadEndpoints. intros E.
  apply bind_Done in E as ([] & s1 & E1 & E).
  rewrite println_emit in E1. injection E1 as <-.
  apply bind_Done in E as (weps & s2 & E2 & E).
  apply listCall_Done in E2 as [Hl ->]. exists weps. split; [done|].
  apply bind_Done in E as (count & s3 & E3 & E).
  apply wepLoop_count in E3 as ->.
  apply bind_Done in E as ([] & s4 & E4 & E).
  rewrite println_emit in E4. injection E4 as <-.
  unfold getChecker in E. apply bind_Done in E as (c & s5 & E5 & E).
  injection E5 as <- <-.
  apply bind_Done in E as ([] & s6 & E6 & E).
  rewrite println_emit in E6. injection E6 as <-.
  rewrite println_emit in E. injection E as <-. simpl. split.
  - rewrite !elem_of_app. left. left. right. apply list_elem_of_here.
  - rewrite !elem_of_app. left. right. apply list_elem_of_here.
Qed.

End CountFacts.

(** ** The release *)

Section ReleaseFacts.
Import ReleaseCmd.
Context {lib : NetLib} {client : Client} {env : ReleaseEnv}.

Lemma clientCall_eq {A} (call : Datastore -> (A + string) * Datastore) s :
  clientCall call s
  = (match (call (store s)).1 with inl a => Done a | inr e => Fail e end,
     afterCall call [] s).
Proof.
  unfold clientCall, afterCall. rewrite app_nil_r.
  by destruct (call (store s)) as [[a|e] d].
Qed.

Lemma afterCall_read {A} (call : Datastore -> (A + string) * Datastore) s :
  (call (store s)).2 = store s -> afterCall call [] s = s.
Proof.
  intros H. unfold afterCall. rewrite H, app_nil_r. by destruct s.
Qed.

Lemma getClusterInformation_eq s :
  clientCall GetClusterInformation s
  = (match (GetClusterInformation (store s)).1 with
     | inl a => Done a | inr e => Fail e end, s).
Proof.
  rewrite clientCall_eq, afterCall_read; [done|].
  apply GetClusterInformation_read.
Qed.

Lemma collect_eq acc a s :
  collect acc a s
  = (if InUse a then Done acc
     else match ValidateIP (alloc_IP a) with
          | Done ip => Done (acc ++ [ip])
          | Fail e => Fail e
          | Panic p => Panic p
          end, s).
Proof.
  unfold collect, bind, lift, ret.
  destruct (InUse a); [done|]. simpl. by destruct (ValidateIP (alloc_IP a)).
Qed.

(** The two loops over the report change nothing. *)
Lemma collectLoop_state allocations acc s : (foldM collect allocations acc s).2 = s.
Proof.
  revert acc. induction allocations as [|a l IH]; intros acc; [done|].
  simpl. unfold bind. rewrite collect_eq.
  destruct (InUse a); [apply IH|].
  destruct (ValidateIP (alloc_IP a)); [apply IH|done..].
Qed.

Lemma collectAll_state groups acc s :
  (foldM (fun acc allocations => foldM collect allocations acc) groups acc s).2 = s.
Proof.
  revert acc. induction groups as [|g groups IH]; intros acc; [done|].
  simpl. unfold bind. pose proof (collectLoop_state g acc s) as H.
  destruct (foldM collect g acc s) as [[acc'| |] s1]; simpl in H; subst;
    [apply IH|done..].
Qed.

Lemma collectLoop_Done allocations acc s ips :
  Forall2 (fun a ip => ValidateIP (alloc_IP a) = Done ip)
    (filter (fun a => InUse a = false) allocations) ips ->
  foldM collect allocations acc s = (Done (acc ++ ips), s).
Proof.
  revert acc ips. induction allocations as [|a l IH]; intros acc ips Hf.
  - inversion Hf. simpl. by rewrite app_nil_r.
  - simpl. unfold bind. rewrite collect_eq. rewrite filter_cons in Hf.
    destruct (InUse a) eqn:Eu.
    + rewrite decide_False in Hf by done. by apply IH.
    + rewrite decide_True in Hf by done.
      inversion Hf as [|? ip ? ips' Hip Hrest]; subst. rewrite Hip.
      rewrite (IH (acc ++ [ip]) ips' Hrest). by rewrite <- app_assoc.
Qed.

Lemma collectAll_Done groups acc s ips :
  Forall2 (fun a ip => ValidateIP (alloc_IP a) = Done ip)
    (filter (fun a => InUse a = false) (concat groups)) ips ->
  foldM (fun acc allocations => foldM collect allocations acc) groups acc s
  = (Done (acc ++ ips), s).
Proof.
  revert acc ips. induction groups as [|g groups IH]; intros acc ips Hf.
  - inversion Hf. simpl. by rewrite app_nil_r.
  - simpl in Hf. rewrite filter_app in Hf.
    apply Forall2_app_inv_l in Hf as (ips1 & ips2 & H1 & H2 & ->).
    simpl. unfold bind. rewrite (collectLoop_Done g acc s ips1 H1).
    rewrite (IH (acc ++ ips1) ips2 H2). by rewrite <- app_assoc.
Qed.

Lemma collectLeaked_state r s : (collectLeaked r s).2 = s.
Proof. apply collectAll_state. Qed.

Lemma collectLeaked_Done r s ips :
  Forall2 (fun a ip => ValidateIP (alloc_IP a) = Done ip) (leaked r) ips ->
  collectLeaked r s = (Done ips, s).
Proof. intros H. unfold collectLeaked. by rewrite (collectAll_Done _ [] s ips). Qed.

Lemma collectLoop_inv allocations acc s ips s' :
  foldM collect allocations acc s = (Done ips, s') ->
  exists new, ips = acc ++ new /\
    Forall2 (fun a ip => ValidateIP (alloc_IP a) = Done ip)
      (filter (fun a => InUse a = false) allocations) new.
Proof.
  revert acc. induction allocations as [|a l IH]; intros acc E.
  - simpl in E. unfold ret in E. simplify_eq. exists []. by rewrite app_nil_r.
  - simpl in E. apply bind_Done in E as (acc1 & s1 & E1 & E).
    rewrite collect_eq in E1. rewrite filter_cons.
    destruct (InUse a) eqn:Eu.
    + simplify_eq. rewrite decide_False by done. by apply IH.
    + rewrite decide_True by done.
      destruct (ValidateIP (alloc_IP a)) as [ip| |] eqn:Ev; simplify_eq.
      apply IH in E as (new & -> & Hf). exists (ip :: new).
      rewrite <- app_assoc. split; [done|]. by constructor.
Qed.

Lemma collectAll_inv groups acc s ips s' :
  foldM (fun acc allocations => foldM collect allocations acc) groups acc s
    = (Done ips, s') ->
  exists new, ips = acc ++ new /\
    Forall2 (fun a ip => ValidateIP (alloc_IP a) = Done ip)
      (filter (fun a => InUse a = false) (concat groups)) new.
Proof.
  revert acc s. induction groups as [|g groups IH]; intros acc s E.
  - simpl in E. unfold ret in E. simplify_eq. exists []. by rewrite app_nil_r.
  - simpl in E. apply bind_Done in E as (acc1 & s1 & E1 & E).
    apply collectLoop_inv in E1 as (new1 & -> & H1).
    apply IH in E as (new2 & -> & H2). exists (new1 ++ new2).
    rewrite <- app_assoc. split; [done|]. simpl. rewrite filter_app.
    by apply Forall2_app.
Qed.

Lemma collectLeaked_inv r s ips s' :
  collectLeaked r s = (Done ips, s') ->
  Forall2 (fun a ip => ValidateIP (alloc_IP a) = Done ip) (leaked r) ips.
Proof.
  intros E. apply collectAll_inv in E as (new & -> & H). done.
Qed.

Lemma returned_Done {A} (r : A + string) s a s' :
  returned r s = (Done a, s') -> r = inl a /\ s' = s.
Proof. destruct r; unfold returned, ret, fail; intros; by simplify_eq. Qed.

Lemma when_Done b (m : M unit) s s' :
  when b m s = (Done tt, s') ->
  (b = false /\ s' = s) \/ (b = true /\ m s = (Done tt, s')).
Proof. destruct b; unfold when, ret; intros; simplify_eq; auto. Qed.

(** The guards of [releaseFromReport], when the report is read and the
    cluster information is got. *)
Lemma release_guards force file version s bytes r info :
  ReadFile file = inl bytes -> Unmarshal bytes = inl r ->
  (GetClusterInformation (store s)).1 = inl info ->
  releaseFromReport force file version s
  = if decide (guardsPass force info r version)
    then bind (collectLeaked r) releaseCollected
           (emit (warnings info r version) s)
    else (Fail (refusal force info r version), s).
Proof.
  intros Hf Hu Hg. unfold releaseFromReport. rewrite Hf. step. rewrite Hu. step.
  step_with ltac:(rewrite getClusterInformation_eq, Hg; reflexivity).
  destruct (decide (guardsPass force info r version)) as [(H1 & H2 & H3)|Hn];
    unfold refusal, warnings.
  - rewrite !bool_decide_true by done. simpl. step. step.
    destruct H3 as [->|[-> <-]]; simpl.
    + destruct (default true (Spec_DatastoreReady info)); simpl;
        (step; case_bool_decide; simpl; step; rewrite ?emit_nil; try done;
         f_equal; unfold emit; simpl; by rewrite ?app_nil_r, <- ?app_assoc).
    + rewrite bool_decide_true by done. simpl. step. step.
      by rewrite emit_nil.
  - unfold guardsPass in Hn.
    destruct (decide (Spec_ClusterGUID info = ClusterGUID r)) as [H1|H1].
    2: { rewrite !bool_decide_false by done. simpl. by apply bind_Fail. }
    rewrite !bool_decide_true by done. simpl. step.
    destruct (decide (ResourceVersion info = ClusterInfoRevision r)) as [H2|H2].
    2: { rewrite !bool_decide_false by done. simpl. by apply bind_Fail. }
    rewrite !bool_decide_true by done. simpl. step.
    destruct force; [destruct Hn; auto|]. simpl.
    destruct (Spec_DatastoreReady info) as [[|]|] eqn:Er; simpl;
      try by apply bind_Fail.
    step. rewrite bool_decide_false by (intros ->; destruct Hn; auto).
    simpl. by apply bind_Fail.
Qed.

Lemma releaseCollected_none s :
  releaseCollected [] s = (Done tt, emit ["No addresses need to be released."] s).
Proof. done. Qed.

Lemma releaseCollected_some ips s :
  ips <> [] ->
  releaseCollected ips s
  = match (ReleaseIPs ips (store s)).1 with
    | inl unallocated =>
        (Done tt,
         afterCall (ReleaseIPs ips)
           ["Releasing " +:+ pretty (length ips) +:+ " old IPs";
            if bool_decide (unallocated = [])
            then "Released " +:+ pretty (length ips) +:+ " IPs successfully"
            else "Warning: report contained addresses which are no longer allocated"]
           s)
    | inr err =>
        (Fail err,
         afterCall (ReleaseIPs ips)
           ["Releasing " +:+ pretty (length ips) +:+ " old IPs"] s)
    end.
Proof.
  intros Hne. unfold releaseCollected.
  rewrite bool_decide_false by (by destruct ips).
  step. unfold bind. rewrite clientCall_eq. unfold afterCall. simpl.
  destruct ((ReleaseIPs ips (store s)).1) as [[|ip' un]|err]; simpl;
    unfold println; simpl; by rewrite ?app_nil_r, <- ?app_assoc.
Qed.

End ReleaseFacts.

Section ReleaseFacts2.
Import ReleaseCmd.
Context {lib : NetLib} {client : Client} {env : ReleaseEnv}.

Lemma clientCall_Done {A} (call : Datastore -> (A + string) * Datastore)
    s a s' :
  clientCall call s = (Done a, s') ->
  (call (store s)).1 = inl a /\ s' = afterCall call [] s.
Proof.
  rewrite clientCall_eq. destruct ((call (store s)).1); intros; by simplify_eq.
Qed.

Lemma releaseFromReport_reads force file version s s' :
  releaseFromReport force file version s = (Done tt, s') ->
  exists bytes r info,
    ReadFile file = inl bytes /\ Unmarshal bytes = inl r /\
    (GetClusterInformation (store s)).1 = inl info.
Proof.
  unfold releaseFromReport. intros E.
  apply bind_Done in E as (bytes & s1 & E1 & E).
  apply returned_Done in E1 as [Hf ->].
  apply bind_Done in E as (r & s2 & E2 & E).
  apply returned_Done in E2 as [Hu ->].
  apply bind_Done in E as (info & s3 & E3 & E).
  apply clientCall_Done in E3 as [Hg _]. by exists bytes, r, info.
Qed.

Lemma collectLeaked_fails r s :
  (exists a, a ∈ leaked r /\ forall ip, ValidateIP (alloc_IP a) <> Done ip) ->
  forall k : list IP -> M unit,
    (forall s', bind (collectLeaked r) k s <> (Done tt, s')) /\
    (bind (collectLeaked r) k s).2 = s.
Proof.
  intros (a & Hin & Hbad) k. pose proof (collectLeaked_state r s) as Hs.
  unfold bind. destruct (collectLeaked r s) as [[ips|e|p] s1] eqn:E;
    simpl in Hs; subst; [|done..].
  apply collectLeaked_inv in E.
  apply list_elem_of_lookup in Hin as [i Hi].
  destruct (Forall2_lookup_l _ _ _ _ _ E Hi) as (ip & _ & Hip).
  by destruct (Hbad ip).
Qed.

End ReleaseFacts2.

(** The small cluster: releasing from the report frees the two leaked
    addresses, and the check then finds none. *)
Example release_at_work :
  ReleaseCmd.Release (env := ReleaseFixture.env) (Some "report.json") None None
    "v3.16.0" (start (NewIPAMChecker false false) Fixture.cluster)
  = (Done tt,
     {| checker := NewIPAMChecker false false;
        stdout := ["Releasing 2 old IPs"; "Released 2 IPs successfully";
                   "You may now unlock the data store."];
        store := ReleaseFixture.released |}) /\
  (checkIPAM_locals (lib := Fixture.lib) (client := Fixture.client)
     (range := Fixture.forward)
     (start (NewIPAMChecker false false) ReleaseFixture.released)).1
  = Done {| allocatedButNotInUseIPs := [];
            inUseButNotAllocatedIPs := ["10.0.0.9"];
            nonCalicoIPs := ["192.168.99.9"];
            numProblems := 2 |}.
Proof. split; reflexivity. Qed.

(** ** The file of a migration *)

Section ImportFacts.

Lemma append_nil (b : string) : "" +:+ b = b.
Proof. reflexivity. Qed.

Lemma append_cons c (a b : string) : String c a +:+ b = String c (a +:+ b).
Proof. reflexivity. Qed.

Lemma sliceTo_app a x : sliceTo (String.length a) (a +:+ x) = a.
Proof.
  induction a as [|c a IH]; [by destruct x|].
  rewrite append_cons. simpl. by rewrite IH.
Qed.

Lemma sliceFrom_app a x n :
  sliceFrom (String.length a + n) (a +:+ x) = sliceFrom n x.
Proof.
  induction a as [|c a IH]; [done|]. rewrite append_cons. simpl. apply IH.
Qed.

Lemma sliceFrom_whole a x : sliceFrom (String.length a) (a +:+ x) = x.
Proof.
  rewrite <- (Nat.add_0_r (String.length a)). by rewrite sliceFrom_app.
Qed.

Lemma sliceFrom_length n s :
  String.length (sliceFrom n s) = String.length s - n.
Proof.
  revert s. induction n as [|n IH]; intros [|c s]; simpl;
    first [done|lia|apply IH].
Qed.

Lemma slice_join n s : sliceTo n s +:+ sliceFrom n s = s.
Proof.
  revert s. induction n as [|n IH]; intros [|c s]; try done.
  simpl. by rewrite append_cons, IH.
Qed.

Lemma prefix_app a s :
  String.prefix a s = true <-> exists x, s = a +:+ x.
Proof.
  revert s. induction a as [|c a IH]; intros [|c' s]; simpl.
  - split; [intros _; by exists ""|done].
  - split; [intros _; by exists (String c' s)|done].
  - split; [done|]. intros [x Hx]. rewrite append_cons in Hx. done.
  - destruct (ascii_dec c c') as [->|Hne].
    + rewrite IH. split; intros [x Hx]; exists x;
        rewrite append_cons in *; by simplify_eq.
    + split; [done|]. intros [x Hx]. rewrite append_cons in Hx. by simplify_eq.
Qed.

Lemma prefix_nil sep : sep <> "" -> String.prefix sep "" = false.
Proof. by destruct sep. Qed.

Lemma Index_nil sep : sep <> "" -> Index "" sep = None.
Proof. intros H. by destruct sep. Qed.

Lemma string_app_assoc (a b c : string) : (a +:+ b) +:+ c = a +:+ b +:+ c.
Proof.
  induction a as [|x a IH]; [done|]. by rewrite !append_cons, IH.
Qed.

Lemma string_app_length (a b : string) :
  String.length (a +:+ b) = String.length a + String.length b.
Proof.
  induction a as [|x a IH]; [done|]. rewrite append_cons. simpl. by rewrite IH.
Qed.

(** The first instance: what is before it, the separator, what is behind. *)
Lemma Index_Some s sep m :
  Index s sep = Some m ->
  s = sliceTo m s +:+ sep +:+ sliceFrom (m + String.length sep) s.
Proof.
  revert m. induction s as [|c s IH]; intros m.
  - destruct sep; simpl; [by intros [= <-]|done].
  - cbn [Index]. destruct (String.prefix sep (String c s)) eqn:E.
    + intros [= <-]. apply prefix_app in E as [x Hx]. rewrite Hx.
      cbn [sliceTo]. by rewrite append_nil, Nat.add_0_l, sliceFrom_whole.
    + destruct (Index s sep) as [m'|] eqn:Ei; [|done]. intros [= <-].
      cbn [sliceTo sliceFrom Nat.add]. by rewrite append_cons, <- (IH m').
Qed.

Lemma prefix_sliceTo a n s :
  String.prefix a (sliceTo n s) = true -> String.prefix a s = true.
Proof.
  rewrite !prefix_app. intros [x Hx]. exists (x +:+ sliceFrom n s).
  by rewrite <- string_app_assoc, <- Hx, slice_join.
Qed.

(** Nothing before the first instance holds the separator. *)
Lemma Index_sliceTo s sep m :
  sep <> "" -> Index s sep = Some m -> Index (sliceTo m s) sep = None.
Proof.
  intros Hsep. revert m. induction s as [|c s IH]; intros m.
  - intros _. destruct m; by apply Index_nil.
  - cbn [Index]. destruct (String.prefix sep (String c s)) eqn:E.
    + intros [= <-]. by apply Index_nil.
    + destruct (Index s sep) as [m'|] eqn:Ei; [|done]. intros [= <-].
      cbn [sliceTo Index].
      destruct (String.prefix sep (String c (sliceTo m' s))) eqn:E'.
      * apply (prefix_sliceTo sep (S m') (String c s)) in E'. congruence.
      * by rewrite (IH m').
Qed.

Lemma genSplit_not_nil fuel s sep : genSplit fuel s sep <> [].
Proof. destruct fuel; simpl; [done|]. by destruct (Index s sep). Qed.

(** Joining the pieces with the separator gives the slice back. *)
Lemma genSplit_join fuel s sep : Join (genSplit fuel s sep) sep = s.
Proof.
  revert s. induction fuel as [|fuel IH]; intros s; simpl; [done|].
  destruct (Index s sep) as [m|] eqn:E; [|done].
  pose proof (IH (sliceFrom (m + String.length sep) s)) as Hj.
  pose proof (genSplit_not_nil fuel (sliceFrom (m + String.length sep) s) sep).
  destruct (genSplit fuel (sliceFrom (m + String.length sep) s) sep)
    as [|p ps] eqn:Eg; [done|].
  change (Join (sliceTo m s :: p :: ps) sep)
    with (sliceTo m s +:+ sep +:+ Join (p :: ps) sep).
  rewrite Hj. symmetry. by apply Index_Some.
Qed.

(** No piece holds the separator. *)
Lemma genSplit_free fuel s sep :
  sep <> "" -> String.length s <= fuel ->
  Forall (fun p => Index p sep = None) (genSplit fuel s sep).
Proof.
  intros Hsep. revert s. induction fuel as [|fuel IH]; intros s Hlen; simpl.
  - destruct s; [|simpl in Hlen; lia].
    apply Forall_cons_2; [by apply Index_nil|apply Forall_nil_2].
  - destruct (Index s sep) as [m|] eqn:E.
    + apply Forall_cons_2; [by apply Index_sliceTo|]. apply IH.
      rewrite sliceFrom_length.
      assert (0 < String.length sep) by (destruct sep; [done|simpl; lia]).
      lia.
    + by apply Forall_cons_2; [|apply Forall_nil_2].
Qed.

Lemma genSplit_None fuel s sep : Index s sep = None -> genSplit fuel s sep = [s].
Proof. intros H. destruct fuel; simpl; [done|by rewrite H]. Qed.

(** An instance of the separator of the file cannot start before the end
    of a part that does not hold it. *)
Lemma Index_prefix s sep : String.prefix sep s = true -> Index s sep = Some 0.
Proof. intros H. destruct s; cbn [Index]; by rewrite H. Qed.

Lemma Index_boundary a rest :
  Index a importSeparator = None ->
  Index (a +:+ importSeparator +:+ rest) importSeparator
  = Some (String.length a).
Proof.
  induction a as [|c a IH].
  { intros _. rewrite append_nil. apply Index_prefix, prefix_app. by exists rest. }
  intros H. cbn [Index] in H.
  destruct (String.prefix importSeparator (String c a)) eqn:E; [done|].
  destruct (Index a importSeparator) eqn:Ei; [done|]. clear H.
  rewrite append_cons. cbn [String.length Index].
  rewrite (IH eq_refl).
  destruct (String.prefix importSeparator
              (String c (a +:+ importSeparator +:+ rest))) eqn:E2; [|done].
  exfalso. apply prefix_app in E2 as [x0 Hx].
  assert (String.prefix importSeparator (String c a) = true); [|congruence].
  apply prefix_app. clear IH Ei E. unfold importSeparator in *.
  destruct a as [|x [|y [|z a]]];
    rewrite ?append_cons, ?append_nil in Hx; simplify_eq.
  exists a. by rewrite !append_cons, append_nil.
Qed.

Lemma genSplit_cut fuel a rest :
  Index a importSeparator = None ->
  genSplit (S fuel) (a +:+ importSeparator +:+ rest) importSeparator
  = a :: genSplit fuel rest importSeparator.
Proof.
  intros Ha. cbn [genSplit].
  rewrite (Index_boundary a _ Ha), sliceTo_app.
  by rewrite (sliceFrom_app a _ (String.length importSeparator)),
    sliceFrom_whole.
Qed.

Lemma genSplit_three fuel a b c :
  Index a importSeparator = None ->
  Index b importSeparator = None ->
  Index c importSeparator = None ->
  genSplit (S (S fuel))
    (a +:+ importSeparator +:+ b +:+ importSeparator +:+ c) importSeparator
  = [a; b; c].
Proof.
  intros Ha Hb Hc.
  by rewrite (genSplit_cut _ a _ Ha), (genSplit_cut _ b _ Hb),
    (genSplit_None _ c _ Hc).
Qed.

(** The slices [Split] cuts into three parts. *)
Lemma Split_three content a b c :
  Split content importSeparator = [a; b; c] <->
  content = a +:+ importSeparator +:+ b +:+ importSeparator +:+ c /\
  Index a importSeparator = None /\
  Index b importSeparator = None /\
  Index c importSeparator = None.
Proof.
  unfold Split. split.
  - intros E.
    pose proof (genSplit_join (String.length content) content importSeparator)
      as Hj.
    pose proof (genSplit_free (String.length content) content importSeparator)
      as Hf.
    rewrite E in Hj, Hf. split; [by rewrite <- Hj|].
    specialize (Hf ltac:(done) ltac:(lia)).
    apply Forall_cons in Hf as [Ha Hf]. apply Forall_cons in Hf as [Hb Hf].
    by apply Forall_cons in Hf as [Hc _].
  - intros (-> & Ha & Hb & Hc).
    rewrite !string_app_length. unfold importSeparator at 1 2. simpl.
    replace (String.length a + S (S (S (S (String.length b + S (S (S (S (String.length c)))))))))
      with (S (S (String.length a + String.length b + String.length c + 6)))
      by lia.
    by apply genSplit_three.
Qed.

End ImportFacts.

(** The parts of the file of the fixture, and a file with one part too
    few. *)
Example splitImportFile_at_work :
  splitImportFile (files := ImportFixture.files) "-" = inl ("v3", "info", "ipam") /\
  splitImportFile (files := ImportFixture.files) "short.yaml"
  = inr "Imported file: short.yaml is improperly formatted. Try recreating with 'calicoctl export'" /\
  splitImportFile (files := ImportFixture.files) "missing.yaml"
  = inr "open missing.yaml: no such file or directory".
Proof. repeat split; reflexivity. Qed.

(** * Further properties *)

(** X1: when a list call fails and the phases before it go through, the
    check returns that call's error, wrapped in the text of its phase, and
    writes no line of a scan nor the summary. *)
Theorem listing_failure_aborts {lib : NetLib} {client : Client}
    {range : MapRange} (showAll showProblem : bool) (d : Datastore)
    (msg : string) :
  listingFailure d msg ->
  let run := checkIPAM (start (NewIPAMChecker showAll showProblem) d) in
  run.1 = Fail msg /\
  Forall (fun l => classificationLine l = false) (stdout run.2).
Proof.
  intros H. simpl.
  destruct (load_listing_fails (start (NewIPAMChecker showAll showProblem) d) msg)
    as [s1 E]; [done|].
  by apply checkIPAM_load_Fail with s1.
Qed.

(** X1 on a cluster whose nodes cannot be listed. *)
Lemma listing_failure_aborts_witness :
  let d := {| Fixture.blocks := inl [Fixture.block1];
              Fixture.pools := inl [];
              Fixture.nodes := inr "connection refused";
              Fixture.weps := inl [] |} in
  let run := checkIPAM (lib := Fixture.lib) (client := Fixture.client)
               (range := Fixture.forward)
               (start (NewIPAMChecker false true) d) in
  run.1 = Fail "failed to list nodes: connection refused" /\
  Forall (fun l => classificationLine l = false) (stdout run.2).
Proof.
  apply (listing_failure_aborts (lib := Fixture.lib) (client := Fixture.client)
           (range := Fixture.forward) false true).
  apply (nodesFailure _ [Fixture.block1] [] "connection refused").
  - reflexivity.
  - intros b i attrIdx Hb Hi. apply list_elem_of_singleton in Hb as ->.
    do 8 (destruct i as [|i]; [simpl in Hi; simplify_eq; lia|]).
    discriminate Hi.
  - reflexivity.
  - intros p Hp. by apply elem_of_nil in Hp.
  - reflexivity.
Defined.



(** X3: [getNodeIPs] reads at most three addresses, the fields that are
    set, in the order VXLAN, Wireguard, IPIP; it returns their normalised
    forms when all normalise, and otherwise the error of the first that
    does not, which names the field, the raw value and the node. *)
Theorem getNodeIPs_addresses {lib : NetLib} (n : Node) :
  length (nodeAddrs n) <= 3 /\
  (forall ips,
     getNodeIPs n = Done ips <->
     Forall2 (fun fr ip => normaliseIP fr.2 = Done ip) (nodeAddrs n) ips) /\
  (forall msg,
     getNodeIPs n = Fail msg <->
     exists before field raw after err,
       nodeAddrs n = before ++ (field, raw) :: after /\
       Forall (fun fr => exists ip, normaliseIP fr.2 = Done ip) before /\
       normaliseIP raw = Fail err /\
       msg = nodeParseError n field raw err).
Proof.
  split; [|split].
  - unfold nodeAddrs. rewrite !length_app.
    pose proof (setAddr_length "IPv4VXLANTunnelAddr" (Some (IPv4VXLANTunnelAddr n))).
    pose proof (setAddr_length "Wireguard.InterfaceIPv4Address"
                  (Wireguard_InterfaceIPv4Address n)).
    pose proof (setAddr_length "IPv4IPIPTunnelAddr" (BGP_IPv4IPIPTunnelAddr n)).
    lia.
  - intros ips. rewrite getNodeIPs_normaliseAll, normaliseAll_Done. split.
    + by intros (new & -> & Hf).
    + intros Hf. by exists ips.
  - intros msg. rewrite getNodeIPs_normaliseAll. apply normaliseAll_Fail.
Qed.

(** X4: [getWEPIPs] returns one normalised address for each entry of
    [IPNetworks], in order, when all normalise, and otherwise the error of
    the first entry that does not, which names the raw value and the
    workload endpoint. *)
Theorem getWEPIPs_addresses {lib : NetLib} (w : WorkloadEndpoint) :
  (forall ips,
     getWEPIPs w = Done ips <->
     Forall2 (fun raw ip => normaliseIP raw = Done ip) (IPNetworks w) ips) /\
  (forall msg,
     getWEPIPs w = Fail msg <->
     exists before raw after err,
       IPNetworks w = before ++ raw :: after /\
       Forall (fun r => exists ip, normaliseIP r = Done ip) before /\
       normaliseIP raw = Fail err /\
       msg = wepParseError w raw err).
Proof.
  split.
  - intros ips. unfold getWEPIPs. rewrite wepAddrs_Done. split.
    + by intros (new & -> & Hf).
    + intros Hf. by exists ips.
  - intros msg. apply wepAddrs_Fail.
Qed.

(** X5: for an allocated ordinal whose attribute index is not negative,
    [GetAttrString] returns: the rendering of the attribute when the index
    is inside the table, and "<missing>" when it is at or past its end. *)
Theorem GetAttrString_in_range {lib : NetLib} {range : MapRange}
    (b : AllocationBlock) (i : nat) (attrIdx : Z) :
  Allocations b !! i = Some (Some attrIdx) ->
  (0 <= attrIdx)%Z ->
  GetAttrString {| Block := b; Ordinal := Z.of_nat i |}
  = Done (match Attributes b !! Z.to_nat attrIdx with
          | Some attribute => formatAttrs attribute
          | None => "<missing>"
          end).
Proof.
  intros Hi Hidx. unfold GetAttrString. simpl.
  rewrite (index_nat _ _ _ Hi). simpl.
  destruct (attrIdx <? Z.of_nat (length (Attributes b)))%Z eqn:E.
  - apply Z.ltb_lt in E. unfold index.
    destruct (attrIdx <? 0)%Z eqn:E0; [apply Z.ltb_lt in E0; lia|].
    destruct (Attributes b !! Z.to_nat attrIdx) as [attribute|] eqn:El; [done|].
    apply lookup_ge_None in El. lia.
  - apply Z.ltb_ge in E.
    rewrite (proj2 (lookup_ge_None _ _)); [done|lia].
Qed.

(** X5 on the block of the small cluster, past the table and inside it. *)
Lemma GetAttrString_in_range_witness :
  GetAttrString (lib := Fixture.lib) (range := Fixture.forward)
    {| Block := Fixture.block1; Ordinal := Z.of_nat 7 |} = Done "<missing>" /\
  GetAttrString (lib := Fixture.lib) (range := Fixture.forward)
    {| Block := Fixture.block1; Ordinal := Z.of_nat 6 |}
  = Done "Main:windows-reserved-ipam-handle Extra:".
Proof.
  split.
  - apply (GetAttrString_in_range (lib := Fixture.lib)
             (range := Fixture.forward) Fixture.block1 7 7); [reflexivity|lia].
  - apply (GetAttrString_in_range (lib := Fixture.lib)
             (range := Fixture.forward) Fixture.block1 6 1); [reflexivity|lia].
Defined.

(** X6: after a load that succeeds, the allocation index holds under each
    address the allocated ordinals of the listed blocks that have this
    address, in the order of the listing, and has no entry for an address
    that no listed block allocates. *)
Theorem allocation_index_contents {lib : NetLib} {client : Client}
    {range : MapRange} (showAll showProblem : bool) (d : Datastore)
    (blocks : list AllocationBlock) (activeIPPools : list IPNet) (s1 : Run) :
  load (start (NewIPAMChecker showAll showProblem) d)
    = (Done activeIPPools, s1) ->
  (ListBlocks d).1 = inl blocks ->
  forall ip,
    allocations (checker s1) !! ip
    = match filter (fun a => allocIP a = ip) (blocks ≫= allocatedIn) with
      | [] => None
      | allocs => Some allocs
      end.
Proof.
  intros E Hb ip.
  apply load_records in E as (blocks' & nodes & weps & Hb' & _ & _ & Ha & _).
  rewrite Hb in Hb'. injection Hb' as <-.
  by rewrite Ha, group_filter.
Qed.

(** X6 on the small cluster. *)
Lemma allocation_index_contents_witness :
  allocations (checker Fixture.loaded) !! "10.0.0.5"
  = Some [{| Block := Fixture.block1; Ordinal := 5 |}] /\
  allocations (checker Fixture.loaded) !! "10.0.0.9" = None.
Proof.
  split.
  - apply (allocation_index_contents (lib := Fixture.lib)
             (client := Fixture.client) (range := Fixture.forward) false true
             Fixture.cluster [Fixture.block1] Fixture.active Fixture.loaded);
      reflexivity.
  - apply (allocation_index_contents (lib := Fixture.lib)
             (client := Fixture.client) (range := Fixture.forward) false true
             Fixture.cluster [Fixture.block1] Fixture.active Fixture.loaded);
      reflexivity.
Defined.

(** X7: after a load that succeeds, the in-use index holds under each
    address its owners in the order they were recorded: the reserved
    allocations of the blocks, then the nodes, then the workload endpoints;
    and has no entry for an address none of them has. *)
Theorem inuse_index_contents {lib : NetLib} {client : Client}
    {range : MapRange} (showAll showProblem : bool) (d : Datastore)
    (blocks : list AllocationBlock) (nodes : list Node)
    (weps : list WorkloadEndpoint) (activeIPPools : list IPNet) (s1 : Run) :
  load (start (NewIPAMChecker showAll showProblem) d)
    = (Done activeIPPools, s1) ->
  (ListBlocks d).1 = inl blocks ->
  (ListNodes d).1 = inl nodes ->
  (ListWorkloadEndpoints d).1 = inl weps ->
  forall ip,
    inUseIPs (checker s1) !! ip
    = match (filter (fun use => use.1 = ip) (usesOf blocks nodes weps)).*2 with
      | [] => None
      | owners => Some owners
      end.
Proof.
  intros E Hb Hn Hw ip.
  apply load_records in E as (blocks' & nodes' & weps' & Hb' & Hn' & Hw' & _ & Hu).
  rewrite Hb in Hb'. injection Hb' as <-.
  rewrite Hn in Hn'. injection Hn' as <-.
  rewrite Hw in Hw'. injection Hw' as <-.
  by rewrite Hu.
Qed.

(** X7 on the small cluster. *)
Lemma inuse_index_contents_witness :
  inUseIPs (checker Fixture.loaded) !! "10.0.0.6"
  = Some [reservedOwner Fixture.block1] /\
  inUseIPs (checker Fixture.loaded) !! "10.0.0.9"
  = Some [nodeOwner Fixture.node1] /\
  inUseIPs (checker Fixture.loaded) !! "10.0.0.5" = None.
Proof.
  split; [|split].
  - apply (inuse_index_contents (lib := Fixture.lib)
             (client := Fixture.client) (range := Fixture.forward) false true
             Fixture.cluster [Fixture.block1] [Fixture.node1] [Fixture.wep1]
             Fixture.active Fixture.loaded);
      reflexivity.
  - apply (inuse_index_contents (lib := Fixture.lib)
             (client := Fixture.client) (range := Fixture.forward) false true
             Fixture.cluster [Fixture.block1] [Fixture.node1] [Fixture.wep1]
             Fixture.active Fixture.loaded);
      reflexivity.
  - apply (inuse_index_contents (lib := Fixture.lib)
             (client := Fixture.client) (range := Fixture.forward) false true
             Fixture.cluster [Fixture.block1] [Fixture.node1] [Fixture.wep1]
             Fixture.active Fixture.loaded);
      reflexivity.
Defined.

(** X8: after a load that succeeds the three lists are, in terms of what
    was listed: leaked, the addresses some block allocates and that no
    node, no workload endpoint and no reservation uses; foreign, those in
    use that no block allocates and no active pool contains; missing, those
    in use that no block allocates and that some active pool contains. *)
Theorem findings_from_datastore {lib : NetLib} {client : Client}
    {range : MapRange} (showAll showProblem : bool) (d : Datastore)
    (blocks : list AllocationBlock) (nodes : list Node)
    (weps : list WorkloadEndpoint) (activeIPPools : list IPNet) (s1 : Run) :
  load (start (NewIPAMChecker showAll showProblem) d)
    = (Done activeIPPools, s1) ->
  (ListBlocks d).1 = inl blocks ->
  (ListNodes d).1 = inl nodes ->
  (ListWorkloadEndpoints d).1 = inl weps ->
  exists report s2,
    classify activeIPPools s1 = (Done report, s2) /\
    forall ip,
      (ip ∈ allocatedButNotInUseIPs report <->
         allocatedAt blocks ip /\ ~ usedAt blocks nodes weps ip) /\
      (ip ∈ nonCalicoIPs report <->
         usedAt blocks nodes weps ip /\ ~ allocatedAt blocks ip /\
         inActivePool activeIPPools ip = false) /\
      (ip ∈ inUseButNotAllocatedIPs report <->
         usedAt blocks nodes weps ip /\ ~ allocatedAt blocks ip /\
         inActivePool activeIPPools ip = true).
Proof.
  intros E Hb Hn Hw.
  pose proof (loaded_allocs_ok _ _ _ _ _ E) as Hok.
  apply load_records in E as (blocks' & nodes' & weps' & Hb' & Hn' & Hw' & Ha & Hu).
  rewrite Hb in Hb'. injection Hb' as <-.
  rewrite Hn in Hn'. injection Hn' as <-.
  rewrite Hw in Hw'. injection Hw' as <-.
  eexists _, _. split; [by apply classify_eq|]. intros ip. simpl.
  rewrite elem_of_leakedOf, elem_of_foreignOf, elem_of_missingOf.
  rewrite Ha, Hu, !group_is_Some, !group_None.
  rewrite allocated_allocatedAt, used_usedAt. done.
Qed.

(** X8 on the small cluster. *)
Lemma findings_from_datastore_witness :
  exists report s2,
    classify (lib := Fixture.lib) (client := Fixture.client)
      (range := Fixture.forward) Fixture.active Fixture.loaded
      = (Done report, s2) /\
    forall ip,
      (ip ∈ allocatedButNotInUseIPs report <->
         allocatedAt [Fixture.block1] ip /\
         ~ usedAt [Fixture.block1] [Fixture.node1] [Fixture.wep1] ip) /\
      (ip ∈ nonCalicoIPs report <->
         usedAt [Fixture.block1] [Fixture.node1] [Fixture.wep1] ip /\
         ~ allocatedAt [Fixture.block1] ip /\
         inActivePool Fixture.active ip = false) /\
      (ip ∈ inUseButNotAllocatedIPs report <->
         usedAt [Fixture.block1] [Fixture.node1] [Fixture.wep1] ip /\
         ~ allocatedAt [Fixture.block1] ip /\
         inActivePool Fixture.active ip = true).
Proof.
  apply (findings_from_datastore (lib := Fixture.lib)
           (client := Fixture.client) (range := Fixture.forward) false true
           Fixture.cluster [Fixture.block1] [Fixture.node1] [Fixture.wep1]);
    reflexivity.
Defined.

(** X9: the two flags change what is written only: on the same datastore
    the check has the same outcome, with the same three lists and the same
    total, or the same error, or the same panic, whatever the flags. *)
Theorem verbosity_keeps_outcome {lib : NetLib} {client : Client}
    {range : MapRange} (showAll showProblem showAll' showProblem' : bool)
    (d : Datastore) :
  (checkIPAM_locals (start (NewIPAMChecker showAll showProblem) d)).1
  = (checkIPAM_locals (start (NewIPAMChecker showAll' showProblem') d)).1 /\
  (checkIPAM (start (NewIPAMChecker showAll showProblem) d)).1
  = (checkIPAM (start (NewIPAMChecker showAll' showProblem') d)).1.
Proof.
  set (s := start (NewIPAMChecker showAll showProblem) d).
  set (t := start (NewIPAMChecker showAll' showProblem') d).
  assert (H : (checkIPAM_locals s).1 = (checkIPAM_locals t).1).
  { destruct (agree_load s t) as [E (Ha & Hu & _)]; [done|].
    unfold checkIPAM_locals, bind.
    destruct (load s) as [[pools|e|p] s1] eqn:Es,
             (load t) as [[pools'|e'|p'] t1] eqn:Et;
      simpl in E; simplify_eq; try done.
    rewrite (classify_eq pools' s1), (classify_eq pools' t1)
      by (eapply loaded_allocs_ok; eassumption).
    simpl. f_equal. by apply reportOf_same_indexes. }
  split; [done|]. unfold checkIPAM, bind.
  destruct (checkIPAM_locals s) as [[r|e|p] s1],
           (checkIPAM_locals t) as [[r'|e'|p'] t1]; simpl in H; by simplify_eq.
Qed.

(** X10: [releaseFromReport] returns nil only when the report was read
    and parsed, the cluster information was got, the cluster GUID and the
    revision of the report are those of the cluster, and either the release
    is forced or the datastore is locked and the report was made by this
    version. *)
Theorem release_only_when_guarded {lib : NetLib} {client : Client}
    {env : ReleaseCmd.ReleaseEnv} (force : bool) (reportFile version : string)
    (s s' : Run) :
  ReleaseCmd.releaseFromReport force reportFile version s = (Done tt, s') ->
  exists bytes r info,
    ReleaseCmd.ReadFile reportFile = inl bytes /\
    ReleaseCmd.Unmarshal bytes = inl r /\
    (ReleaseCmd.GetClusterInformation (store s)).1 = inl info /\
    ReleaseCmd.guardsPass force info r version.
Proof.
  intros E.
  destruct (releaseFromReport_reads _ _ _ _ _ E) as (bytes & r & info & Hf & Hu & Hg).
  exists bytes, r, info. repeat (split; [done|]).
  rewrite (release_guards _ _ _ _ _ _ _ Hf Hu Hg) in E.
  by destruct (decide (ReleaseCmd.guardsPass force info r version)).
Qed.

(** X10 on the report of the small cluster. *)
Lemma release_only_when_guarded_witness :
  exists bytes r info,
    ReleaseCmd.ReadFile (lib := Fixture.lib) (client := Fixture.client)
      (ReleaseEnv := ReleaseFixture.env) "report.json" = inl bytes /\
    ReleaseCmd.Unmarshal (lib := Fixture.lib) (client := Fixture.client)
      (ReleaseEnv := ReleaseFixture.env) bytes = inl r /\
    (ReleaseCmd.GetClusterInformation (lib := Fixture.lib)
       (client := Fixture.client) (ReleaseEnv := ReleaseFixture.env)
       Fixture.cluster).1 = inl info /\
    ReleaseCmd.guardsPass false info r "v3.16.0".
Proof.
  apply (release_only_when_guarded (lib := Fixture.lib) (client := Fixture.client)
           (env := ReleaseFixture.env) false
           "report.json" "v3.16.0"
           ReleaseFixture.fresh ReleaseFixture.afterRelease).
  reflexivity.
Defined.

(** X11: when a guard does not pass, [releaseFromReport] returns the error
    of the first guard that fails and leaves the process as it was: nothing
    is written and nothing is released.  [--force] does not override the
    guards on the cluster GUID and on the revision. *)
Theorem release_refused_untouched {lib : NetLib} {client : Client}
    {env : ReleaseCmd.ReleaseEnv} (force : bool) (reportFile version : string)
    (s : Run) (bytes : string) (r : ReleaseCmd.Report)
    (info : ReleaseCmd.ClusterInformation) :
  ReleaseCmd.ReadFile reportFile = inl bytes ->
  ReleaseCmd.Unmarshal bytes = inl r ->
  (ReleaseCmd.GetClusterInformation (store s)).1 = inl info ->
  ~ ReleaseCmd.guardsPass force info r version ->
  ReleaseCmd.releaseFromReport force reportFile version s
  = (Fail (ReleaseCmd.refusal force info r version), s).
Proof.
  intros Hf Hu Hg Hn. rewrite (release_guards _ _ _ _ _ _ _ Hf Hu Hg).
  by destruct (decide (ReleaseCmd.guardsPass force info r version)).
Qed.

(** X11: a stale report is refused although the release is forced. *)
Lemma release_refused_untouched_witness :
  let s := ReleaseFixture.fresh in
  ReleaseCmd.releaseFromReport (env := ReleaseFixture.env) true "stale.json"
    "v3.16.0" s
  = (Fail "The provided report is stale, please generate a new report while the data store is locked and try again.",
     s).
Proof.
  apply (release_refused_untouched (lib := Fixture.lib) (client := Fixture.client)
           (env := ReleaseFixture.env) true
           "stale.json" "v3.16.0"
           ReleaseFixture.fresh
           "stale.json" ReleaseFixture.staleReport ReleaseFixture.info).
  - reflexivity.
  - reflexivity.
  - reflexivity.
  - intros (_ & H & _). discriminate H.
Defined.

(** X12: when the guards pass and the addresses of the entries that are
    not in use validate, [releaseFromReport] writes the warnings of the
    guards that were forced, makes no call when there is no such entry, and
    otherwise calls [ReleaseIPs] once, with exactly these addresses in the
    order of the report; it returns the error of that call, and nil
    otherwise, also when some addresses were no longer allocated. *)
Theorem release_frees_unused_entries {lib : NetLib} {client : Client}
    {env : ReleaseCmd.ReleaseEnv} (force : bool) (reportFile version : string)
    (s : Run) (bytes : string) (r : ReleaseCmd.Report)
    (info : ReleaseCmd.ClusterInformation) (ips : list IP) :
  ReleaseCmd.ReadFile reportFile = inl bytes ->
  ReleaseCmd.Unmarshal bytes = inl r ->
  (ReleaseCmd.GetClusterInformation (store s)).1 = inl info ->
  ReleaseCmd.guardsPass force info r version ->
  Forall2 (fun a ip => ReleaseCmd.ValidateIP (ReleaseCmd.alloc_IP a) = Done ip)
    (ReleaseCmd.leaked r) ips ->
  let warned := ReleaseCmd.warnings info r version in
  let count := pretty (length ips) in
  ReleaseCmd.releaseFromReport force reportFile version s
  = if decide (ips = []) then
      (Done tt, emit (warned ++ ["No addresses need to be released."]) s)
    else
      match (ReleaseCmd.ReleaseIPs ips (store s)).1 with
      | inl unallocated =>
          (Done tt,
           ReleaseCmd.afterCall (ReleaseCmd.ReleaseIPs ips)
             (warned
              ++ ["Releasing " +:+ count +:+ " old IPs";
                  if bool_decide (unallocated = [])
                  then "Released " +:+ count +:+ " IPs successfully"
                  else "Warning: report contained addresses which are no longer allocated"])
             s)
      | inr err =>
          (Fail err,
           ReleaseCmd.afterCall (ReleaseCmd.ReleaseIPs ips)
             (warned ++ ["Releasing " +:+ count +:+ " old IPs"]) s)
      end.
Proof.
  intros Hf Hu Hg Hok Hips. simpl.
  rewrite (release_guards _ _ _ _ _ _ _ Hf Hu Hg).
  destruct (decide (ReleaseCmd.guardsPass force info r version)); [|done].
  rewrite (bind_step _ _ _ _ _ (collectLeaked_Done r _ ips Hips)).
  destruct (decide (ips = [])) as [->|Hne].
  - by rewrite releaseCollected_none, emit_emit.
  - rewrite (releaseCollected_some ips _ Hne). simpl.
    unfold ReleaseCmd.afterCall, emit. simpl.
    destruct ((ReleaseCmd.ReleaseIPs ips (store s)).1);
      by rewrite <- ?app_assoc.
Qed.

(** X12 on the report of the small cluster. *)
Lemma release_frees_unused_entries_witness :
  ReleaseCmd.releaseFromReport (env := ReleaseFixture.env) false "report.json"
    "v3.16.0" ReleaseFixture.fresh
  = (Done tt, ReleaseFixture.afterRelease).
Proof.
  apply (release_frees_unused_entries (lib := Fixture.lib) (client := Fixture.client)
           (env := ReleaseFixture.env) false
           "report.json" "v3.16.0"
           ReleaseFixture.fresh
           "report.json" ReleaseFixture.report ReleaseFixture.info
           [167772165%N; 167772167%N]).
  - reflexivity.
  - reflexivity.
  - reflexivity.
  - split; [reflexivity|]. split; [reflexivity|]. right. split; reflexivity.
  - repeat constructor.
Defined.

(** X13: when an entry that is not in use has an address that does not
    validate, [releaseFromReport] does not return nil and releases
    nothing. *)
Theorem release_validates_first {lib : NetLib} {client : Client}
    {env : ReleaseCmd.ReleaseEnv} (force : bool) (reportFile version : string)
    (s : Run) (bytes : string) (r : ReleaseCmd.Report)
    (info : ReleaseCmd.ClusterInformation) (a : ReleaseCmd.Allocation) :
  ReleaseCmd.ReadFile reportFile = inl bytes ->
  ReleaseCmd.Unmarshal bytes = inl r ->
  (ReleaseCmd.GetClusterInformation (store s)).1 = inl info ->
  a ∈ ReleaseCmd.leaked r ->
  (forall ip, ReleaseCmd.ValidateIP (ReleaseCmd.alloc_IP a) <> Done ip) ->
  let run := ReleaseCmd.releaseFromReport force reportFile version s in
  (forall s', run <> (Done tt, s')) /\ store run.2 = store s.
Proof.
  intros Hf Hu Hg Hin Hbad. simpl.
  rewrite (release_guards _ _ _ _ _ _ _ Hf Hu Hg).
  destruct (decide (ReleaseCmd.guardsPass force info r version)); [|done].
  destruct (collectLeaked_fails r (emit (ReleaseCmd.warnings info r version) s)
              (ex_intro _ a (conj Hin Hbad)) ReleaseCmd.releaseCollected)
    as [Hnot Hst].
  split; [done|]. by rewrite Hst.
Qed.

(** X13 on a report with the entry [10.0.0.x]. *)
Lemma release_validates_first_witness :
  let s := ReleaseFixture.fresh in
  let run := ReleaseCmd.releaseFromReport (env := ReleaseFixture.env) false
               "broken.json" "v3.16.0" s in
  (forall s', run <> (Done tt, s')) /\ store run.2 = Fixture.cluster.
Proof.
  apply (release_validates_first (lib := Fixture.lib) (client := Fixture.client)
           (env := ReleaseFixture.env) false
           "broken.json" "v3.16.0"
           ReleaseFixture.fresh
           "broken.json" ReleaseFixture.brokenReport ReleaseFixture.info
           {| ReleaseCmd.alloc_IP := "10.0.0.x"; ReleaseCmd.InUse := false |}).
  - reflexivity.
  - reflexivity.
  - reflexivity.
  - apply list_elem_of_further, list_elem_of_here.
  - intros ip H. discriminate H.
Defined.

(** X14: with [--from-report], [Release] is [releaseFromReport] with
    [--force] read as false when it is not given; [--ip] is not looked at;
    the line that tells to unlock the datastore is written, last, exactly
    when the release returns nil, which needs the guards to pass; an error
    is returned as it is. *)
Theorem Release_from_report {lib : NetLib} {client : Client}
    {env : ReleaseCmd.ReleaseEnv} (reportFile : string)
    (forceArg : option bool) (ipArg : option string) (version : string)
    (s : Run) :
  let inner :=
    ReleaseCmd.releaseFromReport (default false forceArg) reportFile version s in
  let run := ReleaseCmd.Release (Some reportFile) forceArg ipArg version s in
  run.1 = inner.1 /\
  store run.2 = store inner.2 /\
  stdout run.2
  = stdout inner.2
    ++ match inner.1 with
       | Done _ => ["You may now unlock the data store."]
       | _ => []
       end /\
  (forall s',
     run = (Done tt, s') ->
     last (stdout s') = Some "You may now unlock the data store." /\
     exists bytes r info,
       ReleaseCmd.ReadFile reportFile = inl bytes /\
       ReleaseCmd.Unmarshal bytes = inl r /\
       (ReleaseCmd.GetClusterInformation (store s)).1 = inl info /\
       ReleaseCmd.guardsPass (default false forceArg) info r version).
Proof.
  simpl. unfold ReleaseCmd.Release, bind.
  destruct (ReleaseCmd.releaseFromReport _ _ _ s) as [[[]|e|p] s1] eqn:E; simpl;
    rewrite ?app_nil_r; (do 3 (split; [done|])); intros s' Hs'; [|done..].
  unfold println in Hs'. injection Hs' as <-. simpl.
  split; [by rewrite last_snoc|].
  destruct (releaseFromReport_reads _ _ _ _ _ E)
    as (bytes & r & info & Hf & Hu & Hg).
  exists bytes, r, info. repeat (split; [done|]).
  rewrite (release_guards _ _ _ _ _ _ _ Hf Hu Hg) in E.
  by destruct (decide (ReleaseCmd.guardsPass (default false forceArg) info r
                         version)).
Qed.

(** X15: with [--ip] alone, [Release] calls [ReleaseIPs] once with the
    validated address, without looking at the cluster information; it
    returns nil and writes one line when no address comes back, the error
    "is not assigned" when the address comes back, and the error of the
    call behind "Error: ". *)
Theorem Release_one_address {lib : NetLib} {client : Client}
    {env : ReleaseCmd.ReleaseEnv} (forceArg : option bool)
    (passedIP version : string) (ip : IP) (s : Run) :
  ReleaseCmd.ValidateIP passedIP = Done ip ->
  ReleaseCmd.Release None forceArg (Some passedIP) version s
  = match (ReleaseCmd.ReleaseIPs [ip] (store s)).1 with
    | inl [] =>
        (Done tt,
         ReleaseCmd.afterCall (ReleaseCmd.ReleaseIPs [ip])
           ["Successfully released IP address " +:+ IP_String ip] s)
    | inl (_ :: _) =>
        (Fail ("IP address " +:+ IP_String ip +:+ " is not assigned"),
         ReleaseCmd.afterCall (ReleaseCmd.ReleaseIPs [ip]) [] s)
    | inr err =>
        (Fail ("Error: " +:+ err),
         ReleaseCmd.afterCall (ReleaseCmd.ReleaseIPs [ip]) [] s)
    end.
Proof.
  intros Hv. unfold ReleaseCmd.Release. rewrite Hv. step.
  unfold bind, ReleaseCmd.wrapError. rewrite clientCall_eq.
  destruct ((ReleaseCmd.ReleaseIPs [ip] (store s)).1) as [[|ip' un]|err];
    simpl; try done.
  unfold println, ReleaseCmd.afterCall. simpl. by rewrite app_nil_r.
Qed.

(** X15: 10.0.0.9 is not allocated on the small cluster. *)
Lemma Release_one_address_witness :
  ReleaseCmd.Release (env := ReleaseFixture.env) None None (Some "10.0.0.9")
    "v3.16.0" ReleaseFixture.fresh
  = (Fail "IP address 10.0.0.9 is not assigned",
     ReleaseFixture.fresh).
Proof.
  apply (Release_one_address (lib := Fixture.lib) (client := Fixture.client)
           (env := ReleaseFixture.env) None "10.0.0.9"
           "v3.16.0" 167772169%N
           ReleaseFixture.fresh).
  reflexivity.
Defined.

(** X16: a load that succeeds writes the counts of what it found: the
    blocks listed, the distinct addresses they allocate, the pools that are
    not disabled, the addresses of the nodes and those of the workload
    endpoints, each counted as often as it is listed, and the distinct
    addresses in use, reservations included. *)
Theorem load_counts {lib : NetLib} {client : Client} {range : MapRange}
    (showAll showProblem : bool) (d : Datastore)
    (blocks : list AllocationBlock) (pools : list IPPool) (nodes : list Node)
    (weps : list WorkloadEndpoint) (activeIPPools : list IPNet) (s1 : Run) :
  load (start (NewIPAMChecker showAll showProblem) d)
    = (Done activeIPPools, s1) ->
  (ListBlocks d).1 = inl blocks ->
  (ListIPPools d).1 = inl pools ->
  (ListNodes d).1 = inl nodes ->
  (ListWorkloadEndpoints d).1 = inl weps ->
  Forall (fun line => line ∈ stdout s1) (countLines blocks pools nodes weps).
Proof.
  intros E Hb Hp Hn Hw.
  destruct (load_records _ _ _ _ _ E)
    as (blocks' & nodes' & weps' & Hb' & Hn' & Hw' & Ha & Hu).
  rewrite Hb in Hb'. injection Hb' as <-.
  rewrite Hn in Hn'. injection Hn' as <-.
  rewrite Hw in Hw'. injection Hw' as <-.
  apply load_Done in E as (sa & sb & sc & sd & Hs & Hc & Eb & Ep & En & Ew).
  pose proof (always_run _ _ _ _ _ loadBlocks_store Eb) as Sb.
  pose proof (always_run _ _ _ _ _ loadPools_store Ep) as Sp.
  pose proof (always_run _ _ _ _ _ loadNodes_store En) as Sn.
  pose proof (always_run _ _ _ _ _ loadPools_grows Ep) as Gp.
  pose proof (always_run _ _ _ _ _ loadNodes_grows En) as Gn.
  pose proof (always_run _ _ _ _ _ loadWorkloadEndpoints_grows Ew) as Gw.
  pose proof (always_run _ _ _ _ _ loadPools_allocations Ep) as Ap.
  pose proof (always_run _ _ _ _ _ loadNodes_allocations En) as An.
  pose proof (always_run _ _ _ _ _ loadWorkloadEndpoints_allocations Ew) as Aw.
  unfold same_store, same_allocations in *. simpl in *.
  apply loadBlocks_counts in Eb as (blocks' & Hb' & L1 & L2).
  rewrite Hs, Hb in Hb'. injection Hb' as <-.
  pose proof (loadPools_counts _ _ _ Ep) as L3.
  apply loadPools_Done in Ep as (pools' & Hp' & Hact).
  rewrite Sb, Hs, Hp in Hp'. injection Hp' as <-.
  apply loadNodes_counts in En as (nodes' & Hn' & L4).
  rewrite Sp, Sb, Hs, Hn in Hn'. injection Hn' as <-.
  apply loadWorkloadEndpoints_counts in Ew as (weps' & Hw' & L5 & L6).
  rewrite Sn, Sp, Sb, Hs, Hw in Hw'. injection Hw' as <-.
  assert (Hlen : length activeIPPools = length (enabledPools pools)).
  { apply (f_equal length) in Hact. by rewrite !length_fmap in Hact. }
  assert (Hsa : size (allocations (checker sb))
                = length (remove_dups (allocIP <$> (blocks ≫= allocatedIn)))).
  { rewrite <- Ap, <- An, <- Aw.
    rewrite (size_group ((fun a => (allocIP a, a)) <$> (blocks ≫= allocatedIn)))
      by done.
    by rewrite <- list_fmap_compose. }
  rewrite Hsa in L2. rewrite Hlen in L3.
  rewrite (size_group (usesOf blocks nodes weps)) in L6 by done.
  unfold countLines. repeat (apply Forall_cons_2; [|]); try apply Forall_nil_2;
    eauto using grows_elem.
Qed.

(** X16 on the small cluster. *)
Lemma load_counts_witness :
  Forall (fun line => line ∈ stdout Fixture.loaded)
    ["Found 1 IPAM blocks."; "IPAM blocks record 3 allocations.";
     "Found 1 active IP pools."; "Found 1 node tunnel IPs.";
     "Found 1 workload IPs."; "Workloads and nodes are using 3 IPs."].
Proof.
  apply (load_counts (lib := Fixture.lib) (client := Fixture.client)
           (range := Fixture.forward) false true Fixture.cluster
           [Fixture.block1]
           [ {| pool_CIDR := "10.0.0.0/24"; pool_Disabled := false |};
             {| pool_CIDR := "192.168.0.0/16"; pool_Disabled := true |} ]
           [Fixture.node1] [Fixture.wep1] Fixture.active Fixture.loaded);
    reflexivity.
Defined.

(** X17: [splitImportFile] returns three parts exactly when the file it
    read is these parts, none of which holds the separator, with the
    separator between them; otherwise, when the file was read, its error
    names the file, standard input for [-]. *)
Theorem splitImportFile_format {files : Files} (filename content : string) :
  ReadFile (importFileName filename) = inl content ->
  (forall v3Yaml clusterInfoJson ipamJson,
     splitImportFile filename = inl (v3Yaml, clusterInfoJson, ipamJson) <->
     content = v3Yaml +:+ importSeparator +:+ clusterInfoJson
               +:+ importSeparator +:+ ipamJson /\
     Index v3Yaml importSeparator = None /\
     Index clusterInfoJson importSeparator = None /\
     Index ipamJson importSeparator = None) /\
  ((exists parts, splitImportFile filename = inl parts) \/
   splitImportFile filename
   = inr ("Imported file: " +:+ importFileName filename
          +:+ " is improperly formatted. Try recreating with 'calicoctl export'")).
Proof.
  intros Hr. unfold splitImportFile. rewrite Hr. split.
  - intros a b c. rewrite <- Split_three.
    destruct (Split content importSeparator) as [|p [|q [|r [|t l]]]];
      split; intros H; by simplify_eq.
  - destruct (Split content importSeparator) as [|p [|q [|r [|t l]]]]; eauto.
Qed.

(** X17 on the file of the fixture, read from standard input. *)
Lemma splitImportFile_format_witness :
  (forall v3Yaml clusterInfoJson ipamJson,
     splitImportFile (files := ImportFixture.files) "-"
       = inl (v3Yaml, clusterInfoJson, ipamJson) <->
     ImportFixture.migration
       = v3Yaml +:+ importSeparator +:+ clusterInfoJson
         +:+ importSeparator +:+ ipamJson /\
     Index v3Yaml importSeparator = None /\
     Index clusterInfoJson importSeparator = None /\
     Index ipamJson importSeparator = None) /\
  ((exists parts,
      splitImportFile (files := ImportFixture.files) "-" = inl parts) \/
   splitImportFile (files := ImportFixture.files) "-"
   = inr "Imported file: /dev/stdin is improperly formatted. Try recreating with 'calicoctl export'").
Proof.
  apply (splitImportFile_format (files := ImportFixture.files) "-"
           ImportFixture.migration).
  reflexivity.
Defined.
